(** * Nutrition advisor: the meal-text analysis engine of [app.py]

    A shallow embedding of the parsing, matching, nutrition and dietary
    analysis code of [app.py], with the properties stated about it.

    Modelling conventions.
    - Text is a list of characters with code points below 256; the character
      classes ([\s], [\d], [\w], [.], [str.lower], [str.strip]) are those of
      Python 3 on that range.
    - Numbers are exact rationals ([Q]): Python's binary floating point
      (rounding error, overflow to infinity, underflow to zero) is not
      modelled, and [round] rounds the exact value half to even.
    - Exceptions are values: a computation returns [Ok v] or [Raise e]. *)

From Stdlib Require Import List Ascii String Bool Arith NArith ZArith QArith Qround Lia
  Sorted Permutation.
Import ListNotations.

Set Implicit Arguments.
Close Scope Q_scope.
Open Scope bool_scope.
Open Scope list_scope.

Ltac inv H := inversion H; subst; clear H.

(** Membership in a list given by its elements. *)
Ltac in_list := simpl; repeat first [left; reflexivity | right].

(* ================================================================== *)
(** * Part I. Definitions *)
(* ================================================================== *)

(** ** Python values: text, exceptions, numbers *)

(** Text whose characters all lie below U+0100.  A Python [str] can hold
    any code point; what the program does with a text that has a character
    above U+00FF is not described by this development. *)
Definition str := list ascii.

Definition txt (s : string) : str := list_ascii_of_string s.

Definition str_eqb (a b : str) : bool :=
  if list_eq_dec ascii_dec a b then true else false.

Inductive exn : Type := KeyError | ValueError | TypeError | ZeroDivisionError.

Inductive result (A : Type) : Type :=
| Ok (a : A)
| Raise (e : exn).

Arguments Ok {A} a.
Arguments Raise {A} e.

Definition bind {A B : Type} (m : result A) (f : A -> result B) : result B :=
  match m with
  | Ok a => f a
  | Raise e => Raise e
  end.

Notation "x <- m ;; k" := (bind m (fun x => k))
  (at level 61, m at next level, right associativity).

Definition code (c : ascii) : N := N_of_ascii c.

Definition in_range (lo hi : N) (c : ascii) : bool :=
  ((lo <=? code c) && (code c <=? hi))%N.

(** [str.isspace] and the regex class [\s]. *)
Definition isspace (c : ascii) : bool :=
  in_range 9 13 c || in_range 28 32 c || (code c =? 133)%N || (code c =? 160)%N.

(** The regex class [\d]. *)
Definition isdigit (c : ascii) : bool := in_range 48 57 c.

(** The regex class [\w]: alphanumeric characters and the underscore. *)
Definition isword (c : ascii) : bool :=
  in_range 48 57 c || in_range 65 90 c || in_range 97 122 c || (code c =? 95)%N
  || (code c =? 170)%N || in_range 178 179 c || (code c =? 181)%N
  || in_range 185 186 c || in_range 188 190 c
  || in_range 192 214 c || in_range 216 246 c || in_range 248 255 c.

(** The regex class [.] (no DOTALL flag): anything but a newline. *)
Definition isdot (c : ascii) : bool := negb (code c =? 10)%N.

Definition lower_char (c : ascii) : ascii :=
  if in_range 65 90 c || (in_range 192 222 c && negb (code c =? 215)%N)
  then ascii_of_N (code c + 32)
  else c.

Definition lower (s : str) : str := map lower_char s.

Fixpoint lstrip (s : str) : str :=
  match s with
  | c :: s' => if isspace c then lstrip s' else s
  | [] => []
  end.

Definition strip (s : str) : str := rev (lstrip (rev (lstrip s))).

(** [len(s) == 0], the falsity of a string. *)
Definition is_empty (s : str) : bool :=
  match s with [] => true | _ :: _ => false end.

(** [needle in hay] on strings. *)
Fixpoint starts_with (pre s : str) : bool :=
  match pre, s with
  | [], _ => true
  | a :: pre', b :: s' => Ascii.eqb a b && starts_with pre' s'
  | _ :: _, [] => false
  end.

Fixpoint contains (needle hay : str) : bool :=
  starts_with needle hay ||
  match hay with
  | [] => false
  | _ :: hay' => contains needle hay'
  end.

(** Order of strings by code points, as Python compares [str]. *)
Fixpoint str_ltb (a b : str) : bool :=
  match a, b with
  | [], [] => false
  | [], _ :: _ => true
  | _ :: _, [] => false
  | x :: a', y :: b' =>
      if (code x <? code y)%N then true
      else if (code y <? code x)%N then false
      else str_ltb a' b'
  end.

(** *** Numbers *)

Definition Qltb (x y : Q) : bool :=
  match (x ?= y)%Q with Lt => true | _ => false end.

(** Truth value of a number: [0] is false. *)
Definition truthy (x : Q) : bool := negb (Qeq_bool x 0%Q).

(** [x / y] with Python's [ZeroDivisionError]. *)
Definition py_div (x y : Q) : result Q :=
  if Qeq_bool y 0%Q then Raise ZeroDivisionError else Ok (x / y)%Q.

(** [round(x, ndigits)]: nearest multiple of [10^-ndigits], ties to even. *)
Definition round_half_even (x : Q) : Z :=
  let f := Qfloor x in
  match ((x - inject_Z f) ?= (1 # 2))%Q with
  | Lt => f
  | Gt => (f + 1)%Z
  | Eq => if Z.even f then f else (f + 1)%Z
  end.

Definition round (x : Q) (ndigits : nat) : Q :=
  let scale := Pos.pow 10 (Pos.of_nat ndigits) in
  match ndigits with
  | O => Qred (inject_Z (round_half_even x))
  | S _ => Qred (Qmake (round_half_even (x * inject_Z (Zpos scale))%Q) scale)
  end.

(** [float(s)] on the decimal literals [digits] and [digits.digits]; every
    call site passes the text of a regex group of that shape.  Other
    arguments are reported as [ValueError].  The result is the rational the
    literal denotes: Python rounds it to the nearest double, and reads a
    literal above about [1.8e308] (more than 308 digits) as infinity, which
    has no counterpart here. *)
Definition digit_val (c : ascii) : Z := (Z.of_N (code c) - 48)%Z.

Definition digits_val (s : str) : Z :=
  fold_left (fun acc c => acc * 10 + digit_val c)%Z s 0%Z.

Definition all_digits (s : str) : bool :=
  negb (is_empty s) && forallb isdigit s.

Fixpoint split_dot (s : str) : str * option str :=
  match s with
  | [] => ([], None)
  | c :: s' =>
      if (code c =? 46)%N then ([], Some s')
      else let '(a, b) := split_dot s' in (c :: a, b)
  end.

Definition float (s : str) : result Q :=
  match split_dot s with
  | (ip, None) =>
      if all_digits ip then Ok (inject_Z (digits_val ip)) else Raise ValueError
  | (ip, Some fp) =>
      if all_digits ip && all_digits fp
      then Ok (inject_Z (digits_val ip)
               + Qmake (digits_val fp) (Pos.pow 10 (Pos.of_nat (List.length fp))))%Q
      else Raise ValueError
  end.

(** ** The regular expressions of the program

    A backtracking matcher with Python's priorities: alternatives are tried
    left to right, repetitions and options are greedy, and the first overall
    success wins.  Repetition is only needed over character classes. *)

Inductive regex : Type :=
| Eps : regex
| Cls : (ascii -> bool) -> regex
| Seq : regex -> regex -> regex
| Alt : regex -> regex -> regex
| Opt : regex -> regex
| Rep : (ascii -> bool) -> regex
| Grp : string -> regex -> regex
| Bnd : regex.

Definition groups := list (string * str).

Record mstate : Type := MState {
  m_prev : option ascii;
  m_rest : str;
  m_pos : nat;
  m_groups : groups
}.

Definition isword_opt (c : option ascii) : bool :=
  match c with Some x => isword x | None => false end.

(** [\b]: exactly one side of the position is a word character. *)
Definition at_boundary (st : mstate) : bool :=
  xorb (isword_opt (m_prev st)) (isword_opt (hd_error (m_rest st))).

Definition set_group (g : string) (w : str) (st : mstate) : mstate :=
  MState (m_prev st) (m_rest st) (m_pos st) ((g, w) :: m_groups st).

Fixpoint rep_loop (p : ascii -> bool) (rest : str) (prev : option ascii)
  (pos : nat) (gs : groups) (k : mstate -> option mstate) : option mstate :=
  match rest with
  | c :: rest' =>
      if p c then
        match rep_loop p rest' (Some c) (S pos) gs k with
        | Some m => Some m
        | None => k (MState prev rest pos gs)
        end
      else k (MState prev rest pos gs)
  | [] => k (MState prev rest pos gs)
  end.

Fixpoint rx (r : regex) (st : mstate) (k : mstate -> option mstate)
  : option mstate :=
  match r with
  | Eps => k st
  | Cls p =>
      match m_rest st with
      | c :: rest' =>
          if p c then k (MState (Some c) rest' (S (m_pos st)) (m_groups st))
          else None
      | [] => None
      end
  | Seq r1 r2 => rx r1 st (fun st' => rx r2 st' k)
  | Alt r1 r2 =>
      match rx r1 st k with
      | Some m => Some m
      | None => rx r2 st k
      end
  | Opt r1 =>
      match rx r1 st k with
      | Some m => Some m
      | None => k st
      end
  | Rep p => rep_loop p (m_rest st) (m_prev st) (m_pos st) (m_groups st) k
  | Grp g r1 =>
      rx r1 st (fun st' =>
        k (set_group g (firstn (m_pos st' - m_pos st) (m_rest st)) st'))
  | Bnd => if at_boundary st then k st else None
  end.

(** A match object: its span and its named groups. *)
Record Match : Type := MkMatch {
  m_start : nat;
  m_end : nat;
  m_named : groups
}.

Fixpoint assoc {A : Type} (g : string) (l : list (string * A)) : option A :=
  match l with
  | [] => None
  | (g', w) :: l' => if String.eqb g g' then Some w else assoc g l'
  end.

(** [m.group(name)]: [None] when the group took no part in the match. *)
Definition group (m : Match) (g : string) : option str := assoc g (m_named m).

Definition match_at (r : regex) (prev : option ascii) (rest : str) (pos : nat)
  : option Match :=
  match rx r (MState prev rest pos []) Some with
  | Some st => Some (MkMatch pos (m_pos st) (m_groups st))
  | None => None
  end.

(** [pattern.match(s)]: a match at the start of [s]. *)
Definition re_match (r : regex) (s : str) : option Match := match_at r None s 0.

Fixpoint search_from (r : regex) (prev : option ascii) (rest : str) (pos : nat)
  : option Match :=
  match match_at r prev rest pos with
  | Some m => Some m
  | None =>
      match rest with
      | c :: rest' => search_from r (Some c) rest' (S pos)
      | [] => None
      end
  end.

(** [pattern.search(s)]: the leftmost match. *)
Definition re_search (r : regex) (s : str) : option Match :=
  search_from r None s 0.

(** The pieces of [s] between the successive non-overlapping matches of a
    pattern that has no match of length zero (true of both patterns used
    this way): [skip] counts the matched characters still to pass over and
    [cur] holds the current piece, reversed. *)
Fixpoint pieces (r : regex) (prev : option ascii) (rest : str) (pos skip : nat)
  (cur : str) : list str :=
  match rest with
  | [] => [rev cur]
  | c :: rest' =>
      match skip with
      | S n => pieces r (Some c) rest' (S pos) n cur
      | O =>
          match match_at r prev rest pos with
          | Some m =>
              match m_end m - pos with
              | S n => rev cur :: pieces r (Some c) rest' (S pos) n []
              | O => pieces r (Some c) rest' (S pos) 0 (c :: cur)
              end
          | None => pieces r (Some c) rest' (S pos) 0 (c :: cur)
          end
      end
  end.

(** [re.split(pattern, s)] for a pattern without groups. *)
Definition re_split (r : regex) (s : str) : list str := pieces r None s 0 0 [].

(** [pattern.sub("", s)]: the matches removed. *)
Definition re_sub_empty (r : regex) (s : str) : str := List.concat (re_split r s).

(** Pattern constructors. *)
Definition Lit (c : ascii) : regex := Cls (Ascii.eqb c).

(** A literal under [re.I]. *)
Definition LitI (c : ascii) : regex :=
  Cls (fun x => Ascii.eqb (lower_char x) (lower_char c)).

Fixpoint word (ci : bool) (w : str) : regex :=
  match w with
  | [] => Eps
  | [c] => if ci then LitI c else Lit c
  | c :: w' => Seq (if ci then LitI c else Lit c) (word ci w')
  end.

Definition Plus (p : ascii -> bool) : regex := Seq (Cls p) (Rep p).

Fixpoint alts (rs : list regex) : regex :=
  match rs with
  | [] => Eps
  | [r] => r
  | r :: rs' => Alt r (alts rs')
  end.

(** [\d+(?:\.\d+)?] *)
Definition number_re : regex :=
  Seq (Plus isdigit) (Opt (Seq (Lit ".") (Plus isdigit))).

Definition unit_words : list string :=
  ["g"; "grams"; "gram"; "kg"; "cup"; "cups"; "tbsp"; "tablespoon"; "tsp";
   "teaspoon"; "slice"; "slices"; "serving"; "servings"; "piece"; "pieces";
   "egg"; "eggs"]%string.

Definition number_unit_food_re : regex :=
  Seq (Grp "number" number_re)
 (Seq (Rep isspace)
 (Seq (Opt (Grp "unit" (alts (map (fun w => word true (txt w)) unit_words))))
 (Seq (Rep isspace)
 (Seq (Opt (word true (txt "of")))
 (Seq (Rep isspace)
      (Grp "food" (Plus isdot))))))).

Definition grams_re : regex :=
  Seq (Grp "grams" number_re) (Seq (Rep isspace) (Seq (LitI "g") Bnd)).

(** [,|\band\b], compiled without flags. *)
Definition split_re : regex :=
  Alt (Lit ",") (Seq Bnd (Seq (word false (txt "and")) Bnd)).

(** ** [difflib]: the similarity ratio and [get_close_matches] *)

Module Difflib.

(** Characters of [b] that the automatic junk heuristic sets aside: those
    occurring more than [len(b) // 100 + 1] times when [len(b) >= 200]. *)
Definition popular (b : str) (c : ascii) : bool :=
  (200 <=? List.length b) &&
  (List.length b / 100 + 1 <? count_occ ascii_dec b c).

(** One row of the table of [find_longest_match]: entry [j] is the length of
    the run of equal, non-popular characters that ends at [x] and [b[j]]. *)
Fixpoint next_row (pop : ascii -> bool) (x : ascii) (lb : str) (diag : nat)
  (prev_row : list nat) : list nat :=
  match lb, prev_row with
  | y :: lb', d :: prev' =>
      (if Ascii.eqb x y && negb (pop y) then S diag else 0)
        :: next_row pop x lb' d prev'
  | _, _ => []
  end.

Fixpoint scan_row (i j : nat) (row : list nat) (best : nat * nat * nat)
  : nat * nat * nat :=
  match row with
  | [] => best
  | k :: row' =>
      scan_row i (S j) row'
        (if snd best <? k then (i + 1 - k, j + 1 - k, k) else best)
  end.

Fixpoint rows (pop : ascii -> bool) (la lb : str) (i : nat)
  (prev_row : list nat) (best : nat * nat * nat) : nat * nat * nat :=
  match la with
  | [] => best
  | x :: la' =>
      let row := next_row pop x lb 0 prev_row in
      rows pop la' lb (S i) row (scan_row i 0 row best)
  end.

Definition same_at (la lb : str) (i j : nat) : bool :=
  match nth_error la i, nth_error lb j with
  | Some x, Some y => Ascii.eqb x y
  | _, _ => false
  end.

Fixpoint extend_left (la lb : str) (fuel : nat) (best : nat * nat * nat)
  : nat * nat * nat :=
  match fuel, best with
  | S fuel', (S i, S j, k) =>
      if same_at la lb i j then extend_left la lb fuel' (i, j, S k) else best
  | _, _ => best
  end.

Fixpoint extend_right (la lb : str) (fuel : nat) (best : nat * nat * nat)
  : nat * nat * nat :=
  match fuel, best with
  | S fuel', (i, j, k) =>
      if same_at la lb (i + k) (j + k)
      then extend_right la lb fuel' (i, j, S k) else best
  | O, _ => best
  end.

(** The longest block [la[i:i+k] == lb[j:j+k]], earliest in [la], then
    earliest in [lb]. *)
Definition find_longest_match (pop : ascii -> bool) (la lb : str)
  : nat * nat * nat :=
  let best := rows pop la lb 0 (repeat 0 (List.length lb)) (0, 0, 0) in
  let best := extend_left la lb (List.length la) best in
  extend_right la lb (List.length la) best.

(** Total size of the matching blocks: the longest block, then the same on
    both sides of it. *)
Fixpoint matches (fuel : nat) (pop : ascii -> bool) (la lb : str) : nat :=
  match fuel with
  | O => 0
  | S fuel' =>
      let '(i, j, k) := find_longest_match pop la lb in
      if k =? 0 then 0
      else k + matches fuel' pop (firstn i la) (firstn j lb)
             + matches fuel' pop (skipn (i + k) la) (skipn (j + k) lb)
  end.

(** [SequenceMatcher(None, a, b).ratio()]. *)
Definition ratio (a b : str) : Q :=
  match (List.length a + List.length b)%nat with
  | O => 1%Q
  | S n =>
      Qred (Qmake (Z.of_nat (2 * matches (S (List.length a)) (popular b) a b)%nat)
                  (Pos.of_nat (S n)))
  end.

End Difflib.

(** ** The data of the program *)

Inductive nutrient : Type :=
  calories | protein | carbs | fat | fiber | vitamin_c.

Definition nutrient_eqb (a b : nutrient) : bool :=
  match a, b with
  | calories, calories | protein, protein | carbs, carbs
  | fat, fat | fiber, fiber | vitamin_c, vitamin_c => true
  | _, _ => false
  end.

Definition NUTRIENTS : list nutrient :=
  [calories; protein; carbs; fat; fiber; vitamin_c].

(** A dictionary keyed by the six nutrients, every key present. *)
Definition amounts := nutrient -> Q.

Definition upd (d : amounts) (n : nutrient) (v : Q) : amounts :=
  fun n' => if nutrient_eqb n n' then v else d n'.

(** An entry of [food_db.json]; a key may be absent. *)
Record FoodEntry : Type := MkFood {
  per100 : nutrient -> option Q;
  serving_g : option Q
}.

Fixpoint lookup {A : Type} (key : str) (d : list (str * A)) : option A :=
  match d with
  | [] => None
  | (k, v) :: d' => if str_eqb key k then Some v else lookup key d'
  end.

Definition get {A : Type} (o : option A) (default : A) : A :=
  match o with Some v => v | None => default end.

Definition RDI (n : nutrient) : option Q :=
  Some (match n with
        | calories => 2000 | protein => 50 | carbs => 275
        | fat => 70 | fiber => 28 | vitamin_c => 90
        end)%Q.

Definition UNIT_TO_G : list (str * Q) :=
  [(txt "g", 1); (txt "gram", 1); (txt "grams", 1); (txt "kg", 1000);
   (txt "cup", 240); (txt "cups", 240); (txt "tbsp", 15);
   (txt "tablespoon", 15); (txt "tsp", 5);
   (txt "slice", 30); (txt "slices", 30); (txt "serving", 100);
   (txt "servings", 100); (txt "piece", 80); (txt "pieces", 80);
   (txt "egg", 50); (txt "eggs", 50)]%Q.

Record ParsedItem : Type := MkItem {
  raw : str;
  food_key : option str;
  grams : Q;
  confidence : Q
}.

(** An element of ["parsed_items"] in the result. *)
Record Entry : Type := MkEntry {
  e_raw : str;
  e_food_key : option str;
  e_grams : Q;
  e_confidence : Q;
  e_nutrition : amounts
}.

Inductive level : Type := Low | High.

(** The flag [f"{level} {n} ({round(pct,1)}% of RDI)"], kept as its three
    components. *)
Record Flag : Type := MkFlag {
  f_level : level;
  f_nutrient : nutrient;
  f_pct : Q
}.

Record AnalysisResult : Type := MkResult {
  parsed_items : list Entry;
  totals : amounts;
  flags : list Flag;
  suggestions : list string
}.

(** The table of the end-to-end example. *)
Definition egg_entry : FoodEntry :=
  MkFood (fun n => Some (match n with
                         | calories => 155 | protein => 13 | carbs => 11 # 10
                         | fat => 11 | fiber => 0 | vitamin_c => 0
                         end)%Q)
         (Some 50%Q).

Definition egg_db : list (str * FoodEntry) := [(txt "egg", egg_entry)].

(** ** Definitions used to state the properties of the patterns *)

(** [x] is the letter [c]; with [ci], in either case. *)
Definition letter (ci : bool) (c x : ascii) : bool :=
  if ci then Ascii.eqb (lower_char x) c else Ascii.eqb c x.

(** ["and"] starts here and has no word character on either side. *)
Definition and_here (ci : bool) (prev : option ascii) (s : str) : bool :=
  match s with
  | a :: n :: d :: s' =>
      negb (isword_opt prev) && letter ci "a" a && letter ci "n" n
      && letter ci "d" d && negb (isword_opt (hd_error s'))
  | _ => false
  end.

Definition push (c : ascii) (l : list str) : list str :=
  match l with
  | [] => [[c]]
  | x :: l' => (c :: x) :: l'
  end.

(** The clauses of a text, read off the description of the splitting: cut
    at each comma and at each standalone ["and"]; [ci] tells whether the
    letters of ["and"] may be of either case. *)
Fixpoint clauses (ci : bool) (prev : option ascii) (s : str) : list str :=
  match s with
  | [] => [[]]
  | c :: s1 =>
      if Ascii.eqb "," c then [] :: clauses ci (Some c) s1
      else if and_here ci prev s then
        match s1 with
        | n :: d :: s3 => [] :: clauses ci (Some d) s3
        | _ => [[]]
        end
      else push c (clauses ci (Some c) s1)
  end.

(** The clauses that remain once the blank ones are discarded, stripped. *)
Definition nonblank (p : str) : bool := negb (is_empty p).

Definition kept_clauses (ci : bool) (text : str) : list str :=
  filter nonblank (map strip (clauses ci None text)).

(** A decimal literal [digits] or [digits.digits]. *)
Definition decimal (w : str) : Prop :=
  exists ip fp, all_digits ip = true /\
    (w = ip \/ (all_digits fp = true /\ w = ip ++ "."%char :: fp)).

(** *** What a pattern matches

    [Matches r st w st']: from the state [st] the pattern [r] can match the
    word [w] and reach [st']. *)

Definition prev_after (prev : option ascii) (w : str) : option ascii :=
  fold_left (fun _ c => Some c) w prev.

Inductive Matches : regex -> mstate -> str -> mstate -> Prop :=
| M_Eps : forall st, Matches Eps st [] st
| M_Cls : forall p c st,
    hd_error (m_rest st) = Some c -> p c = true ->
    Matches (Cls p) st [c]
            (MState (Some c) (tl (m_rest st)) (S (m_pos st)) (m_groups st))
| M_Seq : forall r1 r2 st w1 st1 w2 st2,
    Matches r1 st w1 st1 -> Matches r2 st1 w2 st2 ->
    Matches (Seq r1 r2) st (w1 ++ w2) st2
| M_AltL : forall r1 r2 st w st',
    Matches r1 st w st' -> Matches (Alt r1 r2) st w st'
| M_AltR : forall r1 r2 st w st',
    Matches r2 st w st' -> Matches (Alt r1 r2) st w st'
| M_OptSome : forall r st w st',
    Matches r st w st' -> Matches (Opt r) st w st'
| M_OptNone : forall r st, Matches (Opt r) st [] st
| M_Rep : forall p st w rest',
    forallb p w = true -> m_rest st = w ++ rest' ->
    Matches (Rep p) st w
            (MState (prev_after (m_prev st) w) rest'
                    (m_pos st + List.length w) (m_groups st))
| M_Grp : forall g r st w st',
    Matches r st w st' -> Matches (Grp g r) st w (set_group g w st')
| M_Bnd : forall st, at_boundary st = true -> Matches Bnd st [] st.

(** The words of a pattern, whatever the context, and the names of its
    groups. *)
Fixpoint Lang (r : regex) (w : str) : Prop :=
  match r with
  | Eps | Bnd => w = []
  | Cls p => exists c, w = [c] /\ p c = true
  | Seq r1 r2 => exists w1 w2, w = w1 ++ w2 /\ Lang r1 w1 /\ Lang r2 w2
  | Alt r1 r2 => Lang r1 w \/ Lang r2 w
  | Opt r1 => w = [] \/ Lang r1 w
  | Rep p => forallb p w = true
  | Grp _ r1 => Lang r1 w
  end.

Fixpoint group_names (r : regex) : list string :=
  match r with
  | Seq r1 r2 | Alt r1 r2 => group_names r1 ++ group_names r2
  | Opt r1 => group_names r1
  | Grp g r1 => g :: group_names r1
  | _ => []
  end.

(** ** The program *)

Section App.

(** [SequenceMatcher(None, a, b).ratio()] of [difflib]. *)
Variable ratio : str -> str -> Q.

(** The content of [food_db.json], in the order of the file; the keys are
    distinct, as in the dictionary the program loads. *)
Variable FOOD_DB : list (str * FoodEntry).

(** The recommended daily intakes; [RDI] above is the table of the program. *)
Variable rdi : nutrient -> option Q.

(** The log database and [save_log]; the flag tells whether it raised. *)
Variable store : Type.
Variable save_log : str -> amounts -> store -> store * bool.

Definition FOOD_KEYS : list str := map fst FOOD_DB.

(** [tuple > tuple] on the pairs [(score, x)]. *)
Definition pair_gtb (p q : Q * str) : bool :=
  if Qeq_bool (fst p) (fst q) then str_ltb (snd q) (snd p)
  else Qltb (fst q) (fst p).

(** [max(result)]: the first of the greatest elements. *)
Definition py_max (first : Q * str) (others : list (Q * str)) : Q * str :=
  fold_left (fun best x => if pair_gtb x best then x else best) others first.

(** [difflib.get_close_matches(word, possibilities, n=1, cutoff)]: the
    possibilities scoring at least [cutoff], the greatest [(score, x)] kept.
    (The two quick ratios tested first by the library are upper bounds of
    [ratio] and filter nothing more.) *)
Definition get_close_matches (word : str) (possibilities : list str)
  (cutoff : Q) : list str :=
  let result :=
    map (fun x => (ratio x word, x))
        (filter (fun x => Qle_bool cutoff (ratio x word)) possibilities) in
  match result with
  | [] => []
  | first :: others => [snd (py_max first others)]
  end.

Definition find_best_food_token (token : str) : option str * Q :=
  let token := lower (strip token) in
  match find (fun key => str_eqb token (lower key)) FOOD_KEYS with
  | Some key => (Some key, 1%Q)
  | None =>
      match get_close_matches token FOOD_KEYS (6 # 10)%Q with
      | m :: _ => (Some m, (8 # 10)%Q)
      | [] =>
          match find (fun key => contains token (lower key)) FOOD_KEYS with
          | Some key => (Some key, (7 # 10)%Q)
          | None => (None, 0%Q)
          end
      end
  end.

(** [FOOD_DB[key]] when [key in FOOD_DB]; [None] is never a key. *)
Definition db_get (key : option str) : option FoodEntry :=
  match key with
  | Some k => lookup k FOOD_DB
  | None => None
  end.

(** [float(m.group(g))]. *)
Definition float_group (m : Match) (g : string) : result Q :=
  match group m g with
  | Some s => float s
  | None => Raise TypeError
  end.

(** The body of the loop of [parse_meal_text] for a stripped, non-empty
    clause [p]. *)
Definition parse_clause (p : str) : result ParsedItem :=
  match re_search grams_re p with
  | Some gm =>
      g <- float_group gm "grams" ;;
      let token := strip (re_sub_empty grams_re p) in
      let '(key, conf) := find_best_food_token token in
      let key := match key with None => Some token | Some k => Some k end in
      Ok (MkItem p key g conf)
  | None =>
      match re_match number_unit_food_re p with
      | Some m =>
          num <- match group m "number" with
                 | Some s => if is_empty s then Ok None
                             else (x <- float s ;; Ok (Some x))
                 | None => Ok None
                 end ;;
          let unit := lower (get (group m "unit") []) in
          let food_token := lower (strip (get (group m "food") [])) in
          let '(key, conf) := find_best_food_token food_token in
          let num_true := match num with Some x => truthy x | None => false end in
          let n := get num 0%Q in
          let g :=
            if num_true && negb (is_empty unit) then
              match lookup unit UNIT_TO_G with
              | Some u => (n * u)%Q
              | None => (n * 100)%Q
              end
            else if num_true && is_empty unit then
              match db_get key with
              | Some e => (n * get (serving_g e) 100)%Q
              | None => (n * 100)%Q
              end
            else
              match db_get key with
              | Some e => get (serving_g e) 100%Q
              | None => 100%Q
              end in
          Ok (MkItem p key g conf)
      | None =>
          let token := lower p in
          let '(key, conf) := find_best_food_token token in
          g <- match db_get key with
               | Some e =>
                   match serving_g e with
                   | Some v => Ok v
                   | None => Raise KeyError
                   end
               | None => Ok 100%Q
               end ;;
          Ok (MkItem p key g conf)
      end
  end.

Fixpoint parse_parts (parts : list str) (items : list ParsedItem)
  : result (list ParsedItem) :=
  match parts with
  | [] => Ok items
  | part :: parts' =>
      let p := strip part in
      if is_empty p then parse_parts parts' items
      else (it <- parse_clause p ;; parse_parts parts' (items ++ [it]))
  end.

Definition parse_meal_text (text : str) : result (list ParsedItem) :=
  parse_parts (re_split split_re text) [].

Definition calc_nutrition_for_item (key : option str) (g : Q) : amounts :=
  match db_get key with
  | None => fun _ => 0%Q
  | Some base => fun n => ((g / 100) * get (per100 base n) 0)%Q
  end.

Definition sum_totals (item_nut_list : list amounts) : amounts :=
  let zero : amounts := fun _ => 0%Q in
  let summed :=
    fold_left (fun tot ni =>
                 fold_left (fun tot n => upd tot n (tot n + ni n)%Q) NUTRIENTS tot)
              item_nut_list zero in
  fold_left (fun tot k => upd tot k (round (tot k) 2)) NUTRIENTS summed.

Definition only (cond : bool) (s : string) : list string :=
  if cond then [s] else [].

Definition low_suggestions (n : nutrient) : list string :=
  only (nutrient_eqb n protein)
       "Add a protein source: egg, paneer, dal, or chicken."
  ++ only (nutrient_eqb n fiber)
       "Add vegetables or fruit (spinach, apple, banana)."
  ++ only (nutrient_eqb n vitamin_c)
       "Add vitamin C rich food: orange, spinach, potato or fruits."
  ++ only (nutrient_eqb n calories)
       "Increase portion sizes or add an energy-dense item (nuts, paneer).".

Definition high_suggestions (n : nutrient) : list string :=
  only (nutrient_eqb n fat)
       "Reduce fried items or oil; prefer grilled or steamed."
  ++ only (nutrient_eqb n calories)
       "Reduce portion or swap to lower-calorie alternatives.".

(** One turn of the loop over [NUTRIENTS] that builds the flags and the
    suggestions. *)
Definition check_nutrient (tot : amounts) (acc : list Flag * list string)
  (n : nutrient) : result (list Flag * list string) :=
  match rdi n with
  | None => Ok acc
  | Some r =>
      if truthy r then
        q <- py_div (tot n) r ;;
        let pct := (q * 100)%Q in
        if Qltb pct 80 then
          Ok (fst acc ++ [MkFlag Low n (round pct 1)],
              snd acc ++ low_suggestions n)
        else if Qltb 120 pct then
          Ok (fst acc ++ [MkFlag High n (round pct 1)],
              snd acc ++ high_suggestions n)
        else Ok acc
      else Ok acc
  end.

Fixpoint check_nutrients (tot : amounts) (ns : list nutrient)
  (acc : list Flag * list string) : result (list Flag * list string) :=
  match ns with
  | [] => Ok acc
  | n :: ns' => acc' <- check_nutrient tot acc n ;; check_nutrients tot ns' acc'
  end.

(** [list(dict.fromkeys(l))]: first occurrences, in order. *)
Fixpoint dedup (seen l : list string) : list string :=
  match l with
  | [] => []
  | s :: l' =>
      if existsb (String.eqb s) seen then dedup seen l'
      else s :: dedup (s :: seen) l'
  end.

Definition entry_of (p : ParsedItem) (nut : amounts) : Entry :=
  MkEntry (raw p) (food_key p) (round (grams p) 1) (round (confidence p) 2)
          (fun k => round (nut k) 2).

Definition analyze_meal_text (text : str) : result AnalysisResult :=
  parsed <- parse_meal_text text ;;
  let item_nut_list :=
    map (fun p => calc_nutrition_for_item (food_key p) (grams p)) parsed in
  let parsed_with_nut := map (fun p => entry_of p (calc_nutrition_for_item (food_key p) (grams p))) parsed in
  let tot := sum_totals item_nut_list in
  fs <- check_nutrients tot NUTRIENTS ([], []) ;;
  Ok (MkResult parsed_with_nut tot (fst fs) (dedup [] (snd fs))).

(** The route [/analyze]. *)
Inductive response : Type :=
| Json (r : AnalysisResult)
| BadRequest (error : string)
| Uncaught (e : exn).

Record world : Type := MkWorld {
  logs : store;
  warnings : nat
}.

Definition analyze (text : str) (w : world) : response * world :=
  if is_empty (strip text) then (BadRequest "Empty input", w)
  else
    match analyze_meal_text text with
    | Raise e => (Uncaught e, w)
    | Ok r =>
        let '(db, raised) := save_log text (totals r) (logs w) in
        (Json r, MkWorld db (if raised then S (warnings w) else warnings w))
    end.

(** ** Definitions used to state the properties of the program *)

(** Every entry of the food table gives its serving size, as the shape
    [{calories, protein, carbs, fat, fiber, vitamin_c, serving_g}] of the
    table requires. *)
Definition table_has_servings : Prop :=
  forall key e, lookup key FOOD_DB = Some e -> serving_g e <> None.

(** Serving sizes are positive weights. *)
Definition servings_positive : Prop :=
  forall key e v, lookup key FOOD_DB = Some e -> serving_g e = Some v ->
                  (0 < v)%Q.

(** The serving size used when a clause gives no usable quantity. *)
Definition serving_or_100 (key : option str) : Q :=
  match db_get key with
  | Some e => get (serving_g e) 100%Q
  | None => 100%Q
  end.

(** The text matched against the food table in the two clause shapes
    without an explicit gram quantity. *)
Definition food_text (p : str) : str :=
  match re_match number_unit_food_re p with
  | Some m => lower (strip (get (group m "food") []))
  | None => lower p
  end.

(** [sum(l)]. *)
Definition py_sum (l : list Q) : Q := fold_left Qplus l 0%Q.

(** The similarity percentage compared with the two thresholds. *)
Definition percent (tot : amounts) (n : nutrient) (r : Q) : Q :=
  (tot n / r * 100)%Q.

(** What one turn of the loop over [NUTRIENTS] adds for the nutrient [n]. *)
Definition turn_level (tot : amounts) (n : nutrient) : option level :=
  match rdi n with
  | None => None
  | Some r =>
      if truthy r then
        if Qltb (percent tot n r) 80 then Some Low
        else if Qltb 120 (percent tot n r) then Some High
        else None
      else None
  end.

Definition turn_flags (tot : amounts) (n : nutrient) : list Flag :=
  match turn_level tot n, rdi n with
  | Some lv, Some r => [MkFlag lv n (round (percent tot n r) 1)]
  | _, _ => []
  end.

Definition turn_suggestions (tot : amounts) (n : nutrient) : list string :=
  match turn_level tot n with
  | Some Low => low_suggestions n
  | Some High => high_suggestions n
  | None => []
  end.

(** Helpers of the proofs about [strip] and [re.split]. *)
Definition clean_head (l : str) : Prop :=
  match l with
  | c :: _ => isspace c = false
  | [] => True
  end.

Definition prepend (cur : str) (l : list str) : list str :=
  match l with
  | x :: l' => (rev cur ++ x) :: l'
  | [] => [rev cur]
  end.

(** A log kept in memory, to run the route on examples. *)
Definition memory_log (text : str) (tot : amounts) (db : list str)
  : list str * bool := (text :: db, false).

(** The result as plain data: for each item its raw text, key, grams,
    confidence and the six amounts in the order of [NUTRIENTS]; the six
    totals; the flags. *)
Definition item_view (e : Entry)
  : string * option string * Q * Q * list Q :=
  (string_of_list_ascii (e_raw e),
   option_map string_of_list_ascii (e_food_key e),
   e_grams e, e_confidence e, map (e_nutrition e) NUTRIENTS).

Definition items_view (r : result AnalysisResult) :=
  match r with
  | Ok r => Ok (map item_view (parsed_items r))
  | Raise e => Raise e
  end.

Definition totals_view (r : result AnalysisResult) :=
  match r with
  | Ok r => Ok (map (totals r) NUTRIENTS)
  | Raise e => Raise e
  end.

Definition flags_view (r : result AnalysisResult) :=
  match r with
  | Ok r => Ok (flags r)
  | Raise e => Raise e
  end.

(** Targets with the one for fiber missing and the one for fat set to 0. *)
Definition partial_rdi (n : nutrient) : option Q :=
  match n with
  | fiber => None
  | fat => Some 0%Q
  | _ => RDI n
  end.

(** A second table, with a food of 1600 kcal per 100 g and a food without
    serving size. *)
Definition pantry_db : list (str * FoodEntry) :=
  [(txt "egg", egg_entry);
   (txt "rice",
     MkFood (fun n => Some (match n with
                            | calories => 130 | protein => 27 # 10
                            | carbs => 28 | fat => 3 # 10
                            | fiber => 4 # 10 | vitamin_c => 0
                            end)%Q) (Some 150%Q));
   (txt "fried rice",
     MkFood (fun n => Some (match n with
                            | calories => 163 | protein => 4
                            | carbs => 27 | fat => 4
                            | fiber => 1 | vitamin_c => 2
                            end)%Q) (Some 200%Q));
   (txt "banana",
     MkFood (fun n => Some (match n with
                            | calories => 89 | protein => 11 # 10
                            | carbs => 23 | fat => 3 # 10
                            | fiber => 26 # 10 | vitamin_c => 87 # 10
                            end)%Q) (Some 120%Q));
   (txt "ration",
     MkFood (fun n => match n with
                      | calories => Some 1600%Q
                      | _ => None
                      end) (Some 100%Q))].

Definition broken_db : list (str * FoodEntry) :=
  [(txt "tofu", MkFood (fun _ => Some 1%Q) None)].

(** *** Parts of [number_unit_food_re] *)

(** The alternatives of the group [unit], in the order of the pattern. *)
Definition unit_alts : regex :=
  alts (map (fun w => word true (txt w)) unit_words).

(** What follows the group [unit]: [\s*(?:of)?\s*(?P<food>.+)]. *)
Definition after_unit_re : regex :=
  Seq (Rep isspace)
 (Seq (Opt (word true (txt "of")))
 (Seq (Rep isspace)
      (Grp "food" (Plus isdot)))).

(** The unit words that the group [unit] can hold. *)
Definition live_units : list str :=
  map txt ["g"; "kg"; "cup"; "tbsp"; "tablespoon"; "tsp"; "teaspoon";
           "slice"; "serving"; "piece"; "egg"]%string.

(** The continuation of the group [unit] entered in the state [st]: store
    the group, then match what follows. *)
Definition after_unit_from (st : mstate) (st' : mstate) : option mstate :=
  rx after_unit_re
     (set_group "unit" (firstn (m_pos st' - m_pos st) (m_rest st)) st') Some.

(** The amounts per 100 g of the table are not negative. *)
Definition amounts_nonnegative : Prop :=
  forall key e n v, lookup key FOOD_DB = Some e -> per100 e n = Some v ->
                    (0 <= v)%Q.

(** No serving size is above a kilogram, the greatest weight a unit word
    stands for. *)
Definition servings_bounded : Prop :=
  forall key e v, lookup key FOOD_DB = Some e -> serving_g e = Some v ->
                  (v <= 1000)%Q.

(** The suggestions that go with a flag. *)
Definition flag_suggestions (f : Flag) : list string :=
  match f_level f with
  | Low => low_suggestions (f_nutrient f)
  | High => high_suggestions (f_nutrient f)
  end.

(** ** The log of analyses

    The table [logs] is the list of its rows, in the order of insertion; it
    is absent until [init_db] has run.  The Fernet cipher, the JSON codec
    and the clock are given from outside: [encrypt t s] is
    [fernet.encrypt(s.encode("utf-8"))] at the instant [t] (the token
    depends on the time and on fresh random bytes), [decrypt c] is
    [fernet.decrypt(c).decode("utf-8")], with [None] when it raises, and
    [isoformat t] is [datetime.utcnow().isoformat()] at the instant [t]. *)

Section Logs.

Variable encrypt : nat -> str -> str.
Variable decrypt : str -> option str.
Variable dumps : amounts -> str.
Variable loads : str -> option amounts.
Variable isoformat : nat -> str.

Record Row : Type := MkRow {
  row_id : nat;
  row_timestamp : str;
  row_encrypted_input : str;
  row_totals_json : str
}.

Record LogDb : Type := MkLogDb {
  table : option (list Row);
  clock : nat
}.

(** [CREATE TABLE IF NOT EXISTS logs (...)]. *)
Definition init_db (db : LogDb) : LogDb :=
  match table db with
  | Some _ => db
  | None => MkLogDb (Some []) (clock db)
  end.

(** The id given to a new row of an [INTEGER PRIMARY KEY] column: one more
    than the greatest id in use. *)
Definition next_id (rows : list Row) : nat :=
  S (fold_right Nat.max 0 (map row_id rows)).

(** [save_log]: the flag tells whether it raised, which the [INSERT] does
    when the table is absent. *)
Definition save_log_db (raw_text : str) (totals_dict : amounts) (db : LogDb)
  : LogDb * bool :=
  let enc := encrypt (clock db) raw_text in
  match table db with
  | None => (MkLogDb None (S (clock db)), true)
  | Some rows =>
      let row := MkRow (next_id rows) (isoformat (clock db)) enc
                       (dumps totals_dict) in
      (MkLogDb (Some (rows ++ [row])) (S (clock db)), false)
  end.

(** [ORDER BY id DESC]. *)
Fixpoint insert_desc (r : Row) (l : list Row) : list Row :=
  match l with
  | [] => [r]
  | x :: l' =>
      if row_id x <=? row_id r then r :: l else x :: insert_desc r l'
  end.

Definition order_by_id_desc (rows : list Row) : list Row :=
  fold_right insert_desc [] rows.

(** An element of the answer of [/logs]. *)
Record LogEntry : Type := MkLogEntry {
  log_id : nat;
  log_timestamp : str;
  log_input : str;
  log_totals : amounts
}.

(** One turn of the loop of [get_logs]: a failure to decrypt is replaced by
    a marker, a failure of [json.loads] is not caught. *)
Definition show_row (r : Row) : option LogEntry :=
  let dec :=
    match decrypt (row_encrypted_input r) with
    | Some s => s
    | None => txt "<decryption failed>"
    end in
  match loads (row_totals_json r) with
  | Some t => Some (MkLogEntry (row_id r) (row_timestamp r) dec t)
  | None => None
  end.

Fixpoint show_rows (rows : list Row) : option (list LogEntry) :=
  match rows with
  | [] => Some []
  | r :: rows' =>
      match show_row r with
      | Some e =>
          match show_rows rows' with
          | Some out => Some (e :: out)
          | None => None
          end
      | None => None
      end
  end.

(** [get_logs]: the last 20 rows, newest first; [None] when it raises. *)
Definition get_logs (db : LogDb) : option (list LogEntry) :=
  match table db with
  | None => None
  | Some rows => show_rows (firstn 20 (order_by_id_desc rows))
  end.

End Logs.

(** A cipher, a codec and a clock to run the log on examples. *)
Definition demo_encrypt (t : nat) (s : str) : str := ascii_of_nat t :: rev s.

Definition demo_decrypt (c : str) : option str :=
  match c with
  | [] => None
  | _ :: s => Some (rev s)
  end.

Definition demo_dumps (_ : amounts) : str := txt "{}".

Definition demo_loads (s : str) : option amounts :=
  if str_eqb s (txt "{}") then Some (fun _ => 0%Q) else None.

Definition demo_isoformat (t : nat) : str := [ascii_of_nat (48 + t)].

(* ================================================================== *)
(** * Part II. Properties *)
(* ================================================================== *)

(** ** Text and numbers *)

Unset Implicit Arguments.

Lemma str_eqb_eq (a b : str) : str_eqb a b = true <-> a = b.
Proof.
  unfold str_eqb. destruct (list_eq_dec ascii_dec a b); split; congruence.
Qed.

Lemma str_eqb_refl (a : str) : str_eqb a a = true.
Proof. now apply str_eqb_eq. Qed.

Lemma isdigit_not_dot (c : ascii) : isdigit c = true -> (code c =? 46)%N = false.
Proof.
  unfold isdigit, in_range. intros H. apply andb_prop in H. destruct H as [H _].
  apply N.leb_le in H. apply N.eqb_neq. lia.
Qed.

Lemma split_dot_digits (ip : str) :
  forallb isdigit ip = true -> split_dot ip = (ip, None).
Proof.
  induction ip as [|c ip IH]; simpl; intros H; [reflexivity|].
  apply andb_prop in H. destruct H as [Hc Hip].
  rewrite (isdigit_not_dot _ Hc), (IH Hip). reflexivity.
Qed.

Lemma split_dot_point (ip fp : str) :
  forallb isdigit ip = true -> split_dot (ip ++ "."%char :: fp) = (ip, Some fp).
Proof.
  induction ip as [|c ip IH]; simpl; intros H; [reflexivity|].
  apply andb_prop in H. destruct H as [Hc Hip].
  rewrite (isdigit_not_dot _ Hc), (IH Hip). reflexivity.
Qed.

(** [float] accepts every decimal literal. *)
Lemma float_decimal (w : str) : decimal w -> exists q, float w = Ok q.
Proof.
  intros (ip & fp & Hip & [-> | [Hfp ->]]); unfold float.
  - pose proof Hip as H. apply andb_prop in H. destruct H as [_ H].
    rewrite (split_dot_digits _ H), Hip. eauto.
  - pose proof Hip as H. apply andb_prop in H. destruct H as [_ H].
    rewrite (split_dot_point _ fp H), Hip, Hfp. simpl. eauto.
Qed.

Lemma digit_val_nonneg (c : ascii) : isdigit c = true -> (0 <= digit_val c)%Z.
Proof.
  unfold isdigit, in_range, digit_val. intros H.
  apply andb_prop in H. destruct H as [H _]. apply N.leb_le in H. lia.
Qed.

Lemma fold_digits_nonneg (s : str) : forall z,
  (0 <= z)%Z -> forallb isdigit s = true ->
  (0 <= fold_left (fun acc c => acc * 10 + digit_val c)%Z s z)%Z.
Proof.
  induction s as [|c s IH]; simpl; intros z Hz H; [exact Hz|].
  apply andb_prop in H. destruct H as [Hc Hs].
  apply IH; [|exact Hs]. pose proof (digit_val_nonneg _ Hc). lia.
Qed.

Lemma all_digits_val_nonneg (s : str) :
  all_digits s = true -> (0 <= digits_val s)%Z.
Proof.
  intros H. apply andb_prop in H. destruct H as [_ H].
  apply fold_digits_nonneg; [lia | exact H].
Qed.

(** A number read by [float] is never negative. *)
Lemma float_nonneg (s : str) (q : Q) : float s = Ok q -> (0 <= q)%Q.
Proof.
  unfold float. destruct (split_dot s) as [ip [fp|]].
  - destruct (all_digits ip) eqn:Hip; [|discriminate].
    destruct (all_digits fp) eqn:Hfp; [|discriminate]. simpl.
    intros H. inv H.
    pose proof (all_digits_val_nonneg _ Hip).
    pose proof (all_digits_val_nonneg _ Hfp).
    apply Qle_trans with (inject_Z (digits_val ip) + 0)%Q.
    + rewrite Qplus_0_r. unfold Qle. simpl. lia.
    + apply Qplus_le_r. unfold Qle. simpl. lia.
  - destruct (all_digits ip) eqn:Hip; [|discriminate].
    intros H. inv H. pose proof (all_digits_val_nonneg _ Hip).
    unfold Qle. simpl. lia.
Qed.

(** ** The matcher is sound for [Matches] *)

Lemma prev_after_app (prev : option ascii) (w1 w2 : str) :
  prev_after prev (w1 ++ w2) = prev_after (prev_after prev w1) w2.
Proof. unfold prev_after. apply fold_left_app. Qed.

(** A match consumes the word it matched and nothing else. *)
Lemma Matches_consumes (r : regex) (st : mstate) (w : str) (st' : mstate) :
  Matches r st w st' ->
  m_rest st = w ++ m_rest st' /\
  m_pos st' = m_pos st + List.length w /\
  m_prev st' = prev_after (m_prev st) w.
Proof.
  induction 1; simpl.
  - repeat split; lia.
  - destruct (m_rest st) as [|c' rest]; simpl in *; [discriminate|].
    inv H. repeat split; lia.
  - destruct IHMatches1 as (R1 & P1 & V1), IHMatches2 as (R2 & P2 & V2).
    rewrite R1, R2, P2, P1, V2, V1, length_app, prev_after_app, <- app_assoc.
    repeat split; lia.
  - assumption.
  - assumption.
  - assumption.
  - repeat split; lia.
  - repeat split; assumption.
  - assumption.
  - repeat split; lia.
Qed.

Lemma rep_loop_sound (p : ascii -> bool) (rest : str) :
  forall prev pos gs k m,
    rep_loop p rest prev pos gs k = Some m ->
    exists w rest',
      rest = w ++ rest' /\ forallb p w = true /\
      k (MState (prev_after prev w) rest' (pos + List.length w) gs) = Some m.
Proof.
  induction rest as [|c rest IH]; simpl; intros prev pos gs k m H.
  - exists [], []. simpl. rewrite Nat.add_0_r. auto.
  - destruct (p c) eqn:Hc.
    + destruct (rep_loop p rest (Some c) (S pos) gs k) as [m0|] eqn:Hloop.
      * inv H. apply IH in Hloop. destruct Hloop as (w & rest' & -> & Hw & Hk).
        exists (c :: w), rest'. simpl. rewrite Hc, Hw, Nat.add_succ_r. auto.
      * exists [], (c :: rest). simpl. rewrite Nat.add_0_r. auto.
    + exists [], (c :: rest). simpl. rewrite Nat.add_0_r. auto.
Qed.

(** Whatever the matcher returns was reached through a match of the
    pattern followed by the continuation. *)
Lemma rx_sound (r : regex) :
  forall st k m, rx r st k = Some m ->
                 exists w st', Matches r st w st' /\ k st' = Some m.
Proof.
  induction r as [|p|r1 IH1 r2 IH2|r1 IH1 r2 IH2|r1 IH1|p|g r1 IH1|];
    simpl; intros st k m H.
  - exists [], st. split; [constructor | exact H].
  - destruct (m_rest st) as [|c rest] eqn:E; [discriminate|].
    destruct (p c) eqn:Hc; [|discriminate].
    exists [c], (MState (Some c) rest (S (m_pos st)) (m_groups st)).
    split; [|exact H].
    replace rest with (tl (m_rest st)) by now rewrite E.
    constructor; [now rewrite E | exact Hc].
  - apply IH1 in H. destruct H as (w1 & st1 & M1 & H).
    apply IH2 in H. destruct H as (w2 & st2 & M2 & H).
    exists (w1 ++ w2), st2. split; [econstructor; eassumption | exact H].
  - destruct (rx r1 st k) as [m0|] eqn:E.
    + inv H. apply IH1 in E. destruct E as (w & st' & M & E).
      exists w, st'. split; [now apply M_AltL | exact E].
    + apply IH2 in H. destruct H as (w & st' & M & H).
      exists w, st'. split; [now apply M_AltR | exact H].
  - destruct (rx r1 st k) as [m0|] eqn:E.
    + inv H. apply IH1 in E. destruct E as (w & st' & M & E).
      exists w, st'. split; [now apply M_OptSome | exact E].
    + exists [], st. split; [apply M_OptNone | exact H].
  - apply rep_loop_sound in H. destruct H as (w & rest' & E & Hw & H).
    eexists w, _. split; [|exact H]. now apply M_Rep.
  - apply IH1 in H. destruct H as (w & st' & M & H).
    destruct (Matches_consumes _ _ _ _ M) as (R & P & _).
    rewrite P, R in H.
    replace (m_pos st + List.length w - m_pos st) with (List.length w + 0) in H by lia.
    rewrite firstn_app_2 in H. simpl in H. rewrite app_nil_r in H.
    exists w, (set_group g w st'). split; [now constructor | exact H].
  - destruct (at_boundary st) eqn:E; [|discriminate].
    exists [], st. split; [now constructor | exact H].
Qed.

Lemma match_at_sound (r : regex) (prev : option ascii) (rest : str) (pos : nat)
  (m : Match) :
  match_at r prev rest pos = Some m ->
  exists w st', Matches r (MState prev rest pos []) w st' /\
                m = MkMatch pos (m_pos st') (m_groups st').
Proof.
  unfold match_at. intros H.
  destruct (rx r (MState prev rest pos []) Some) as [st|] eqn:E; [|discriminate].
  inv H. apply rx_sound in E. destruct E as (w & st' & M & E). inv E.
  eauto.
Qed.

Lemma search_from_sound (r : regex) (rest : str) :
  forall prev pos m,
    search_from r prev rest pos = Some m ->
    exists prev' rest' pos', match_at r prev' rest' pos' = Some m.
Proof.
  induction rest as [|c rest IH]; simpl; intros prev pos m H.
  - destruct (match_at r prev [] pos) eqn:E; [|discriminate]. inv H. eauto.
  - destruct (match_at r prev (c :: rest) pos) eqn:E.
    + inv H. eauto.
    + eapply IH; eassumption.
Qed.

Lemma Matches_Lang (r : regex) (st : mstate) (w : str) (st' : mstate) :
  Matches r st w st' -> Lang r w.
Proof.
  induction 1; simpl; eauto 6.
Qed.

(** A match only adds groups of the pattern, in front of the earlier ones. *)
Lemma Matches_groups (r : regex) (st : mstate) (w : str) (st' : mstate) :
  Matches r st w st' ->
  exists new, m_groups st' = new ++ m_groups st /\
              forall g v, In (g, v) new -> In g (group_names r).
Proof.
  induction 1; simpl; try (exists []; split; [reflexivity | now intros ? ? []]).
  - destruct IHMatches1 as (n1 & E1 & I1), IHMatches2 as (n2 & E2 & I2).
    exists (n2 ++ n1). rewrite E2, E1, app_assoc. split; [reflexivity|].
    intros g v Hin. apply in_app_or in Hin. apply in_or_app.
    destruct Hin; eauto.
  - destruct IHMatches as (n & E & I). exists n. split; [exact E|].
    intros g v Hin. apply in_or_app. eauto.
  - destruct IHMatches as (n & E & I). exists n. split; [exact E|].
    intros g v Hin. apply in_or_app. eauto.
  - assumption.
  - destruct IHMatches as (n & E & I). exists ((g, w) :: n). simpl.
    rewrite E. split; [reflexivity|].
    intros g' v [Hin|Hin]; [inv Hin; now left | right; eauto].
Qed.

Lemma assoc_app_other {A : Type} (g : string) (new l : list (string * A)) :
  (forall v, ~ In (g, v) new) -> assoc g (new ++ l) = assoc g l.
Proof.
  induction new as [|[g' v] new IH]; simpl; intros H; [reflexivity|].
  destruct (String.eqb g g') eqn:E.
  - apply String.eqb_eq in E. subst g'. exfalso. apply (H v). now left.
  - apply IH. intros v' Hin. apply (H v'). now right.
Qed.

(** The leading group of a pattern keeps the word it matched when no later
    group has its name. *)
Lemma leading_group (g : string) (r1 r2 : regex) (st : mstate) (w : str)
  (st' : mstate) :
  Matches (Seq (Grp g r1) r2) st w st' ->
  ~ In g (group_names r2) ->
  exists w1, Lang r1 w1 /\ assoc g (m_groups st') = Some w1.
Proof.
  intros M Hg. inv M.
  match goal with H : Matches (Grp _ _) _ _ _ |- _ => inv H end.
  match goal with H : Matches r2 _ _ _ |- _ =>
    destruct (Matches_groups _ _ _ _ H) as (new & E & I) end.
  match goal with H : Matches r1 _ ?w1 _ |- _ =>
    exists w1; split; [exact (Matches_Lang _ _ _ _ H)|] end.
  rewrite E, assoc_app_other.
  - simpl. now rewrite String.eqb_refl.
  - intros v Hin. apply Hg. eauto.
Qed.

(** [\d+(?:\.\d+)?] matches decimal literals only. *)
Lemma number_re_decimal (w : str) : Lang number_re w -> decimal w.
Proof.
  unfold number_re, Plus, Lit. cbn [Lang].
  intros (w1 & w2 & -> & (w3 & w4 & -> & (c & -> & Hc) & Hw4) & Hopt).
  assert (Hip : all_digits ([c] ++ w4) = true)
    by (unfold all_digits; simpl; now rewrite Hc, Hw4).
  exists ([c] ++ w4).
  destruct Hopt as [-> | (w5 & w6 & -> & (d & -> & Hd) & (w7 & w8 & -> & (c' & -> & Hc') & Hw8))].
  - exists []. split; [exact Hip|]. left. now rewrite app_nil_r.
  - exists ([c'] ++ w8). split; [exact Hip|]. right. split.
    + unfold all_digits. simpl. now rewrite Hc', Hw8.
    + apply Ascii.eqb_eq in Hd. now subst d.
Qed.

(** The groups read by [float] hold decimal literals. *)
Lemma grams_group_decimal (gm : Match) (p : str) :
  re_search grams_re p = Some gm ->
  exists w, group gm "grams" = Some w /\ decimal w.
Proof.
  unfold re_search. intros H.
  apply search_from_sound in H. destruct H as (prev & rest & pos & H).
  apply match_at_sound in H. destruct H as (w & st' & M & ->).
  apply leading_group in M; [|simpl; intros F; exact F].
  destruct M as (w1 & L & E). exists w1. split; [exact E|].
  now apply number_re_decimal.
Qed.

Lemma number_group_decimal (m : Match) (p : str) :
  re_match number_unit_food_re p = Some m ->
  exists w, group m "number" = Some w /\ decimal w.
Proof.
  unfold re_match. intros H.
  apply match_at_sound in H. destruct H as (w & st' & M & ->).
  apply leading_group in M.
  - destruct M as (w1 & L & E). exists w1. split; [exact E|].
    now apply number_re_decimal.
  - vm_compute. intros [H|[H|[]]]; discriminate.
Qed.

Lemma decimal_nonempty (w : str) : decimal w -> is_empty w = false.
Proof.
  intros (ip & fp & Hip & H). unfold all_digits in Hip.
  destruct ip as [|c ip]; [discriminate|].
  destruct H as [-> | [_ ->]]; reflexivity.
Qed.

(** ** Lists, comparisons *)

Lemma Qltb_lt (x y : Q) : Qltb x y = true <-> (x < y)%Q.
Proof.
  unfold Qltb. rewrite Qlt_alt. destruct (x ?= y)%Q; split; congruence.
Qed.

Lemma Qltb_ge (x y : Q) : Qltb x y = false <-> (y <= x)%Q.
Proof.
  split; intros H.
  - apply Qnot_lt_le. intros L. apply Qltb_lt in L. congruence.
  - destruct (Qltb x y) eqn:E; [|reflexivity].
    apply Qltb_lt in E. exfalso. now apply (Qlt_not_le _ _ E).
Qed.

Lemma truthy_false (x : Q) : truthy x = false <-> (x == 0)%Q.
Proof.
  unfold truthy. rewrite negb_false_iff. apply Qeq_bool_iff.
Qed.

Lemma truthy_true (x : Q) : truthy x = true <-> ~ (x == 0)%Q.
Proof.
  unfold truthy. rewrite negb_true_iff. split; intros H.
  - intros E. apply Qeq_bool_iff in E. congruence.
  - destruct (Qeq_bool x 0) eqn:E; [|reflexivity].
    apply Qeq_bool_iff in E. contradiction.
Qed.

(** [find] returns the first element that passes the test. *)
Lemma find_first {A : Type} (f : A -> bool) (l : list A) (x : A) :
  find f l = Some x ->
  exists l1 l2, l = l1 ++ x :: l2 /\ f x = true /\
                forall y, In y l1 -> f y = false.
Proof.
  induction l as [|a l IH]; simpl; [discriminate|].
  destruct (f a) eqn:E; intros H.
  - inv H. exists [], l. simpl. repeat split; auto. intros ? [].
  - destruct (IH H) as (l1 & l2 & -> & Hx & Hl1).
    exists (a :: l1), l2. repeat split; auto.
    intros y [<-|Hy]; auto.
Qed.

Lemma find_none_iff {A : Type} (f : A -> bool) (l : list A) :
  find f l = None <-> forall y, In y l -> f y = false.
Proof.
  split; [apply find_none|].
  induction l as [|a l IH]; simpl; intros H; [reflexivity|].
  rewrite (H a) by now left. apply IH. intros y Hy. apply H. now right.
Qed.

Lemma starts_with_spec (a b : str) :
  starts_with a b = true <-> exists post, b = a ++ post.
Proof.
  revert b. induction a as [|x a IH]; simpl; intros b.
  - split; eauto.
  - destruct b as [|y b].
    + split; [discriminate | intros [post H]; discriminate].
    + rewrite andb_true_iff, Ascii.eqb_eq, IH. split.
      * intros [-> [post ->]]. eauto.
      * intros [post H]. inv H. eauto.
Qed.

(** [contains a b] is [a in b]: [a] occurs somewhere in [b]. *)
Lemma contains_spec (a b : str) :
  contains a b = true <-> exists pre post, b = pre ++ a ++ post.
Proof.
  induction b as [|y b IH].
  - simpl. rewrite orb_false_r, starts_with_spec. split.
    + intros [post H]. exists [], post. exact H.
    + intros (pre & post & H). destruct pre; [eauto|discriminate].
  - cbn [contains]. rewrite orb_true_iff, starts_with_spec, IH. split.
    + intros [[post H] | (pre & post & H)].
      * exists [], post. exact H.
      * exists (y :: pre), post. simpl. now rewrite H.
    + intros (pre & post & H). destruct pre as [|z pre].
      * left. eauto.
      * right. inv H. eauto.
Qed.

(** ** The food matcher *)

Lemma pair_gtb_true (x best : Q * str) :
  pair_gtb x best = true -> (fst best <= fst x)%Q.
Proof.
  unfold pair_gtb. destruct (Qeq_bool (fst x) (fst best)) eqn:E; intros H.
  - apply Qeq_bool_iff in E. rewrite E. apply Qle_refl.
  - apply Qltb_lt in H. now apply Qlt_le_weak.
Qed.

Lemma pair_gtb_false (x best : Q * str) :
  pair_gtb x best = false -> (fst x <= fst best)%Q.
Proof.
  unfold pair_gtb. destruct (Qeq_bool (fst x) (fst best)) eqn:E; intros H.
  - apply Qeq_bool_iff in E. rewrite E. apply Qle_refl.
  - now apply Qltb_ge in H.
Qed.

(** [max] returns an element of the list that no element exceeds. *)
Lemma py_max_greatest (others : list (Q * str)) : forall first,
  In (py_max first others) (first :: others) /\
  forall y, In y (first :: others) -> (fst y <= fst (py_max first others))%Q.
Proof.
  unfold py_max.
  induction others as [|x others IH]; intros first; simpl.
  - split; [now left|]. intros y [<-|[]]. apply Qle_refl.
  - destruct (IH (if pair_gtb x first then x else first)) as [Hin Hmax].
    split.
    + destruct Hin as [Hin|Hin]; [|now right; right].
      rewrite <- Hin. destruct (pair_gtb x first); [right|]; now left.
    + intros y Hy.
      assert (Hstep : (fst first <= fst (if pair_gtb x first then x else first)
                       /\ fst x <= fst (if pair_gtb x first then x else first))%Q).
      { destruct (pair_gtb x first) eqn:E.
        - split; [now apply pair_gtb_true | apply Qle_refl].
        - split; [apply Qle_refl | now apply pair_gtb_false]. }
      destruct Hstep as [H1 H2].
      destruct Hy as [<-|[<-|Hy]].
      * eapply Qle_trans; [exact H1|]. apply Hmax. now left.
      * eapply Qle_trans; [exact H2|]. apply Hmax. now left.
      * apply Hmax. now right.
Qed.

(** [get_close_matches] returns nothing when no possibility reaches the
    cutoff, and otherwise one possibility of greatest ratio. *)
Lemma get_close_matches_spec (word : str) (poss : list str) (cutoff : Q) :
  (get_close_matches word poss cutoff = [] /\
   forall x, In x poss -> ~ (cutoff <= ratio x word)%Q)
  \/
  (exists best, get_close_matches word poss cutoff = [best] /\
                In best poss /\ (cutoff <= ratio best word)%Q /\
                forall x, In x poss -> (ratio x word <= ratio best word)%Q).
Proof.
  unfold get_close_matches.
  set (ok := fun x => Qle_bool cutoff (ratio x word)).
  destruct (filter ok poss) as [|f fs] eqn:E; simpl.
  - left. split; [reflexivity|]. intros x Hx Hle.
    assert (Hin : In x (filter ok poss)).
    { apply filter_In. split; [exact Hx|]. now apply Qle_bool_iff. }
    rewrite E in Hin. destruct Hin.
  - right.
    set (sc := fun x => (ratio x word, x)).
    destruct (py_max_greatest (map sc fs) (sc f)) as [Hin Hmax].
    change (sc f :: map sc fs) with (map sc (f :: fs)) in Hin, Hmax.
    apply in_map_iff in Hin. destruct Hin as (b & Hb & Hbin).
    rewrite <- E in Hbin. apply filter_In in Hbin. destruct Hbin as [Hbp Hbok].
    change (ratio f word, f) with (sc f). rewrite <- Hb in *.
    simpl fst in *. simpl snd.
    apply Qle_bool_iff in Hbok.
    exists b. split; [reflexivity|]. split; [exact Hbp|]. split; [exact Hbok|].
    intros x Hx. destruct (ok x) eqn:Hokx.
    + assert (Hxin : In (sc x) (map sc (f :: fs))).
      { apply in_map. rewrite <- E. apply filter_In. auto. }
      apply (Hmax _ Hxin).
    + apply Qle_trans with cutoff; [|exact Hbok].
      apply Qlt_le_weak. apply Qnot_le_lt. intros Hle.
      apply Qle_bool_iff in Hle. unfold ok in Hokx. congruence.
Qed.

(** The confidence tells the strategy: it is [0] exactly when no key is
    returned. *)
Lemma find_best_food_token_none (token : str) (c : Q) :
  find_best_food_token token = (None, c) ->
  c = 0%Q /\
  find (fun key => str_eqb (lower (strip token)) (lower key)) FOOD_KEYS = None.
Proof.
  unfold find_best_food_token.
  destruct (find (fun key => str_eqb _ (lower key)) FOOD_KEYS) eqn:E1;
    [discriminate|].
  destruct (get_close_matches _ _ _); [|discriminate].
  destruct (find (fun key => contains _ (lower key)) FOOD_KEYS) eqn:E3;
    [discriminate|].
  intros H. inv H. auto.
Qed.

Lemma find_best_food_token_conf0 (token : str) (k : option str) :
  find_best_food_token token = (k, 0%Q) -> k = None.
Proof.
  unfold find_best_food_token.
  destruct (find (fun key => str_eqb _ (lower key)) FOOD_KEYS) eqn:E1;
    [discriminate|].
  destruct (get_close_matches _ _ _); [|discriminate].
  destruct (find (fun key => contains _ (lower key)) FOOD_KEYS) eqn:E3;
    [discriminate|].
  intros H. now inv H.
Qed.

Lemma find_best_food_token_in (token : str) (k : str) (c : Q) :
  find_best_food_token token = (Some k, c) -> In k FOOD_KEYS.
Proof.
  unfold find_best_food_token.
  destruct (find (fun key => str_eqb _ (lower key)) FOOD_KEYS) eqn:E1.
  { intros H. inv H. apply find_some in E1. exact (proj1 E1). }
  destruct (get_close_matches_spec (lower (strip token)) FOOD_KEYS (6 # 10))
    as [[-> _] | (b & -> & Hb & _)].
  - destruct (find (fun key => contains _ (lower key)) FOOD_KEYS) eqn:E3;
      [|discriminate].
    intros H. inv H. apply find_some in E3. exact (proj1 E3).
  - intros H. now inv H.
Qed.

(** C5. The matcher tries its strategies in a fixed order and the first
    that applies decides: a key equal to the normalised token up to case
    gives that key (the first such in table order) with confidence 1;
    otherwise a key of greatest similarity ratio, if that ratio is at least
    0.6, with confidence 0.8; otherwise the first key in table order that
    contains the token, with confidence 0.7; otherwise no key and confidence
    0.  Hence the confidence is one of 0, 0.7, 0.8 and 1. *)
Theorem find_best_food_token_priority (token : str) :
  let t := lower (strip token) in
  let exact := fun k => t = lower k in
  let close := fun k => (6 # 10 <= ratio k t)%Q in
  let inside := fun k => exists pre post, lower k = pre ++ t ++ post in
  ((exists k, In k FOOD_KEYS /\ exact k) ->
   exists k l1 l2,
     find_best_food_token token = (Some k, 1%Q) /\
     FOOD_KEYS = l1 ++ k :: l2 /\ exact k /\
     forall k', In k' l1 -> ~ exact k')
  /\
  ((forall k, In k FOOD_KEYS -> ~ exact k) ->
   (exists k, In k FOOD_KEYS /\ close k) ->
   exists k,
     find_best_food_token token = (Some k, (8 # 10)%Q) /\
     In k FOOD_KEYS /\ close k /\
     forall k', In k' FOOD_KEYS -> (ratio k' t <= ratio k t)%Q)
  /\
  ((forall k, In k FOOD_KEYS -> ~ exact k /\ ~ close k) ->
   (exists k, In k FOOD_KEYS /\ inside k) ->
   exists k l1 l2,
     find_best_food_token token = (Some k, (7 # 10)%Q) /\
     FOOD_KEYS = l1 ++ k :: l2 /\ inside k /\
     forall k', In k' l1 -> ~ inside k')
  /\
  ((forall k, In k FOOD_KEYS -> ~ exact k /\ ~ close k /\ ~ inside k) ->
   find_best_food_token token = (None, 0%Q))
  /\
  In (snd (find_best_food_token token)) [0; 7 # 10; 8 # 10; 1]%Q.
Proof.
  intros t exact close inside.
  assert (Hexact : forall k, str_eqb t (lower k) = false -> ~ exact k).
  { intros k E H. unfold exact in H. rewrite H, str_eqb_refl in E.
    discriminate. }
  assert (Hinside : forall k, contains t (lower k) = false -> ~ inside k).
  { intros k E H. apply contains_spec in H. congruence. }
  unfold find_best_food_token. fold t.
  destruct (find (fun key => str_eqb t (lower key)) FOOD_KEYS) as [k1|] eqn:E1.
  { (* an exact key exists *)
    destruct (find_first _ _ _ E1) as (l1 & l2 & EK & Hk1 & Hl1).
    apply str_eqb_eq in Hk1.
    assert (In1 : In k1 FOOD_KEYS) by (rewrite EK; apply in_elt).
    repeat split.
    - intros _. exists k1, l1, l2. repeat split; auto.
    - intros Hno _. exfalso. apply (Hno k1 In1 Hk1).
    - intros Hno _. exfalso. apply (proj1 (Hno k1 In1)). exact Hk1.
    - intros Hno. exfalso. apply (proj1 (Hno k1 In1)). exact Hk1.
    - in_list. }
  assert (Hno1 : forall k, In k FOOD_KEYS -> ~ exact k).
  { intros k Hk. apply Hexact. revert k Hk. now apply find_none_iff. }
  destruct (get_close_matches_spec t FOOD_KEYS (6 # 10))
    as [[-> Hnone] | (b & -> & Hb & Hclose & Hbest)].
  - destruct (find (fun key => contains t (lower key)) FOOD_KEYS) as [k3|] eqn:E3.
    + destruct (find_first _ _ _ E3) as (l1 & l2 & EK & Hk3 & Hl1).
      apply contains_spec in Hk3.
      assert (In3 : In k3 FOOD_KEYS) by (rewrite EK; apply in_elt).
      repeat split.
      * intros (k & Hk & Hex). exfalso. apply (Hno1 k Hk Hex).
      * intros _ (k & Hk & Hcl). exfalso. apply (Hnone k Hk Hcl).
      * intros _ _. exists k3, l1, l2. repeat split; auto.
      * intros Hno. exfalso. apply (proj2 (proj2 (Hno k3 In3))). exact Hk3.
      * in_list.
    + assert (Hno3 : forall k, In k FOOD_KEYS -> ~ inside k).
      { intros k Hk. apply Hinside. revert k Hk. now apply find_none_iff. }
      repeat split.
      * intros (k & Hk & Hex). exfalso. apply (Hno1 k Hk Hex).
      * intros _ (k & Hk & Hcl). exfalso. apply (Hnone k Hk Hcl).
      * intros _ (k & Hk & Hin). exfalso. apply (Hno3 k Hk Hin).
      * in_list.
  - repeat split.
    + intros (k & Hk & Hex). exfalso. apply (Hno1 k Hk Hex).
    + intros _ _. exists b. repeat split; auto.
    + intros Hno _. exfalso. apply (proj2 (Hno b Hb)). exact Hclose.
    + intros Hno. exfalso. apply (proj1 (proj2 (Hno b Hb))). exact Hclose.
    + in_list.
Qed.

(** ** The parser *)

Lemma db_get_some (key : option str) (e : FoodEntry) :
  db_get key = Some e -> exists k, key = Some k /\ lookup k FOOD_DB = Some e.
Proof.
  destruct key as [k|]; simpl; [eauto | discriminate].
Qed.

Lemma parse_clause_raw (p : str) (it : ParsedItem) :
  parse_clause p = Ok it -> raw it = p.
Proof.
  unfold parse_clause.
  destruct (re_search grams_re p) as [gm|].
  - destruct (float_group gm "grams"); simpl; [|discriminate].
    destruct (find_best_food_token _) as [key conf].
    intros H. now inv H.
  - destruct (re_match number_unit_food_re p) as [m|].
    + destruct (match group m "number" with
                | Some s => if is_empty s then Ok None
                            else (x <- float s ;; Ok (Some x))
                | None => Ok None
                end) as [num|]; simpl; [|discriminate].
      destruct (find_best_food_token _) as [key conf].
      intros H. now inv H.
    + destruct (find_best_food_token _) as [key conf].
      destruct (match db_get key with
                | Some e => match serving_g e with
                            | Some v => Ok v
                            | None => Raise KeyError
                            end
                | None => Ok 100%Q
                end); simpl; [|discriminate].
      intros H. now inv H.
Qed.

(** With a table that gives every serving size, no clause makes the parser
    raise. *)
Lemma parse_clause_total (p : str) :
  table_has_servings -> exists it, parse_clause p = Ok it.
Proof.
  intros WF. unfold parse_clause.
  destruct (re_search grams_re p) as [gm|] eqn:Hg.
  - destruct (grams_group_decimal _ _ Hg) as (w & Hw & Hdec).
    destruct (float_decimal _ Hdec) as (q & Hq).
    unfold float_group. rewrite Hw, Hq. simpl.
    destruct (find_best_food_token _) as [key conf]. eauto.
  - destruct (re_match number_unit_food_re p) as [m|] eqn:Hm.
    + destruct (number_group_decimal _ _ Hm) as (w & Hw & Hdec).
      destruct (float_decimal _ Hdec) as (q & Hq).
      rewrite Hw, (decimal_nonempty _ Hdec), Hq. simpl.
      destruct (find_best_food_token _) as [key conf]. eauto.
    + destruct (find_best_food_token _) as [key conf].
      destruct (db_get key) as [e|] eqn:Hdb; simpl; [|eauto].
      destruct (db_get_some _ _ Hdb) as (k & _ & Hk).
      destruct (serving_g e) as [v|] eqn:Hs; simpl; [eauto|].
      exfalso. exact (WF _ _ Hk Hs).
Qed.

(** The loop visits the parts in order; every part that is not blank adds
    exactly one item, whose [raw] is the stripped part. *)
Lemma parse_parts_items (parts : list str) : forall items res,
  parse_parts parts items = Ok res ->
  exists new,
    res = items ++ new /\
    map raw new = filter nonblank (map strip parts) /\
    Forall (fun it => parse_clause (raw it) = Ok it) new.
Proof.
  induction parts as [|part parts IH]; simpl; intros items res H.
  - inv H. exists []. rewrite app_nil_r. auto.
  - unfold nonblank at 1. destruct (is_empty (strip part)) eqn:E; simpl.
    + apply IH in H. exact H.
    + destruct (parse_clause (strip part)) as [it|] eqn:P; simpl in H;
        [|discriminate].
      apply IH in H. destruct H as (new & -> & Hraw & Hall).
      pose proof (parse_clause_raw _ _ P) as R.
      exists (it :: new). rewrite <- app_assoc. simpl. rewrite R, Hraw.
      repeat split; auto. constructor; [now rewrite R | exact Hall].
Qed.

Lemma parse_parts_total (parts : list str) :
  table_has_servings ->
  forall items, exists res, parse_parts parts items = Ok res.
Proof.
  intros WF. induction parts as [|part parts IH]; simpl; intros items.
  - eauto.
  - destruct (is_empty (strip part)); [apply IH|].
    destruct (parse_clause_total (strip part) WF) as (it & ->). simpl.
    apply IH.
Qed.

Lemma parse_meal_text_items (text : str) (items : list ParsedItem) :
  parse_meal_text text = Ok items ->
  map raw items = filter nonblank (map strip (re_split split_re text)) /\
  Forall (fun it => parse_clause (raw it) = Ok it) items.
Proof.
  unfold parse_meal_text. intros H.
  apply parse_parts_items in H. destruct H as (new & -> & H1 & H2). auto.
Qed.

(** ** The dietary analysis never divides by zero *)

Lemma check_nutrient_ok (tot : amounts) (acc : list Flag * list string)
  (n : nutrient) : exists acc', check_nutrient tot acc n = Ok acc'.
Proof.
  unfold check_nutrient. destruct (rdi n) as [r|]; [|eauto].
  destruct (truthy r) eqn:T; [|eauto].
  unfold py_div. unfold truthy in T. apply negb_true_iff in T. rewrite T.
  simpl. destruct (Qltb _ 80); [eauto|]. destruct (Qltb 120 _); eauto.
Qed.

Lemma check_nutrients_ok (tot : amounts) (ns : list nutrient) :
  forall acc, exists acc', check_nutrients tot ns acc = Ok acc'.
Proof.
  induction ns as [|n ns IH]; simpl; intros acc; [eauto|].
  destruct (check_nutrient_ok tot acc n) as (acc' & ->). simpl. apply IH.
Qed.

Lemma analyze_meal_text_total (text : str) :
  table_has_servings -> exists r, analyze_meal_text text = Ok r.
Proof.
  intros WF. unfold analyze_meal_text, parse_meal_text.
  destruct (parse_parts_total (re_split split_re text) WF []) as (items & ->).
  cbn [bind].
  destruct (check_nutrients_ok
              (sum_totals (map (fun p => calc_nutrition_for_item (food_key p) (grams p)) items))
              NUTRIENTS ([], [])) as (fs & ->).
  cbn [bind]. eauto.
Qed.

(** What [analyze_meal_text] returns, in terms of the parsed items. *)
Lemma analyze_meal_text_inv (text : str) (r : AnalysisResult) :
  analyze_meal_text text = Ok r ->
  exists items fs,
    parse_meal_text text = Ok items /\
    parsed_items r =
      map (fun p => entry_of p (calc_nutrition_for_item (food_key p) (grams p)))
          items /\
    totals r =
      sum_totals (map (fun p => calc_nutrition_for_item (food_key p) (grams p))
                      items) /\
    check_nutrients (totals r) NUTRIENTS ([], []) = Ok fs /\
    flags r = fst fs /\ suggestions r = dedup [] (snd fs).
Proof.
  unfold analyze_meal_text.
  destruct (parse_meal_text text) as [items|]; cbn [bind]; [|discriminate].
  destruct (check_nutrients _ NUTRIENTS ([], [])) as [fs|] eqn:E; cbn [bind];
    [|discriminate].
  intros H. inv H. cbn [parsed_items totals flags suggestions].
  exists items, fs. auto 10.
Qed.

(** ** Totals *)

Lemma add_item_at (tot ni : amounts) (k : nutrient) :
  fold_left (fun tot n => upd tot n (tot n + ni n)%Q) NUTRIENTS tot k
  = (tot k + ni k)%Q.
Proof. destruct k; reflexivity. Qed.

Lemma add_items_at (l : list amounts) (k : nutrient) : forall tot : amounts,
  fold_left (fun tot ni =>
               fold_left (fun tot n => upd tot n (tot n + ni n)%Q) NUTRIENTS tot)
            l tot k
  = fold_left Qplus (map (fun ni : amounts => ni k) l) (tot k).
Proof.
  induction l as [|ni l IH]; intros tot; [reflexivity|].
  cbn [fold_left map]. rewrite IH, add_item_at. reflexivity.
Qed.

Lemma round_all_at (tot : amounts) (k : nutrient) :
  fold_left (fun tot k => upd tot k (round (tot k) 2)) NUTRIENTS tot k
  = round (tot k) 2.
Proof. destruct k; reflexivity. Qed.

(** [sum_totals] adds the unrounded amounts of the items, in order, and
    rounds each sum once. *)
Lemma sum_totals_at (l : list amounts) (k : nutrient) :
  sum_totals l k = round (py_sum (map (fun ni : amounts => ni k) l)) 2.
Proof.
  unfold sum_totals, py_sum. rewrite round_all_at, add_items_at. reflexivity.
Qed.

(** C6 (amended). For every nutrient, the returned total is the sum of the
    unrounded per-item amounts (the amounts computed by
    [calc_nutrition_for_item] for the parsed items, added in order), rounded
    once to 2 decimals; the [nutrition] shown for each item is that item's
    amount rounded to 2 decimals on its own. *)
Theorem totals_round_of_raw_sum (text : str) (r : AnalysisResult) :
  analyze_meal_text text = Ok r ->
  exists items,
    parse_meal_text text = Ok items /\
    forall n,
      totals r n =
        round (py_sum (map (fun p => calc_nutrition_for_item
                                       (food_key p) (grams p) n) items)) 2
      /\
      map (fun e => e_nutrition e n) (parsed_items r) =
        map (fun p => round (calc_nutrition_for_item
                               (food_key p) (grams p) n) 2) items.
Proof.
  intros H. apply analyze_meal_text_inv in H.
  destruct H as (items & fs & Hp & Hitems & Htot & _).
  exists items. split; [exact Hp|]. intros n. split.
  - rewrite Htot, sum_totals_at, map_map. reflexivity.
  - rewrite Hitems, map_map. reflexivity.
Qed.

(** ** Flags and suggestions *)

Lemma check_nutrient_turn (tot : amounts) (acc : list Flag * list string)
  (n : nutrient) :
  check_nutrient tot acc n
  = Ok (fst acc ++ turn_flags tot n, snd acc ++ turn_suggestions tot n).
Proof.
  unfold check_nutrient, turn_flags, turn_suggestions, turn_level, percent.
  destruct acc as [fs ss]. cbn [fst snd].
  destruct (rdi n) as [r|]; [|now rewrite !app_nil_r].
  destruct (truthy r) eqn:T; [|now rewrite !app_nil_r].
  unfold py_div. unfold truthy in T. apply negb_true_iff in T. rewrite T.
  cbn [bind].
  destruct (Qltb (tot n / r * 100) 80); [reflexivity|].
  destruct (Qltb 120 (tot n / r * 100)); [reflexivity|].
  now rewrite !app_nil_r.
Qed.

Lemma check_nutrients_turns (tot : amounts) (ns : list nutrient) :
  forall acc,
    check_nutrients tot ns acc
    = Ok (fst acc ++ flat_map (turn_flags tot) ns,
          snd acc ++ flat_map (turn_suggestions tot) ns).
Proof.
  induction ns as [|n ns IH]; intros acc; cbn [check_nutrients flat_map].
  - rewrite !app_nil_r. now destruct acc.
  - rewrite check_nutrient_turn. cbn [bind]. rewrite IH. cbn [fst snd].
    now rewrite <- !app_assoc.
Qed.

Lemma all_nutrients (n : nutrient) : In n NUTRIENTS.
Proof. destruct n; in_list. Qed.

Lemma flags_of_result (text : str) (r : AnalysisResult) :
  analyze_meal_text text = Ok r ->
  flags r = flat_map (turn_flags (totals r)) NUTRIENTS /\
  suggestions r = dedup [] (flat_map (turn_suggestions (totals r)) NUTRIENTS).
Proof.
  intros H. apply analyze_meal_text_inv in H.
  destruct H as (items & fs & _ & _ & _ & Hc & -> & ->).
  rewrite check_nutrients_turns in Hc. inv Hc. auto.
Qed.

Lemma in_turn_flags (tot : amounts) (m : nutrient) (f : Flag) :
  In f (turn_flags tot m) ->
  exists lv r, turn_level tot m = Some lv /\ rdi m = Some r /\
               f = MkFlag lv m (round (percent tot m r) 1).
Proof.
  unfold turn_flags. destruct (turn_level tot m) as [lv|]; [|intros []].
  destruct (rdi m) as [r|]; [|intros []].
  intros [<-|[]]. eauto.
Qed.

Lemma turn_level_defined (tot : amounts) (n : nutrient) (r : Q) :
  rdi n = Some r -> ~ (r == 0)%Q ->
  turn_level tot n =
    if Qltb (percent tot n r) 80 then Some Low
    else if Qltb 120 (percent tot n r) then Some High else None.
Proof.
  intros E Hr. unfold turn_level. rewrite E.
  apply truthy_true in Hr. now rewrite Hr.
Qed.

(** C7. For a nutrient with a defined, non-zero target, the flag
    [Low n (percent rounded to 1 decimal)] is present exactly when the
    percentage is below 80, the flag [High n ...] exactly when it is above
    120, and when the percentage lies between 80 and 120, bounds included,
    no flag names the nutrient. *)
Theorem flag_thresholds (text : str) (r : AnalysisResult) (n : nutrient)
  (target : Q) :
  analyze_meal_text text = Ok r ->
  rdi n = Some target -> ~ (target == 0)%Q ->
  let pct := percent (totals r) n target in
  (In (MkFlag Low n (round pct 1)) (flags r) <-> (pct < 80)%Q) /\
  (In (MkFlag High n (round pct 1)) (flags r) <-> (120 < pct)%Q) /\
  ((80 <= pct)%Q /\ (pct <= 120)%Q ->
   forall f, In f (flags r) -> f_nutrient f <> n) /\
  (forall f, In f (flags r) -> f_nutrient f = n ->
             f = MkFlag Low n (round pct 1) \/ f = MkFlag High n (round pct 1)).
Proof.
  intros H E Hr pct.
  destruct (flags_of_result _ _ H) as [-> _].
  pose proof (turn_level_defined (totals r) n target E Hr) as TL. fold pct in TL.
  assert (Own : forall f, In f (flat_map (turn_flags (totals r)) NUTRIENTS) ->
                          f_nutrient f = n ->
                          exists lv, turn_level (totals r) n = Some lv /\
                                     f = MkFlag lv n (round pct 1)).
  { intros f Hf Hn. apply in_flat_map in Hf. destruct Hf as (m & _ & Hf).
    apply in_turn_flags in Hf. destruct Hf as (lv & r' & L & E' & ->).
    simpl in Hn. subst m. rewrite E in E'. inv E'. eauto. }
  assert (Mk : forall lv, turn_level (totals r) n = Some lv ->
                          In (MkFlag lv n (round pct 1))
                             (flat_map (turn_flags (totals r)) NUTRIENTS)).
  { intros lv L. apply in_flat_map. exists n. split; [apply all_nutrients|].
    unfold turn_flags. rewrite L, E. now left. }
  repeat split.
  - intros Hin. destruct (Own _ Hin eq_refl) as (lv & L & Ef). inv Ef.
    rewrite TL in L. destruct (Qltb pct 80) eqn:C; [now apply Qltb_lt|].
    destruct (Qltb 120 pct); discriminate.
  - intros Hlt. apply Mk. rewrite TL. apply Qltb_lt in Hlt. now rewrite Hlt.
  - intros Hin. destruct (Own _ Hin eq_refl) as (lv & L & Ef). inv Ef.
    rewrite TL in L. destruct (Qltb pct 80) eqn:C; [discriminate|].
    destruct (Qltb 120 pct) eqn:C'; [now apply Qltb_lt | discriminate].
  - intros Hgt. apply Mk. rewrite TL.
    destruct (Qltb pct 80) eqn:C.
    + apply Qltb_lt in C. exfalso.
      apply (Qlt_irrefl pct). apply Qlt_trans with 80%Q; [exact C|].
      apply Qlt_trans with 120%Q; [reflexivity | exact Hgt].
    + apply Qltb_lt in Hgt. now rewrite Hgt.
  - intros [Hlo Hhi] f Hin Hn. destruct (Own _ Hin Hn) as (lv & L & _).
    rewrite TL in L. apply Qltb_ge in Hlo, Hhi. rewrite Hlo, Hhi in L.
    discriminate.
  - intros f Hin Hn. destruct (Own _ Hin Hn) as ([|] & _ & ->); auto.
Qed.

Lemma in_dedup (l : list string) : forall seen s,
  In s (dedup seen l) -> In s l.
Proof.
  induction l as [|x l IH]; simpl; intros seen s H; [exact H|].
  destruct (existsb (String.eqb x) seen).
  - right. eapply IH; eassumption.
  - destruct H as [H|H]; [now left | right; eapply IH; eassumption].
Qed.

(** The suggestions of two different nutrients have no text in common. *)
Lemma suggestions_disjoint (m n : nutrient) (s : string) :
  In s (low_suggestions m ++ high_suggestions m) ->
  In s (low_suggestions n ++ high_suggestions n) -> m = n.
Proof.
  destruct m, n; simpl; intros Hm Hn; try reflexivity; exfalso;
    repeat (destruct Hm as [Hm|Hm]; try contradiction);
    repeat (destruct Hn as [Hn|Hn]; try contradiction);
    subst s; discriminate.
Qed.

Lemma skipped_turn (tot : amounts) (n : nutrient) :
  (rdi n = None \/ exists r, rdi n = Some r /\ (r == 0)%Q) ->
  turn_level tot n = None.
Proof.
  unfold turn_level. intros [-> | (r & -> & Hr)]; [reflexivity|].
  apply truthy_false in Hr. now rewrite Hr.
Qed.

(** C10. A nutrient whose target is missing or zero is skipped: its turn of
    the loop leaves the flags and suggestions as they were, so the result
    holds no flag naming it and none of its suggestions; and the loop never
    raises [ZeroDivisionError], whatever the targets. *)
Theorem zero_or_missing_target_skipped (n : nutrient) :
  (rdi n = None \/ exists r, rdi n = Some r /\ (r == 0)%Q) ->
  (forall tot acc, check_nutrient tot acc n = Ok acc) /\
  (forall text r, analyze_meal_text text = Ok r ->
     (forall f, In f (flags r) -> f_nutrient f <> n) /\
     (forall s, In s (suggestions r) ->
                ~ In s (low_suggestions n ++ high_suggestions n))) /\
  (forall tot ns acc, exists acc', check_nutrients tot ns acc = Ok acc').
Proof.
  intros Hn. repeat split.
  - intros tot acc. rewrite check_nutrient_turn.
    unfold turn_flags, turn_suggestions. rewrite (skipped_turn tot n Hn).
    rewrite !app_nil_r. now destruct acc.
  - intros f Hin Hf. destruct (flags_of_result _ _ H) as [Ef _].
    rewrite Ef in Hin. apply in_flat_map in Hin. destruct Hin as (m & _ & Hin).
    apply in_turn_flags in Hin. destruct Hin as (lv & r' & L & _ & ->).
    simpl in Hf. subst m. rewrite (skipped_turn _ n Hn) in L. discriminate.
  - intros s Hin Hs. destruct (flags_of_result _ _ H) as [_ Es].
    rewrite Es in Hin. apply in_dedup in Hin.
    apply in_flat_map in Hin. destruct Hin as (m & _ & Hin).
    assert (m = n).
    { apply (suggestions_disjoint m n s); [|exact Hs].
      unfold turn_suggestions in Hin. apply in_or_app.
      destruct (turn_level (totals r) m) as [[|]|]; [now left | now right |].
      destruct Hin. }
    subst m. unfold turn_suggestions in Hin.
    rewrite (skipped_turn _ n Hn) in Hin. destruct Hin.
  - intros tot ns acc. apply check_nutrients_ok.
Qed.

(** ** [strip] *)

Lemma lstrip_clean (s : str) : clean_head (lstrip s).
Proof.
  induction s as [|c s IH]; simpl; [exact I|].
  destruct (isspace c) eqn:E; [exact IH | exact E].
Qed.

Lemma lstrip_id (s : str) : clean_head s -> lstrip s = s.
Proof.
  destruct s as [|c s]; simpl; [reflexivity|]. now intros ->.
Qed.

Lemma lstrip_suffix (s : str) : exists pre, s = pre ++ lstrip s.
Proof.
  induction s as [|c s [pre IH]]; simpl.
  - now exists [].
  - destruct (isspace c).
    + exists (c :: pre). simpl. now f_equal.
    + now exists [].
Qed.

Lemma strip_clean (s : str) : clean_head (strip s) /\ clean_head (rev (strip s)).
Proof.
  unfold strip. rewrite rev_involutive.
  split; [|apply lstrip_clean].
  destruct (lstrip_suffix (rev (lstrip s))) as [pre E].
  apply (f_equal (@rev ascii)) in E. rewrite rev_involutive, rev_app_distr in E.
  pose proof (lstrip_clean s) as C. rewrite E in C.
  destruct (rev (lstrip (rev (lstrip s)))); [exact I | exact C].
Qed.

(** Stripping a stripped text changes nothing. *)
Lemma strip_strip (s : str) : strip (strip s) = strip s.
Proof.
  destruct (strip_clean s) as [C1 C2].
  unfold strip at 1. rewrite (lstrip_id _ C1), (lstrip_id _ C2).
  apply rev_involutive.
Qed.

Lemma lookup_in {A : Type} (k : str) (d : list (str * A)) (v : A) :
  lookup k d = Some v -> In k (map fst d).
Proof.
  induction d as [|[k' v'] d IH]; simpl; [discriminate|].
  destruct (str_eqb k k') eqn:E.
  - apply str_eqb_eq in E. now left.
  - intros H. right. now apply IH.
Qed.

(** A token that the matcher leaves unmatched is not a key of the table,
    even after stripping. *)
Lemma unmatched_not_in_table (token : str) (c : Q) :
  find_best_food_token token = (None, c) ->
  db_get (Some (strip token)) = None.
Proof.
  intros H. apply find_best_food_token_none in H. destruct H as [_ H].
  simpl. destruct (lookup (strip token) FOOD_DB) as [e|] eqn:L; [|reflexivity].
  apply lookup_in in L. fold FOOD_KEYS in L.
  rewrite find_none_iff in H. specialize (H _ L). cbv beta in H.
  rewrite str_eqb_refl in H. discriminate.
Qed.

Lemma find_best_food_token_conf (token : str) :
  In (snd (find_best_food_token token)) [0; 7 # 10; 8 # 10; 1]%Q.
Proof.
  unfold find_best_food_token.
  destruct (find (fun key => str_eqb _ (lower key)) FOOD_KEYS); [in_list|].
  destruct (get_close_matches _ _ _); [|in_list].
  destruct (find (fun key => contains _ (lower key)) FOOD_KEYS); in_list.
Qed.

(** What a clause becomes, shape by shape. *)
Lemma parse_clause_grams (p : str) (gm : Match) (it : ParsedItem) :
  re_search grams_re p = Some gm -> parse_clause p = Ok it ->
  let token := strip (re_sub_empty grams_re p) in
  float_group gm "grams" = Ok (grams it) /\
  confidence it = snd (find_best_food_token token) /\
  food_key it = match fst (find_best_food_token token) with
                | Some k => Some k
                | None => Some token
                end.
Proof.
  intros Hg. unfold parse_clause. rewrite Hg.
  destruct (float_group gm "grams") as [g|]; cbn [bind]; [|discriminate].
  destruct (find_best_food_token _) as [key conf].
  intros H. inv H. simpl. destruct key; auto.
Qed.

Lemma parse_clause_other (p : str) (it : ParsedItem) :
  re_search grams_re p = None -> parse_clause p = Ok it ->
  food_key it = fst (find_best_food_token (food_text p)) /\
  confidence it = snd (find_best_food_token (food_text p)).
Proof.
  intros Hg. unfold parse_clause, food_text. rewrite Hg.
  destruct (re_match number_unit_food_re p) as [m|].
  - destruct (match group m "number" with
              | Some s => if is_empty s then Ok None
                          else (x <- float s ;; Ok (Some x))
              | None => Ok None
              end) as [num|]; cbn [bind]; [|discriminate].
    destruct (find_best_food_token _) as [key conf].
    intros H. inv H. auto.
  - destruct (find_best_food_token _) as [key conf].
    destruct (match db_get key with
              | Some e => match serving_g e with
                          | Some v => Ok v
                          | None => Raise KeyError
                          end
              | None => Ok 100%Q
              end); cbn [bind]; [|discriminate].
    intros H. inv H. auto.
Qed.

(** C9. The raw token is kept as [food_key] only in the explicit-grams
    shape: there an unmatched rest gives [food_key] the leftover token and
    confidence 0 (and a matched rest gives the key found); in the two other
    shapes [food_key] is what the matcher returns, so an unmatched food
    gives [food_key = None] with confidence 0. *)
Theorem raw_token_kept_only_with_explicit_grams (p : str) (it : ParsedItem) :
  parse_clause p = Ok it ->
  (forall gm, re_search grams_re p = Some gm ->
     let token := strip (re_sub_empty grams_re p) in
     (fst (find_best_food_token token) = None ->
      food_key it = Some token /\ confidence it = 0%Q) /\
     (forall k, fst (find_best_food_token token) = Some k ->
                food_key it = Some k))
  /\
  (re_search grams_re p = None ->
     food_key it = fst (find_best_food_token (food_text p)) /\
     (fst (find_best_food_token (food_text p)) = None ->
      food_key it = None /\ confidence it = 0%Q)).
Proof.
  intros P. split.
  - intros gm Hg token.
    destruct (parse_clause_grams _ _ _ Hg P) as (_ & Hc & Hk). fold token in Hc, Hk.
    split.
    + intros Hn. rewrite Hn in Hk. split; [exact Hk|].
      destruct (find_best_food_token token) as [key conf] eqn:E.
      simpl in Hn, Hc. subst key.
      apply find_best_food_token_none in E. destruct E as [-> _]. exact Hc.
    + intros k Hs. now rewrite Hs in Hk.
  - intros Hg. destruct (parse_clause_other _ _ Hg P) as (Hk & Hc).
    split; [exact Hk|]. intros Hn. split; [congruence|].
    destruct (find_best_food_token (food_text p)) as [key conf] eqn:E.
    simpl in Hn, Hc. subst key.
    apply find_best_food_token_none in E. destruct E as [-> _]. exact Hc.
Qed.

(** ** Quantities *)

Lemma unit_positive (unit : str) (u : Q) :
  lookup unit UNIT_TO_G = Some u -> (0 < u)%Q.
Proof.
  unfold UNIT_TO_G. cbn [lookup].
  repeat (destruct (str_eqb unit _); [intros H; inv H; reflexivity|]).
  discriminate.
Qed.

Lemma parse_clause_quantity (p : str) (m : Match) (it : ParsedItem) :
  re_search grams_re p = None ->
  re_match number_unit_food_re p = Some m ->
  parse_clause p = Ok it ->
  exists s q,
    group m "number" = Some s /\ float s = Ok q /\
    let unit := lower (get (group m "unit") []) in
    grams it =
      if truthy q && negb (is_empty unit) then
        match lookup unit UNIT_TO_G with
        | Some u => (q * u)%Q
        | None => (q * 100)%Q
        end
      else if truthy q && is_empty unit then
        match db_get (food_key it) with
        | Some e => (q * get (serving_g e) 100)%Q
        | None => (q * 100)%Q
        end
      else serving_or_100 (food_key it).
Proof.
  intros Hg Hm. unfold parse_clause. rewrite Hg, Hm.
  destruct (number_group_decimal _ _ Hm) as (s & Hs & Hdec).
  destruct (float_decimal _ Hdec) as (q & Hq).
  rewrite Hs, (decimal_nonempty _ Hdec), Hq. cbn [bind].
  destruct (find_best_food_token _) as [key conf].
  intros H. inv H. exists s, q.
  split; [reflexivity|]. split; [exact Hq | reflexivity].
Qed.

Lemma parse_clause_bare (p : str) (it : ParsedItem) :
  re_search grams_re p = None ->
  re_match number_unit_food_re p = None ->
  parse_clause p = Ok it ->
  match db_get (food_key it) with
  | Some e => serving_g e = Some (grams it)
  | None => grams it = 100%Q
  end.
Proof.
  intros Hg Hm. unfold parse_clause. rewrite Hg, Hm.
  destruct (find_best_food_token _) as [key conf].
  destruct (db_get key) as [e|] eqn:D.
  - destruct (serving_g e) as [v|] eqn:S; cbn [bind]; [|discriminate].
    intros H. inv H. simpl. now rewrite D.
  - cbn [bind]. intros H. inv H. simpl. now rewrite D.
Qed.

Lemma serving_or_100_positive (key : option str) :
  servings_positive -> (0 < serving_or_100 key)%Q.
Proof.
  intros SP. unfold serving_or_100.
  destruct (db_get key) as [e|] eqn:D; [|reflexivity].
  destruct (db_get_some _ _ D) as (k & _ & L).
  destruct (serving_g e) as [v|] eqn:S; [|reflexivity].
  simpl. exact (SP _ _ _ L S).
Qed.

Lemma truthy_positive (q : Q) : (0 <= q)%Q -> truthy q = true -> (0 < q)%Q.
Proof.
  intros H T. apply truthy_true in T. apply Qle_lt_or_eq in H.
  destruct H as [H|H]; [exact H|]. exfalso. apply T. now symmetry.
Qed.

Lemma Qmult_pos (a b : Q) : (0 < a)%Q -> (0 < b)%Q -> (0 < a * b)%Q.
Proof.
  intros Ha Hb. rewrite <- (Qmult_0_l b). apply Qmult_lt_compat_r; assumption.
Qed.

(** Outside the explicit-grams shape the weight is positive. *)
Lemma parse_clause_positive (p : str) (it : ParsedItem) :
  servings_positive ->
  re_search grams_re p = None -> parse_clause p = Ok it -> (0 < grams it)%Q.
Proof.
  intros SP Hg P.
  destruct (re_match number_unit_food_re p) as [m|] eqn:Hm.
  - destruct (parse_clause_quantity _ _ _ Hg Hm P) as (s & q & _ & Hq & E).
    cbv zeta in E. rewrite E. clear E.
    pose proof (float_nonneg _ _ Hq) as Hq0.
    destruct (truthy q) eqn:T; cbn [andb].
    + pose proof (truthy_positive _ Hq0 T) as Hpos.
      destruct (is_empty (lower (get (group m "unit") []))); cbn [negb].
      * destruct (db_get (food_key it)) as [e|] eqn:D.
        -- apply Qmult_pos; [exact Hpos|].
           pose proof (serving_or_100_positive (food_key it) SP) as S.
           unfold serving_or_100 in S. now rewrite D in S.
        -- apply Qmult_pos; [exact Hpos | reflexivity].
      * destruct (lookup _ UNIT_TO_G) as [u|] eqn:U.
        -- apply Qmult_pos; [exact Hpos | exact (unit_positive _ _ U)].
        -- apply Qmult_pos; [exact Hpos | reflexivity].
    + now apply serving_or_100_positive.
  - pose proof (parse_clause_bare _ _ Hg Hm P) as B.
    destruct (db_get (food_key it)) as [e|] eqn:D.
    + destruct (db_get_some _ _ D) as (k & _ & L). exact (SP _ _ _ L B).
    + now rewrite B.
Qed.

(** C3 (amended). With positive serving sizes in the table, the weight of
    every parsed item is non-negative; it is strictly positive for every
    clause without an explicit gram quantity, and for a clause with one it
    is the number written before [g], which may be zero. *)
Theorem grams_nonnegative (text : str) (items : list ParsedItem)
  (it : ParsedItem) :
  servings_positive ->
  parse_meal_text text = Ok items -> In it items ->
  (0 <= grams it)%Q /\
  (re_search grams_re (raw it) = None -> (0 < grams it)%Q) /\
  (forall gm, re_search grams_re (raw it) = Some gm ->
              float_group gm "grams" = Ok (grams it)).
Proof.
  intros SP H Hin. apply parse_meal_text_items in H. destruct H as [_ H].
  rewrite Forall_forall in H. specialize (H _ Hin). cbv beta in H.
  assert (G : forall gm, re_search grams_re (raw it) = Some gm ->
                         float_group gm "grams" = Ok (grams it)).
  { intros gm Hg. exact (proj1 (parse_clause_grams _ _ _ Hg H)). }
  split; [|split; [|exact G]].
  - destruct (re_search grams_re (raw it)) as [gm|] eqn:Hg.
    + specialize (G gm eq_refl). unfold float_group in G.
      destruct (group gm "grams"); [|discriminate].
      exact (float_nonneg _ _ G).
    + apply Qlt_le_weak. now apply (parse_clause_positive (raw it)).
  - intros Hg. now apply (parse_clause_positive (raw it)).
Qed.

(** C8 (amended). In a clause without an explicit gram quantity whose
    leading number is 0, the number is treated as absent whatever unit word
    follows: the weight is the serving size of the matched food, or 100 when
    no food matched or the entry gives no serving size; it is not 0 times
    the unit's weight. *)
Theorem zero_quantity_uses_serving (p : str) (m : Match) (s : str)
  (it : ParsedItem) :
  re_search grams_re p = None ->
  re_match number_unit_food_re p = Some m ->
  group m "number" = Some s ->
  (exists q, float s = Ok q /\ (q == 0)%Q) ->
  parse_clause p = Ok it ->
  grams it = serving_or_100 (food_key it) /\
  (servings_positive -> (0 < grams it)%Q).
Proof.
  intros Hg Hm Hs (q & Hq & Hz) P.
  destruct (parse_clause_quantity _ _ _ Hg Hm P) as (s' & q' & Hs' & Hq' & E).
  rewrite Hs in Hs'. inv Hs'. rewrite Hq in Hq'. inv Hq'.
  cbv zeta in E. apply truthy_false in Hz. rewrite Hz in E. cbn [andb] in E.
  split; [exact E|]. intros SP. rewrite E. now apply serving_or_100_positive.
Qed.

(** ** The route [/analyze] *)

Lemma zero_confidence_unmatched (p : str) (it : ParsedItem) :
  parse_clause p = Ok it -> confidence it = 0%Q ->
  db_get (food_key it) = None.
Proof.
  intros P C. destruct (re_search grams_re p) as [gm|] eqn:Hg.
  - destruct (parse_clause_grams _ _ _ Hg P) as (_ & Hc & Hk).
    cbv zeta in Hc, Hk. rewrite C in Hc.
    destruct (find_best_food_token (strip (re_sub_empty grams_re p)))
      as [key conf] eqn:E.
    simpl in Hc, Hk. subst conf.
    pose proof (find_best_food_token_conf0 _ _ E) as K. rewrite K in Hk, E.
    rewrite Hk, <- (strip_strip (re_sub_empty grams_re p)).
    exact (unmatched_not_in_table _ _ E).
  - destruct (parse_clause_other _ _ Hg P) as (Hk & Hc). rewrite C in Hc.
    destruct (find_best_food_token (food_text p)) as [key conf] eqn:E.
    simpl in Hc, Hk. subst conf.
    pose proof (find_best_food_token_conf0 _ _ E) as K. rewrite K in Hk.
    now rewrite Hk.
Qed.

Lemma parse_clause_conf (p : str) (it : ParsedItem) :
  parse_clause p = Ok it -> In (confidence it) [0; 7 # 10; 8 # 10; 1]%Q.
Proof.
  intros P. destruct (re_search grams_re p) as [gm|] eqn:Hg.
  - destruct (parse_clause_grams _ _ _ Hg P) as (_ & -> & _).
    apply find_best_food_token_conf.
  - destruct (parse_clause_other _ _ Hg P) as (_ & ->).
    apply find_best_food_token_conf.
Qed.

(** An item shown with confidence 0 carries no nutrition. *)
Lemma unmatched_entries_zero (text : str) (r : AnalysisResult) (e : Entry) :
  analyze_meal_text text = Ok r -> In e (parsed_items r) ->
  e_confidence e = 0%Q -> forall n, e_nutrition e n = 0%Q.
Proof.
  intros H Hin C n. apply analyze_meal_text_inv in H.
  destruct H as (items & fs & Hp & Hitems & _).
  rewrite Hitems in Hin. apply in_map_iff in Hin.
  destruct Hin as (it & <- & Hit).
  apply parse_meal_text_items in Hp. destruct Hp as [_ Hp].
  rewrite Forall_forall in Hp. specialize (Hp _ Hit). cbv beta in Hp.
  cbn [entry_of e_confidence e_nutrition] in *.
  assert (C0 : confidence it = 0%Q).
  { pose proof (parse_clause_conf _ _ Hp) as V. simpl in V.
    destruct V as [V|[V|[V|[V|[]]]]]; rewrite <- V in *;
      [reflexivity | | | ]; vm_compute in C; discriminate. }
  unfold calc_nutrition_for_item.
  rewrite (zero_confidence_unmatched _ _ Hp C0). reflexivity.
Qed.

(** Blank input is refused before anything else is done: the answer does
    not depend on the food table and the logs are left untouched. *)
Lemma analyze_blank (text : str) (w : world) :
  is_empty (strip text) = true ->
  analyze text w = (BadRequest "Empty input", w).
Proof.
  unfold analyze. now intros ->.
Qed.

(** C2. With a table that gives every serving size: a blank text is
    answered by the empty-input error and the logs stay as they were; any
    other text is answered by the analysis result, whatever [save_log]
    does (a failure of it only counts a warning), and in that result an
    item that matched no food (confidence 0) has all-zero nutrition. *)
Theorem analyze_fails_only_on_blank_input (text : str) (w : world) :
  table_has_servings ->
  (is_empty (strip text) = true ->
   analyze text w = (BadRequest "Empty input", w))
  /\
  (is_empty (strip text) = false ->
   exists r,
     analyze_meal_text text = Ok r /\
     fst (analyze text w) = Json r /\
     logs (snd (analyze text w)) = fst (save_log text (totals r) (logs w)) /\
     forall e, In e (parsed_items r) -> e_confidence e = 0%Q ->
               forall n, e_nutrition e n = 0%Q).
Proof.
  intros WF. split; [apply analyze_blank|].
  intros NB. destruct (analyze_meal_text_total text WF) as (r & Hr).
  exists r. unfold analyze. rewrite NB, Hr.
  destruct (save_log text (totals r) (logs w)) as [db raised].
  repeat split; try reflexivity.
  intros e Hin C n. exact (unmatched_entries_zero _ _ _ Hr Hin C n).
Qed.

(** ** Splitting into clauses *)

Ltac split_cases :=
  repeat first
    [ progress cbn -[Ascii.eqb isword]
    | progress unfold at_boundary
    | match goal with
      | |- context [Ascii.eqb ?c ?x] =>
          is_var x; let E := fresh "E" in
          destruct (Ascii.eqb c x) eqn:E;
          [apply Ascii.eqb_eq in E; subst x|]
      | |- context [isword_opt ?p] => is_var p; destruct p
      | |- context [isword ?x] => is_var x; destruct (isword x)
      end ];
  try reflexivity.

(** Where [,|\band\b] matches: on a comma, or on ["and"] standing between
    two positions that are not inside a word. *)
Lemma match_at_split (prev : option ascii) (rest : str) (pos : nat) :
  match_at split_re prev rest pos =
    match rest with
    | c :: _ =>
        if Ascii.eqb "," c then Some (MkMatch pos (S pos) [])
        else if and_here false prev rest then Some (MkMatch pos (3 + pos) [])
        else None
    | [] => None
    end.
Proof.
  unfold match_at, split_re, Lit, and_here, letter.
  destruct rest as [|a [|n [|d [|x rest]]]]; split_cases.
Qed.

Lemma clauses_nonempty (ci : bool) (s : str) (prev : option ascii) :
  clauses ci prev s <> [].
Proof.
  destruct s as [|c s]; cbn [clauses]; [discriminate|].
  destruct (Ascii.eqb "," c); [discriminate|].
  destruct (and_here ci prev (c :: s)).
  - destruct s as [|n [|d s]]; discriminate.
  - unfold push. destruct (clauses ci (Some c) s); discriminate.
Qed.

Lemma prepend_nil (l : list str) : l <> [] -> prepend [] l = l.
Proof. destruct l; [congruence | reflexivity]. Qed.

Lemma prepend_push (c : ascii) (cur : str) (l : list str) :
  prepend (c :: cur) l = prepend cur (push c l).
Proof.
  destruct l as [|x l]; simpl; now rewrite <- ?app_assoc.
Qed.

(** The scan of [re.split] and the clauses of the description agree. *)
Lemma pieces_clauses (n : nat) : forall rest prev pos cur,
  List.length rest <= n ->
  pieces split_re prev rest pos 0 cur = prepend cur (clauses false prev rest).
Proof.
  induction n as [|n IH]; intros rest prev pos cur Hlen.
  - destruct rest; [|simpl in Hlen; lia]. simpl. now rewrite app_nil_r.
  - destruct rest as [|c s1]; [simpl; now rewrite app_nil_r|].
    simpl in Hlen. cbn [pieces clauses]. rewrite match_at_split.
    destruct (Ascii.eqb "," c).
    + cbn [m_end]. replace (S pos - pos) with 1 by lia.
      rewrite IH by lia. rewrite prepend_nil by apply clauses_nonempty.
      simpl. now rewrite app_nil_r.
    + destruct (and_here false prev (c :: s1)) eqn:A.
      * cbn [m_end]. replace (3 + pos - pos) with 3 by lia.
        destruct s1 as [|x [|d s3]]; try discriminate A.
        cbn [pieces]. simpl in Hlen. rewrite IH by lia.
        rewrite prepend_nil by apply clauses_nonempty.
        simpl. now rewrite app_nil_r.
      * rewrite IH by lia. apply prepend_push.
Qed.

Lemma re_split_clauses (text : str) :
  re_split split_re text = clauses false None text.
Proof.
  unfold re_split. rewrite (pieces_clauses (List.length text)) by lia.
  apply prepend_nil, clauses_nonempty.
Qed.

(** What [parse_meal_text] does with the clauses it finds: [re.split] cuts
    at each comma and at each ["and"] that stands as a word of its own, the
    letters of ["and"] being compared as written since the pattern is
    compiled without [re.I]; the blank clauses are discarded; and, with a
    table that gives every serving size, the analysis returns exactly one
    item for each remaining clause, in order, whose [raw] is the stripped
    clause. *)
Theorem one_item_per_clause (text : str) :
  table_has_servings ->
  re_split split_re text = clauses false None text /\
  exists r,
    analyze_meal_text text = Ok r /\
    map e_raw (parsed_items r) = kept_clauses false text /\
    List.length (parsed_items r) = List.length (kept_clauses false text).
Proof.
  intros WF. split; [apply re_split_clauses|].
  destruct (analyze_meal_text_total text WF) as (r & Hr). exists r.
  split; [exact Hr|].
  assert (E : map e_raw (parsed_items r) = kept_clauses false text).
  { apply analyze_meal_text_inv in Hr.
    destruct Hr as (items & fs & Hp & -> & _).
    apply parse_meal_text_items in Hp. destruct Hp as [Hraw _].
    rewrite map_map. cbn [entry_of e_raw].
    unfold kept_clauses. now rewrite <- re_split_clauses. }
  split; [exact E|]. rewrite <- E. now rewrite length_map.
Qed.

(** ** The end-to-end example *)

Lemma find_best_food_token_exact (token k : str) :
  find_best_food_token token = (Some k, 1%Q) ->
  lower (strip token) = lower k.
Proof.
  unfold find_best_food_token.
  destruct (find (fun key => str_eqb _ (lower key)) FOOD_KEYS) as [k1|] eqn:E1.
  - intros H. inv H. apply find_some in E1. destruct E1 as [_ E1].
    now apply str_eqb_eq in E1.
  - destruct (get_close_matches _ _ _); [|discriminate].
    destruct (find (fun key => contains _ (lower key)) FOOD_KEYS); discriminate.
Qed.

(** Whatever the food table and the similarity ratio, the clause ["2 eggs"]
    is never resolved to the key ["egg"] with confidence 1: the pattern
    takes ["egg"] as the unit and leaves ["s"] as the food. *)
Lemma two_eggs_never_exact (it : ParsedItem) :
  parse_clause (txt "2 eggs") = Ok it ->
  ~ (food_key it = Some (txt "egg") /\ confidence it = 1%Q).
Proof.
  intros P [K C].
  assert (Hg : re_search grams_re (txt "2 eggs") = None) by (vm_compute; reflexivity).
  destruct (parse_clause_other _ _ Hg P) as (Hk & Hc).
  assert (F : food_text (txt "2 eggs") = txt "s") by (vm_compute; reflexivity).
  rewrite F in Hk, Hc.
  destruct (find_best_food_token (txt "s")) as [key conf] eqn:E.
  simpl in Hk, Hc. rewrite K in Hk. rewrite C in Hc. subst key conf.
  apply find_best_food_token_exact in E. vm_compute in E. discriminate.
Qed.

(** ** Which unit words the pattern can capture *)

Lemma number_unit_food_re_parts :
  number_unit_food_re =
  Seq (Grp "number" number_re)
      (Seq (Rep isspace) (Seq (Opt (Grp "unit" unit_alts)) after_unit_re)).
Proof. reflexivity. Qed.

Lemma rep_loop_total (p : ascii -> bool) (k : mstate -> option mstate)
  (rest : str) :
  (forall st, k st <> None) ->
  forall prev pos gs, rep_loop p rest prev pos gs k <> None.
Proof.
  intros Hk. induction rest as [|c rest IH]; intros prev pos gs; simpl.
  - apply Hk.
  - destruct (p c); [|apply Hk].
    destruct (rep_loop p rest (Some c) (S pos) gs k) eqn:E; [discriminate|].
    apply Hk.
Qed.

(** After the unit, any character that is not a space, a newline or the
    letter o lets the rest of the pattern succeed. *)
Lemma after_unit_succeeds (c : ascii) (rest : str) (prev : option ascii)
  (pos : nat) (gs : groups) :
  isspace c = false -> isdot c = true ->
  Ascii.eqb (lower_char c) (lower_char "o") = false ->
  rx after_unit_re (MState prev (c :: rest) pos gs) Some <> None.
Proof.
  intros Hs Hd Ho. unfold after_unit_re, Plus, LitI.
  cbn [rx rep_loop m_rest m_prev m_pos m_groups word txt list_ascii_of_string].
  rewrite Hs. unfold LitI.
  cbn [rx rep_loop m_rest m_prev m_pos m_groups]. rewrite Ho.
  cbn [rx rep_loop m_rest m_prev m_pos m_groups]. rewrite Hd.
  apply rep_loop_total. discriminate.
Qed.

Lemma Lang_word_ci (s w : str) : Lang (word true s) w -> lower w = lower s.
Proof.
  revert w. induction s as [|c s IH]; intros w; cbn [word].
  - simpl. now intros ->.
  - destruct s as [|c2 s].
    + unfold LitI. cbn [Lang]. intros (x & -> & Hx).
      apply Ascii.eqb_eq in Hx. simpl. now rewrite Hx.
    + unfold LitI at 1. cbn [Lang]. intros (w1 & w2 & -> & (x & -> & Hx) & H2).
      apply Ascii.eqb_eq in Hx. apply IH in H2.
      unfold lower in *. cbn [app]. rewrite (map_cons _ x), Hx, H2.
      reflexivity.
Qed.

(** A word under [re.I] matches any text equal to it up to case, and then
    hands over to the continuation. *)
Lemma rx_word_ci (s : str) : forall w1 rest1 st k,
  m_rest st = w1 ++ rest1 -> lower w1 = lower s ->
  rx (word true s) st k
  = k (MState (prev_after (m_prev st) w1) rest1
              (m_pos st + List.length w1) (m_groups st)).
Proof.
  induction s as [|c s IH]; intros w1 rest1 st k Hrest Hlow.
  - destruct w1; [|discriminate]. simpl in *. rewrite Nat.add_0_r, <- Hrest.
    now destruct st.
  - destruct w1 as [|x w1]; [discriminate|].
    cbn [lower map] in Hlow. injection Hlow as Hx Hlow.
    cbn [word]. destruct s as [|c2 s].
    + destruct w1; [|discriminate]. unfold LitI. cbn [rx]. rewrite Hrest.
      cbn [app]. rewrite Hx, Ascii.eqb_refl. simpl. now rewrite Nat.add_1_r.
    + unfold LitI at 1. cbn [rx]. rewrite Hrest. cbn [app].
      rewrite Hx, Ascii.eqb_refl.
      rewrite (IH w1 rest1) by (simpl; auto). simpl.
      now rewrite Nat.add_succ_r.
Qed.

Lemma assoc_absent {A : Type} (g : string) (l : list (string * A)) :
  (forall v, ~ In (g, v) l) -> assoc g l = None.
Proof.
  intros H. rewrite <- (app_nil_r l). now rewrite assoc_app_other.
Qed.

(** An alternative of the group [unit] that wins leaves its text, equal to
    the word up to case, in the group. *)
Lemma unit_alt_wins (wi : str) (st2 st : mstate) :
  rx (word true wi) st2 (after_unit_from st2) = Some st ->
  exists w, assoc "unit" (m_groups st) = Some w /\ lower w = lower wi.
Proof.
  intros H. apply rx_sound in H. destruct H as (w & st' & M & H).
  destruct (Matches_consumes _ _ _ _ M) as (R & P & _).
  unfold after_unit_from in H. rewrite P, R in H.
  replace (m_pos st2 + List.length w - m_pos st2) with (List.length w + 0) in H
    by lia.
  rewrite firstn_app_2 in H. simpl firstn in H. rewrite app_nil_r in H.
  apply rx_sound in H. destruct H as (w' & st3 & M3 & H). inv H.
  destruct (Matches_groups _ _ _ _ M3) as (new & E & I).
  exists w. split; [|exact (Lang_word_ci _ _ (Matches_Lang _ _ _ _ M))].
  rewrite E, assoc_app_other.
  - simpl. reflexivity.
  - intros v Hin. apply I in Hin. simpl in Hin.
    destruct Hin as [Hin|[]]. discriminate.
Qed.

(** An alternative cannot win when a shorter one, listed before it, is a
    prefix of it and the next letter can start the food. *)
Lemma unit_alt_shadowed (short : str) (c : ascii) (more : str)
  (st2 st : mstate) :
  (forall x, lower_char x = lower_char c ->
     isspace x = false /\ isdot x = true /\
     Ascii.eqb (lower_char x) (lower_char "o") = false) ->
  rx (word true (short ++ c :: more)) st2 (after_unit_from st2) = Some st ->
  rx (word true short) st2 (after_unit_from st2) <> None.
Proof.
  intros Hc H. apply rx_sound in H. destruct H as (w & st' & M & _).
  destruct (Matches_consumes _ _ _ _ M) as (R & _ & _).
  pose proof (Lang_word_ci _ _ (Matches_Lang _ _ _ _ M)) as L.
  unfold lower in L. rewrite map_app in L.
  apply map_eq_app in L. destruct L as (w1 & w2 & -> & L1 & L2).
  destruct w2 as [|x w2]; [discriminate|].
  cbn [map] in L2. injection L2 as Hx _.
  rewrite <- app_assoc in R. cbn [app] in R.
  rewrite (rx_word_ci short w1 (x :: w2 ++ m_rest st') st2 _ R L1).
  unfold after_unit_from, set_group. cbn [m_rest m_prev m_pos m_groups].
  destruct (Hc x Hx) as (Hs & Hd & Ho).
  now apply after_unit_succeeds.
Qed.

Lemma rx_alts_first (W : string -> regex) (ws : list string) (st : mstate)
  (k : mstate -> option mstate) (m : mstate) :
  ws <> [] ->
  rx (alts (map W ws)) st k = Some m ->
  exists pre w post,
    ws = pre ++ w :: post /\ rx (W w) st k = Some m /\
    forall v, In v pre -> rx (W v) st k = None.
Proof.
  induction ws as [|w ws IH]; intros Hne H; [congruence|].
  destruct ws as [|w2 ws].
  - exists [], w, []. simpl in H. repeat split; auto. intros v [].
  - cbn [map alts rx] in H.
    destruct (rx (W w) st k) as [m0|] eqn:E.
    + inv H. exists [], w, (w2 :: ws). repeat split; auto. intros v [].
    + destruct (IH ltac:(discriminate) H) as (pre & w' & post & D & Hw & Hpre).
      exists (w :: pre), w', post. rewrite D. repeat split; auto.
      intros v [<-|Hv]; auto.
Qed.

Lemma letter_starts_food (c : ascii) :
  c = "r"%char \/ c = "s"%char ->
  forall x, lower_char x = lower_char c ->
            isspace x = false /\ isdot x = true /\
            Ascii.eqb (lower_char x) (lower_char "o") = false.
Proof.
  intros [-> | ->] x;
    destruct x as [[|] [|] [|] [|] [|] [|] [|] [|]];
    vm_compute; intros H; try discriminate H; repeat split.
Qed.

Lemma rx_number_unit_food (st0 s : mstate) :
  m_groups st0 = [] ->
  rx number_unit_food_re st0 Some = Some s ->
  exists st2,
    (forall v, ~ In ("unit"%string, v) (m_groups st2)) /\
    (rx unit_alts st2 (after_unit_from st2) = Some s \/
     rx after_unit_re st2 Some = Some s).
Proof.
  intros G0 H. rewrite number_unit_food_re_parts in H.
  change (rx (Grp "number" number_re) st0
            (fun st1 => rx (Rep isspace) st1
               (fun st2 =>
                  match rx unit_alts st2 (after_unit_from st2) with
                  | Some m => Some m
                  | None => rx after_unit_re st2 Some
                  end)) = Some s) in H.
  apply rx_sound in H. destruct H as (w1 & st1 & M1 & H).
  apply rx_sound in H. destruct H as (w2 & st2 & M2 & H).
  exists st2. split.
  - destruct (Matches_groups _ _ _ _ M1) as (n1 & E1 & I1).
    destruct (Matches_groups _ _ _ _ M2) as (n2 & E2 & I2).
    intros v Hin. rewrite E2, E1, G0, app_nil_r in Hin.
    apply in_app_or in Hin. destruct Hin as [Hin|Hin].
    + apply I2 in Hin. destruct Hin.
    + apply I1 in Hin. vm_compute in Hin.
      destruct Hin as [Hin|[]]. discriminate.
  - destruct (rx unit_alts st2 (after_unit_from st2)) as [m0|]; auto.
Qed.

Ltac shadowed_by short c more :=
  match goal with
  | Hwin : rx (word true _) ?st (after_unit_from ?st) = Some _,
    Hpre : forall v, In v _ -> rx (word true (txt v)) ?st _ = None |- _ =>
      exfalso;
      apply (unit_alt_shadowed (txt short) c (txt more) _ _
               (letter_starts_food c ltac:(auto)) Hwin);
      apply Hpre; in_list
  end.

(** X1. For a clause written with characters below U+0100, the group
    [unit] never holds one of the longer unit words: each of grams, gram,
    cups, slices, servings, pieces and eggs is listed after a shorter word
    that starts it, and the shorter word wins, leaving the remaining letters
    to the food.  So the unit, lower-cased, is one of g, kg, cup, tbsp,
    tablespoon, tsp, teaspoon, slice, serving, piece, egg, and among these
    only teaspoon has no entry in [UNIT_TO_G].  (Above U+00FF, [re.I] also
    lets the letters s, k and i of the pattern match U+017F, U+212A, U+0130
    and U+0131, so that the group can hold other spellings of these words;
    such clauses lie outside [str] and outside this statement.) *)
Theorem unit_group_is_a_short_word (p : str) (m : Match) (u : str) :
  re_match number_unit_food_re p = Some m ->
  group m "unit" = Some u ->
  In (lower u) live_units /\
  (lookup (lower u) UNIT_TO_G = None <-> lower u = txt "teaspoon").
Proof.
  unfold re_match, match_at, group. intros H Hu.
  destruct (rx number_unit_food_re (MState None p 0 []) Some) as [s|] eqn:E;
    [|discriminate].
  inv H. cbn [m_named] in Hu.
  apply rx_number_unit_food in E; [|reflexivity].
  destruct E as (st2 & Hno & [E|E]).
  2: { apply rx_sound in E. destruct E as (w & st3 & M & E).
       injection E as E. subst st3.
       destruct (Matches_groups _ _ _ _ M) as (new & E & I).
       assert (N : assoc "unit" (m_groups s) = None).
       { rewrite E, assoc_app_other; [now apply assoc_absent|].
         intros v Hin. apply I in Hin. vm_compute in Hin.
         destruct Hin as [Hin|[]]. discriminate. }
       congruence. }
  unfold unit_alts in E.
  apply rx_alts_first in E; [|discriminate].
  destruct E as (pre & w & post & D & Hwin & Hpre).
  assert (Live : forall wi, rx (word true (txt wi)) st2 (after_unit_from st2)
                            = Some s ->
                            lower (txt wi) = txt wi ->
                            In (txt wi) live_units ->
                            (lookup (txt wi) UNIT_TO_G = None <->
                             txt wi = txt "teaspoon") ->
                            In (lower u) live_units /\
                            (lookup (lower u) UNIT_TO_G = None <->
                             lower u = txt "teaspoon")).
  { intros wi Hw Hlow Hin Hlook. apply unit_alt_wins in Hw.
    destruct Hw as (w' & Hw' & Hl). rewrite Hu in Hw'. inv Hw'.
    rewrite Hl, Hlow. auto. }
  unfold unit_words in D.
  repeat (destruct pre as [|v pre];
          [ cbn [app] in D; inv D;
            first [ solve [shadowed_by "g"%string "r"%char "ams"%string]
                  | solve [shadowed_by "g"%string "r"%char "am"%string]
                  | solve [shadowed_by "cup"%string "s"%char ""%string]
                  | solve [shadowed_by "slice"%string "s"%char ""%string]
                  | solve [shadowed_by "serving"%string "s"%char ""%string]
                  | solve [shadowed_by "piece"%string "s"%char ""%string]
                  | solve [shadowed_by "egg"%string "s"%char ""%string]
                  | solve [apply (Live _ Hwin);
                           [ vm_compute; reflexivity
                           | in_list
                           | split; vm_compute; congruence ]] ]
          | cbn [app] in D; injection D as ? D; subst v ]).
  destruct pre; discriminate D.
Qed.

(** ** When the parser raises *)






(** ** Items and the food table *)

Lemma in_keys_lookup (k : str) :
  In k FOOD_KEYS -> exists e, lookup k FOOD_DB = Some e.
Proof.
  unfold FOOD_KEYS. induction FOOD_DB as [|[k' v] d IH]; simpl; [intros []|].
  destruct (str_eqb k k') eqn:E; [eauto|].
  intros [H|H]; [|now apply IH].
  subst k'. rewrite str_eqb_refl in E. discriminate.
Qed.

Lemma matched_in_table (token : str) (k : str) (c : Q) :
  find_best_food_token token = (Some k, c) ->
  c <> 0%Q /\ exists e, lookup k FOOD_DB = Some e.
Proof.
  intros H. split.
  - intros ->. apply find_best_food_token_conf0 in H. discriminate.
  - apply in_keys_lookup. exact (find_best_food_token_in _ _ _ H).
Qed.

(** X4. For every parsed item, the key names an entry of the food table
    exactly when the confidence is not 0: an item found in the table always
    comes with confidence 0.7, 0.8 or 1, and an item with one of these
    confidences always has a key of the table, spelled as in the table. *)
Theorem key_in_table_iff_confident (p : str) (it : ParsedItem) :
  parse_clause p = Ok it ->
  (db_get (food_key it) = None <-> confidence it = 0%Q) /\
  (confidence it <> 0%Q ->
   exists k, food_key it = Some k /\ In k FOOD_KEYS /\
             In (confidence it) [7 # 10; 8 # 10; 1]%Q).
Proof.
  intros P.
  assert (Found : confidence it <> 0%Q ->
                  exists k e, food_key it = Some k /\ In k FOOD_KEYS /\
                              lookup k FOOD_DB = Some e).
  { intros NZ. destruct (re_search grams_re p) as [gm|] eqn:Hg.
    - destruct (parse_clause_grams _ _ _ Hg P) as (_ & Hc & Hk).
      cbv zeta in Hc, Hk.
      destruct (find_best_food_token (strip (re_sub_empty grams_re p)))
        as [[k|] c] eqn:E; cbn [fst snd] in Hc, Hk.
      + destruct (matched_in_table _ _ _ E) as (_ & e & L).
        exists k, e. repeat split; auto.
        exact (find_best_food_token_in _ _ _ E).
      + apply find_best_food_token_none in E. destruct E as [-> _].
        contradiction.
    - destruct (parse_clause_other _ _ Hg P) as (Hk & Hc).
      destruct (find_best_food_token (food_text p)) as [[k|] c] eqn:E;
        cbn [fst snd] in Hc, Hk.
      + destruct (matched_in_table _ _ _ E) as (_ & e & L).
        exists k, e. repeat split; auto.
        exact (find_best_food_token_in _ _ _ E).
      + apply find_best_food_token_none in E. destruct E as [-> _].
        contradiction. }
  split; [split|].
  - intros D. destruct (confidence it) as [n d] eqn:C.
    destruct (Qeq_dec (n # d) 0) as [Z|NZ].
    + pose proof (parse_clause_conf _ _ P) as V. rewrite C in V. simpl in V.
      destruct V as [V|[V|[V|[V|[]]]]]; rewrite <- V in *;
        try reflexivity; discriminate Z.
    + exfalso. destruct Found as (k & e & Hk & _ & L).
      { intros Z. apply NZ. now rewrite Z. }
      rewrite Hk in D. simpl in D. congruence.
  - now apply zero_confidence_unmatched with (p := p).
  - intros NZ. destruct (Found NZ) as (k & e & Hk & Hin & _).
    exists k. repeat split; auto.
    pose proof (parse_clause_conf _ _ P) as V. simpl in V.
    destruct V as [V|[V|[V|[V|[]]]]]; rewrite <- V in *; in_list.
    contradiction.
Qed.

(** ** Signs *)

Lemma round_half_even_nonneg (x : Q) : (0 <= x)%Q -> (0 <= round_half_even x)%Z.
Proof.
  intros H. unfold round_half_even.
  pose proof (Qfloor_resp_le _ _ H) as F. change (Qfloor 0) with 0%Z in F.
  destruct (x - inject_Z (Qfloor x) ?= 1 # 2)%Q; [destruct (Z.even _)| |]; lia.
Qed.

Lemma round_nonneg (x : Q) (d : nat) : (0 <= x)%Q -> (0 <= round x d)%Q.
Proof.
  intros H. unfold round. destruct d as [|d]; rewrite Qred_correct.
  - pose proof (round_half_even_nonneg x H) as R.
    revert R. generalize (round_half_even x). intros z R.
    unfold Qle. cbn [Qnum Qden inject_Z]. lia.
  - assert (H' : (0 <= x * inject_Z (Z.pos (10 ^ Pos.of_nat (S d))))%Q).
    { apply Qmult_le_0_compat; [exact H|]. discriminate. }
    pose proof (round_half_even_nonneg _ H') as R.
    revert R. generalize (round_half_even
                            (x * inject_Z (Z.pos (10 ^ Pos.of_nat (S d))))).
    intros z R. unfold Qle. cbn [Qnum Qden]. lia.
Qed.

Lemma fold_plus_nonneg (l : list Q) : forall acc,
  (0 <= acc)%Q -> Forall (fun x => (0 <= x)%Q) l ->
  (0 <= fold_left Qplus l acc)%Q.
Proof.
  induction l as [|x l IH]; intros acc Hacc Hl; [exact Hacc|].
  inv Hl. cbn [fold_left]. apply IH; [|assumption].
  rewrite <- (Qplus_0_r 0). now apply Qplus_le_compat.
Qed.

Lemma py_sum_nonneg (l : list Q) :
  Forall (fun x => (0 <= x)%Q) l -> (0 <= py_sum l)%Q.
Proof. apply fold_plus_nonneg, Qle_refl. Qed.

Lemma parse_clause_grams_nonneg (p : str) (it : ParsedItem) :
  servings_positive -> parse_clause p = Ok it -> (0 <= grams it)%Q.
Proof.
  intros SP P. destruct (re_search grams_re p) as [gm|] eqn:Hg.
  - destruct (parse_clause_grams _ _ _ Hg P) as (G & _).
    unfold float_group in G. destruct (group gm "grams"); [|discriminate].
    exact (float_nonneg _ _ G).
  - apply Qlt_le_weak. exact (parse_clause_positive _ _ SP Hg P).
Qed.

Lemma calc_nutrition_nonneg (key : option str) (g : Q) (n : nutrient) :
  amounts_nonnegative -> (0 <= g)%Q ->
  (0 <= calc_nutrition_for_item key g n)%Q.
Proof.
  intros AN Hg. unfold calc_nutrition_for_item.
  destruct (db_get key) as [e|] eqn:D; [|apply Qle_refl].
  destruct (db_get_some _ _ D) as (k & _ & L).
  apply Qmult_le_0_compat.
  - unfold Qdiv. apply Qmult_le_0_compat; [exact Hg|]. discriminate.
  - destruct (per100 e n) as [v|] eqn:V; simpl; [|apply Qle_refl].
    exact (AN _ _ _ _ L V).
Qed.

(** ** Sizes: how large a weight can be *)

Lemma digit_val_le (c : ascii) : isdigit c = true -> (digit_val c <= 9)%Z.
Proof.
  unfold isdigit, in_range, digit_val. intros H.
  apply andb_prop in H. destruct H as [_ H]. apply N.leb_le in H. lia.
Qed.

Lemma fold_digits_lt (s : str) : forall z,
  forallb isdigit s = true ->
  (fold_left (fun acc c => acc * 10 + digit_val c)%Z s z
   < (z + 1) * 10 ^ Z.of_nat (List.length s))%Z.
Proof.
  induction s as [|c s IH]; intros z H.
  - simpl. lia.
  - cbn [forallb] in H. apply andb_prop in H. destruct H as [Hc Hs].
    cbn [fold_left List.length].
    specialize (IH (z * 10 + digit_val c)%Z Hs).
    pose proof (digit_val_le _ Hc) as D.
    rewrite Nat2Z.inj_succ, Z.pow_succ_r by lia.
    assert (P : (0 < 10 ^ Z.of_nat (List.length s))%Z)
      by (apply Z.pow_pos_nonneg; lia).
    nia.
Qed.

(** A literal of [n] digits is below [10^n]. *)
Lemma digits_val_lt (s : str) :
  all_digits s = true -> (digits_val s < 10 ^ Z.of_nat (List.length s))%Z.
Proof.
  intros H. apply andb_prop in H. destruct H as [_ H].
  pose proof (fold_digits_lt s 0 H) as L. unfold digits_val. lia.
Qed.

Lemma split_dot_length (s : str) :
  List.length (fst (split_dot s)) <= List.length s.
Proof.
  induction s as [|c s IH]; simpl; [lia|].
  destruct (code c =? 46)%N; simpl; [lia|].
  destruct (split_dot s) as [a b]. simpl in *. lia.
Qed.

Lemma pow10_pos_nat (n : nat) :
  n <> 0 -> Z.pos (10 ^ Pos.of_nat n) = (10 ^ Z.of_nat n)%Z.
Proof.
  intros H. rewrite Pos2Z.inj_pow. f_equal.
  rewrite <- positive_nat_Z, Nat2Pos.id by exact H. reflexivity.
Qed.

(** A number read by [float] from [n] characters is below [10^n]. *)
Lemma float_lt (s : str) (q : Q) :
  float s = Ok q -> (q < inject_Z (10 ^ Z.of_nat (List.length s)))%Q.
Proof.
  unfold float. pose proof (split_dot_length s) as L.
  destruct (split_dot s) as [ip [fp|]]; cbn [fst] in L.
  - destruct (all_digits ip) eqn:Hip; [|discriminate].
    destruct (all_digits fp) eqn:Hfp; [|discriminate]. cbn [andb].
    intros H. inv H.
    pose proof (digits_val_lt _ Hip) as Li.
    pose proof (digits_val_lt _ Hfp) as Lf.
    assert (Nf : List.length fp <> 0).
    { destruct fp; [cbv in Hfp; discriminate Hfp | discriminate]. }
    rewrite <- (pow10_pos_nat _ Nf) in Lf.
    assert (M : (10 ^ Z.of_nat (List.length ip)
                 <= 10 ^ Z.of_nat (List.length s))%Z)
      by (apply Z.pow_le_mono_r; lia).
    revert M Li Lf.
    generalize (10 ^ Pos.of_nat (List.length fp))%positive
               (10 ^ Z.of_nat (List.length ip))%Z
               (10 ^ Z.of_nat (List.length s))%Z
               (digits_val ip) (digits_val fp).
    intros P A B a b M Li Lf.
    unfold Qlt, Qplus. cbn [Qnum Qden inject_Z]. nia.
  - destruct (all_digits ip) eqn:Hip; [|discriminate].
    intros H. inv H. pose proof (digits_val_lt _ Hip) as Li.
    rewrite <- Zlt_Qlt.
    assert (M : (10 ^ Z.of_nat (List.length ip)
                 <= 10 ^ Z.of_nat (List.length s))%Z)
      by (apply Z.pow_le_mono_r; lia).
    lia.
Qed.

Lemma search_from_within (r : regex) (rest : str) :
  forall prev pos m,
    search_from r prev rest pos = Some m ->
    exists prev' rest' pos',
      match_at r prev' rest' pos' = Some m /\
      List.length rest' <= List.length rest.
Proof.
  induction rest as [|c rest IH]; simpl; intros prev pos m H.
  - destruct (match_at r prev [] pos) eqn:E; [|discriminate]. inv H.
    exists prev, [], pos. auto.
  - destruct (match_at r prev (c :: rest) pos) eqn:E.
    + inv H. exists prev, (c :: rest), pos. auto.
    + destruct (IH _ _ _ H) as (p' & r' & q' & M & L).
      exists p', r', q'. split; [exact M|]. simpl. lia.
Qed.

(** The leading group of a pattern holds a piece of the text matched. *)
Lemma leading_group_within (g : string) (r1 r2 : regex) (st : mstate)
  (w : str) (st' : mstate) :
  Matches (Seq (Grp g r1) r2) st w st' ->
  ~ In g (group_names r2) ->
  exists w1, assoc g (m_groups st') = Some w1 /\
             List.length w1 <= List.length (m_rest st).
Proof.
  intros M Hg. inv M.
  match goal with H : Matches (Grp _ _) _ _ _ |- _ =>
    destruct (Matches_consumes _ _ _ _ H) as (R & _ & _); inv H end.
  match goal with H : Matches r2 _ _ _ |- _ =>
    destruct (Matches_groups _ _ _ _ H) as (new & E & I) end.
  match goal with H : Matches r1 _ ?w1 _ |- _ => exists w1 end.
  split.
  - rewrite E, assoc_app_other; [simpl; now rewrite String.eqb_refl|].
    intros v Hin. apply Hg. eauto.
  - rewrite R, length_app. lia.
Qed.

Lemma grams_group_short (gm : Match) (p : str) :
  re_search grams_re p = Some gm ->
  exists w, group gm "grams" = Some w /\ List.length w <= List.length p.
Proof.
  unfold re_search. intros H.
  apply search_from_within in H. destruct H as (prev & rest & pos & H & L).
  apply match_at_sound in H. destruct H as (w & st' & M & ->).
  apply leading_group_within in M; [|simpl; intros F; exact F].
  destruct M as (w1 & E & L1). exists w1. split; [exact E|].
  cbn [m_rest] in L1. lia.
Qed.

Lemma number_group_short (m : Match) (p : str) :
  re_match number_unit_food_re p = Some m ->
  exists w, group m "number" = Some w /\ List.length w <= List.length p.
Proof.
  unfold re_match. intros H.
  apply match_at_sound in H. destruct H as (w & st' & M & ->).
  apply leading_group_within in M.
  - destruct M as (w1 & E & L1). exists w1. split; [exact E | exact L1].
  - vm_compute. intros [H|[H|[]]]; discriminate.
Qed.

Lemma unit_le (unit : str) (u : Q) :
  lookup unit UNIT_TO_G = Some u -> (u <= 1000)%Q.
Proof.
  unfold UNIT_TO_G. cbn [lookup].
  repeat (destruct (str_eqb unit _); [intros H; inv H; discriminate|]).
  discriminate.
Qed.

Lemma serving_or_100_le (key : option str) :
  servings_bounded -> (serving_or_100 key <= 1000)%Q.
Proof.
  intros SB. unfold serving_or_100.
  destruct (db_get key) as [e|] eqn:D; [|discriminate].
  destruct (db_get_some _ _ D) as (k & _ & L).
  destruct (serving_g e) as [v|] eqn:S; [|discriminate].
  simpl. exact (SB _ _ _ L S).
Qed.

Lemma pow10_ge_1 (n : nat) : (1 <= inject_Z (10 ^ Z.of_nat n))%Q.
Proof.
  change 1%Q with (inject_Z 1). rewrite <- Zle_Qle.
  pose proof (Z.pow_pos_nonneg 10 (Z.of_nat n)). lia.
Qed.

Lemma below_limit (T v : Q) : (1 <= T)%Q -> (v <= 1000)%Q -> (v <= T * 1000)%Q.
Proof.
  intros HT Hv. apply Qle_trans with (1 * 1000)%Q; [exact Hv|].
  apply Qmult_le_compat_r; [exact HT | discriminate].
Qed.

Lemma scaled_below_limit (T q u : Q) :
  (0 <= q)%Q -> (q <= T)%Q -> (0 <= u)%Q -> (u <= 1000)%Q ->
  (q * u <= T * 1000)%Q.
Proof.
  intros H1 H2 H3 H4. apply Qmult_le_compat_nonneg; split; assumption.
Qed.

(** The weight of a clause of [n] characters is at most [1000 * 10^n]: the
    number written has fewer than [n] digits and is multiplied by a unit or
    a serving of at most a kilogram. *)
Lemma parse_clause_grams_le (p : str) (it : ParsedItem) :
  servings_positive -> servings_bounded -> parse_clause p = Ok it ->
  (grams it <= inject_Z (10 ^ Z.of_nat (List.length p)) * 1000)%Q.
Proof.
  intros SP SB P.
  set (T := inject_Z (10 ^ Z.of_nat (List.length p))).
  assert (HT : (1 <= T)%Q) by apply pow10_ge_1.
  assert (Short : forall s q, List.length s <= List.length p ->
                              float s = Ok q -> (0 <= q)%Q /\ (q <= T)%Q).
  { intros s q L F. split; [exact (float_nonneg _ _ F)|].
    apply Qlt_le_weak.
    apply Qlt_le_trans with (inject_Z (10 ^ Z.of_nat (List.length s))).
    - exact (float_lt _ _ F).
    - unfold T. rewrite <- Zle_Qle. apply Z.pow_le_mono_r; lia. }
  destruct (re_search grams_re p) as [gm|] eqn:Hg.
  - destruct (parse_clause_grams _ _ _ Hg P) as (G & _).
    destruct (grams_group_short _ _ Hg) as (w & Hw & L).
    unfold float_group in G. rewrite Hw in G.
    destruct (Short _ _ L G) as [G0 GT].
    apply Qle_trans with (grams it * 1)%Q;
      [rewrite Qmult_1_r; apply Qle_refl|].
    apply scaled_below_limit; auto; discriminate.
  - destruct (re_match number_unit_food_re p) as [m|] eqn:Hm.
    + destruct (parse_clause_quantity _ _ _ Hg Hm P) as (s & q & Hs & Hq & E).
      destruct (number_group_short _ _ Hm) as (w & Hw & L).
      rewrite Hs in Hw. inv Hw.
      destruct (Short _ _ L Hq) as [Q0 QT].
      cbv zeta in E. rewrite E. clear E.
      destruct (truthy q); cbn [andb].
      * destruct (is_empty (lower (get (group m "unit") []))); cbn [negb].
        -- destruct (db_get (food_key it)) as [e|] eqn:D.
           ++ pose proof (serving_or_100_positive (food_key it) SP) as S1.
              pose proof (serving_or_100_le (food_key it) SB) as S2.
              unfold serving_or_100 in S1, S2. rewrite D in S1, S2.
              apply scaled_below_limit; auto. now apply Qlt_le_weak.
           ++ apply scaled_below_limit; auto; discriminate.
        -- destruct (lookup _ UNIT_TO_G) as [u|] eqn:U.
           ++ apply scaled_below_limit; auto.
              ** apply Qlt_le_weak, (unit_positive _ _ U).
              ** exact (unit_le _ _ U).
           ++ apply scaled_below_limit; auto; discriminate.
      * apply below_limit; [exact HT | now apply serving_or_100_le].
    + pose proof (parse_clause_bare _ _ Hg Hm P) as B.
      apply below_limit; [exact HT|].
      destruct (db_get (food_key it)) as [e|] eqn:D.
      * destruct (db_get_some _ _ D) as (k & _ & L). exact (SB _ _ _ L B).
      * rewrite B. discriminate.
Qed.

Lemma lstrip_length (s : str) : List.length (lstrip s) <= List.length s.
Proof.
  destruct (lstrip_suffix s) as [pre E].
  apply (f_equal (@List.length ascii)) in E. rewrite length_app in E. lia.
Qed.

Lemma strip_length (s : str) : List.length (strip s) <= List.length s.
Proof.
  unfold strip. rewrite length_rev.
  pose proof (lstrip_length (rev (lstrip s))) as L1.
  pose proof (lstrip_length s) as L2. rewrite length_rev in L1. lia.
Qed.

(** No clause is longer than the text it is cut from. *)
Lemma clauses_short (ci : bool) (n : nat) : forall s prev,
  List.length s <= n ->
  Forall (fun c => List.length c <= List.length s) (clauses ci prev s).
Proof.
  induction n as [|n IH]; intros s prev L.
  - destruct s; [|simpl in L; lia]. repeat constructor.
  - destruct s as [|c s1]; [repeat constructor|].
    cbn [clauses]. simpl in L.
    destruct (Ascii.eqb "," c).
    + constructor; [simpl; lia|].
      eapply Forall_impl; [|apply (IH s1 (Some c)); lia].
      intros x Hx. cbn beta in *. simpl. lia.
    + destruct (and_here ci prev (c :: s1)).
      * destruct s1 as [|x [|d s3]];
          try (constructor; [simpl; lia | constructor]).
        constructor; [simpl; lia|].
        eapply Forall_impl; [|apply (IH s3 (Some d)); simpl in L; lia].
        intros y Hy. cbn beta in *. simpl. lia.
      * specialize (IH s1 (Some c) ltac:(lia)).
        destruct (clauses ci (Some c) s1) as [|x l]; cbn [push].
        -- constructor; [simpl; lia | constructor].
        -- inv IH. constructor; [simpl; lia|].
           eapply Forall_impl; [|eassumption].
           intros y Hy. cbn beta in *. simpl. lia.
Qed.

Lemma parsed_clause_short (text : str) (items : list ParsedItem)
  (it : ParsedItem) :
  parse_meal_text text = Ok items -> In it items ->
  parse_clause (raw it) = Ok it /\ List.length (raw it) <= List.length text.
Proof.
  intros H Hin. apply parse_meal_text_items in H. destruct H as [Hraw Hall].
  rewrite Forall_forall in Hall. split; [exact (Hall _ Hin)|].
  apply (in_map raw) in Hin. rewrite Hraw, re_split_clauses in Hin.
  apply filter_In in Hin. destruct Hin as [Hin _].
  apply in_map_iff in Hin. destruct Hin as (c & <- & Hc).
  pose proof (clauses_short false (List.length text) text None (le_n _)) as F.
  rewrite Forall_forall in F. specialize (F _ Hc). cbv beta in F.
  pose proof (strip_length c). lia.
Qed.

Lemma Qminus_nonpos (x : Q) (M : Z) :
  (x <= inject_Z M)%Q -> (x - inject_Z M <= 0)%Q.
Proof.
  destruct x as [a b]. unfold Qle, Qminus, Qplus, Qopp, inject_Z.
  cbn [Qnum Qden]. nia.
Qed.

Lemma round_half_even_le (x : Q) (M : Z) :
  (x <= inject_Z M)%Q -> (round_half_even x <= M)%Z.
Proof.
  intros H. unfold round_half_even.
  pose proof (Qfloor_resp_le _ _ H) as F. rewrite Qfloor_Z in F.
  destruct (Z.eq_dec (Qfloor x) M) as [E|NE].
  - assert (C : ((x - inject_Z (Qfloor x)) ?= (1 # 2))%Q = Lt).
    { apply Qlt_alt. rewrite E.
      apply Qle_lt_trans with 0%Q; [now apply Qminus_nonpos | reflexivity]. }
    rewrite C. lia.
  - destruct (x - inject_Z (Qfloor x) ?= 1 # 2)%Q; [destruct (Z.even _)| |];
      lia.
Qed.

(** Rounding does not pass a whole number. *)
Lemma round_le (x : Q) (d : nat) (M : Z) :
  (x <= inject_Z M)%Q -> (round x d <= inject_Z M)%Q.
Proof.
  intros H. unfold round. destruct d as [|d]; rewrite Qred_correct.
  - rewrite <- Zle_Qle. now apply round_half_even_le.
  - set (k := (10 ^ Pos.of_nat (S d))%positive).
    assert (H' : (x * inject_Z (Z.pos k) <= inject_Z (M * Z.pos k))%Q).
    { rewrite inject_Z_mult. apply Qmult_le_compat_r; [exact H | discriminate]. }
    pose proof (round_half_even_le _ _ H') as R.
    revert R. generalize (round_half_even (x * inject_Z (Z.pos k))).
    intros z R. unfold Qle. cbn [Qnum Qden inject_Z]. lia.
Qed.

(** X5. For a text of at most 300 characters and a table whose amounts are
    not negative and whose serving sizes are positive and at most a
    kilogram, every weight lies between 0 and [10^303], inside the range of
    a floating-point number, and nothing in the result is negative: neither
    the weight of an item, nor any of its amounts, nor any total.  (A longer
    text can hold a number that a float reads as infinity; the amounts and
    totals computed from it with a table amount of 0 are then not
    numbers, which lies outside this statement.) *)
Theorem result_nonnegative (text : str) (r : AnalysisResult) :
  amounts_nonnegative -> servings_positive -> servings_bounded ->
  List.length text <= 300 ->
  analyze_meal_text text = Ok r ->
  forall n,
    (0 <= totals r n)%Q /\
    forall e, In e (parsed_items r) ->
              (0 <= e_grams e)%Q /\ (e_grams e <= inject_Z (10 ^ 303))%Q /\
              (0 <= e_nutrition e n)%Q.
Proof.
  intros AN SP SB Len H n. apply analyze_meal_text_inv in H.
  destruct H as (items & fs & Hp & Hitems & Htot & _).
  assert (G : forall it, In it items ->
                         (0 <= grams it)%Q /\
                         (grams it <= inject_Z (10 ^ 303))%Q).
  { intros it Hin.
    destruct (parsed_clause_short _ _ _ Hp Hin) as [P L].
    split; [exact (parse_clause_grams_nonneg _ _ SP P)|].
    apply Qle_trans with (inject_Z (10 ^ Z.of_nat (List.length (raw it))) * 1000)%Q;
      [exact (parse_clause_grams_le _ _ SP SB P)|].
    change 1000%Q with (inject_Z 1000).
    rewrite <- inject_Z_mult, <- Zle_Qle.
    assert (M : (10 ^ Z.of_nat (List.length (raw it)) <= 10 ^ 300)%Z)
      by (apply Z.pow_le_mono_r; lia).
    assert (E : (10 ^ 303 = 10 ^ 300 * 1000)%Z) by (vm_compute; reflexivity).
    rewrite E. lia. }
  split.
  - rewrite Htot, sum_totals_at. apply round_nonneg, py_sum_nonneg.
    rewrite map_map. apply Forall_forall. intros x Hx.
    apply in_map_iff in Hx. destruct Hx as (it & <- & Hin).
    apply calc_nutrition_nonneg; [exact AN | apply G, Hin].
  - intros e Hin. rewrite Hitems in Hin. apply in_map_iff in Hin.
    destruct Hin as (it & <- & Hin). cbn [entry_of e_grams e_nutrition].
    destruct (G it Hin) as [G0 G1].
    split; [now apply round_nonneg|].
    split; [now apply round_le|].
    apply round_nonneg, calc_nutrition_nonneg; assumption.
Qed.

(** ** The shape of the flags and of the suggestions *)

Lemma turn_flags_cases (tot : amounts) (n : nutrient) :
  (turn_flags tot n = [] /\ turn_level tot n = None) \/
  (exists lv r, turn_level tot n = Some lv /\ rdi n = Some r /\
                turn_flags tot n = [MkFlag lv n (round (percent tot n r) 1)]).
Proof.
  unfold turn_flags, turn_level. destruct (rdi n) as [r|]; [|now left].
  destruct (truthy r); [|now left].
  destruct (Qltb (percent tot n r) 80); [right; eauto|].
  destruct (Qltb 120 (percent tot n r)); [right; eauto | now left].
Qed.

Lemma flagged_nutrients (tot : amounts) (ns : list nutrient) :
  map f_nutrient (flat_map (turn_flags tot) ns)
  = filter (fun n => match turn_level tot n with
                     | Some _ => true
                     | None => false
                     end) ns.
Proof.
  induction ns as [|n ns IH]; [reflexivity|].
  cbn [flat_map filter]. rewrite map_app, IH.
  destruct (turn_flags_cases tot n) as [[-> ->] | (lv & r & -> & _ & ->)];
    reflexivity.
Qed.

(** X6. The flags come in the order of the nutrients (calories, protein,
    carbs, fat, fiber, vitamin_c), with at most one flag for a nutrient, so
    never more than six. *)
Theorem flags_in_nutrient_order (text : str) (r : AnalysisResult) :
  analyze_meal_text text = Ok r ->
  (exists keep, map f_nutrient (flags r) = filter keep NUTRIENTS) /\
  NoDup (map f_nutrient (flags r)) /\
  List.length (flags r) <= 6.
Proof.
  intros H. destruct (flags_of_result _ _ H) as [E _].
  rewrite E, flagged_nutrients.
  split; [eauto|]. split.
  - apply NoDup_filter. unfold NUTRIENTS.
    repeat (constructor; [simpl; intros N; repeat destruct N as [N|N];
                          try discriminate N; exact N|]).
    constructor.
  - rewrite <- (length_map f_nutrient), flagged_nutrients.
    apply (filter_length_le _ NUTRIENTS).
Qed.

Lemma existsb_eqb_in (s : string) (seen : list string) :
  existsb (String.eqb s) seen = true <-> In s seen.
Proof.
  rewrite existsb_exists. split.
  - intros (x & Hx & E). apply String.eqb_eq in E. now subst.
  - intros H. exists s. split; [exact H | apply String.eqb_refl].
Qed.

Lemma dedup_in_iff (l : list string) : forall seen s,
  In s (dedup seen l) <-> In s l /\ ~ In s seen.
Proof.
  induction l as [|x l IH]; intros seen s; cbn [dedup].
  - simpl. split; [intros [] | intros [[] _]].
  - destruct (existsb (String.eqb x) seen) eqn:E.
    + apply existsb_eqb_in in E. rewrite IH. simpl. split.
      * intros [H1 H2]. auto.
      * intros [[->|H1] H2]; [contradiction | auto].
    + assert (N : ~ In x seen).
      { intros H. apply existsb_eqb_in in H. congruence. }
      simpl. rewrite IH. simpl. split.
      * intros [<-|[H1 H2]]; auto.
      * intros [[->|H1] H2]; [now left|].
        destruct (string_dec x s) as [->|D]; [now left|].
        right. split; [exact H1|]. intros [F|F]; auto.
Qed.

Lemma dedup_nodup (l : list string) : forall seen, NoDup (dedup seen l).
Proof.
  induction l as [|x l IH]; intros seen; cbn [dedup]; [constructor|].
  destruct (existsb (String.eqb x) seen); [apply IH|].
  constructor; [|apply IH].
  intros H. apply dedup_in_iff in H. destruct H as [_ H]. apply H. now left.
Qed.

(** X7. No suggestion is repeated, and the suggestions are exactly those
    that go with the flags: a text is suggested if and only if some flag of
    the result calls for it. *)
Theorem suggestions_follow_flags (text : str) (r : AnalysisResult) :
  analyze_meal_text text = Ok r ->
  NoDup (suggestions r) /\
  forall s, In s (suggestions r) <->
            exists f, In f (flags r) /\ In s (flag_suggestions f).
Proof.
  intros H. destruct (flags_of_result _ _ H) as [Ef Es].
  rewrite Es, Ef. split; [apply dedup_nodup|].
  intros s. rewrite dedup_in_iff, in_flat_map. split.
  - intros [(n & _ & Hs) _]. unfold turn_suggestions in Hs.
    destruct (turn_flags_cases (totals r) n)
      as [[_ L] | (lv & t & L & _ & F)]; rewrite L in Hs; [destruct Hs|].
    exists (MkFlag lv n (round (percent (totals r) n t) 1)). split.
    + apply in_flat_map. exists n. split; [apply all_nutrients|].
      rewrite F. now left.
    + unfold flag_suggestions. cbn [f_level f_nutrient]. now destruct lv.
  - intros (f & Hf & Hs). split; [|intros []].
    apply in_flat_map in Hf. destruct Hf as (n & _ & Hf).
    apply in_turn_flags in Hf. destruct Hf as (lv & t & L & _ & ->).
    exists n. split; [apply all_nutrients|].
    unfold turn_suggestions. rewrite L.
    unfold flag_suggestions in Hs. cbn [f_level f_nutrient] in Hs.
    now destruct lv.
Qed.

(** ** A text without clauses *)

Lemma round_half_even_compat (x y : Q) :
  (x == y)%Q -> round_half_even x = round_half_even y.
Proof.
  intros E. unfold round_half_even.
  assert (F : Qfloor x = Qfloor y) by now apply Qfloor_comp.
  assert (C : (x - inject_Z (Qfloor x) ?= 1 # 2)%Q
              = (y - inject_Z (Qfloor y) ?= 1 # 2)%Q).
  { rewrite F. apply Qcompare_comp; [|reflexivity]. now rewrite E. }
  now rewrite C, F.
Qed.

(** Equal numbers round to the same fraction. *)
Lemma round_compat (x y : Q) (d : nat) : (x == y)%Q -> round x d = round y d.
Proof.
  intros E. unfold round. destruct d as [|d].
  - now rewrite (round_half_even_compat x y E).
  - rewrite (round_half_even_compat
               (x * inject_Z (Z.pos (10 ^ Pos.of_nat (S d))))
               (y * inject_Z (Z.pos (10 ^ Pos.of_nat (S d))))); [reflexivity|].
    now rewrite E.
Qed.

Lemma parse_parts_blank (parts : list str) : forall items,
  filter nonblank (map strip parts) = [] -> parse_parts parts items = Ok items.
Proof.
  induction parts as [|part parts IH]; intros items H; [reflexivity|].
  cbn [map filter parse_parts] in *. unfold nonblank in H at 1.
  destruct (is_empty (strip part)); [now apply IH | discriminate].
Qed.

(** X8. A text in which every clause is blank (such as [","] or
    ["and"]) is analysed without error into an empty list of items, totals
    that are all 0, and a flag [Low] at 0 percent for every nutrient whose
    target is defined and not 0. *)
Theorem no_clause_all_low (text : str) :
  kept_clauses false text = [] ->
  exists r,
    analyze_meal_text text = Ok r /\
    parsed_items r = [] /\
    (forall n, totals r n = 0%Q) /\
    (forall n target, rdi n = Some target -> ~ (target == 0)%Q ->
                      In (MkFlag Low n 0) (flags r)).
Proof.
  intros K. unfold kept_clauses in K. rewrite <- re_split_clauses in K.
  unfold analyze_meal_text, parse_meal_text.
  rewrite (parse_parts_blank _ [] K). cbn [bind map].
  rewrite check_nutrients_turns. cbn [bind fst snd app].
  eexists. split; [reflexivity|]. cbn [parsed_items totals flags].
  assert (Z : forall n, sum_totals [] n = 0%Q).
  { intros n. rewrite sum_totals_at. reflexivity. }
  repeat split; [exact Z|].
  intros n target R NZ. apply in_flat_map. exists n.
  split; [apply all_nutrients|].
  assert (P : (percent (sum_totals []) n target == 0)%Q).
  { unfold percent. rewrite Z. unfold Qeq. simpl. reflexivity. }
  unfold turn_flags. rewrite (turn_level_defined _ _ _ R NZ), R.
  assert (L : Qltb (percent (sum_totals []) n target) 80 = true).
  { apply Qltb_lt. rewrite P. reflexivity. }
  rewrite L, (round_compat _ 0 1 P). now left.
Qed.

(** ** Ties between close matches *)

Lemma str_ltb_irrefl (a : str) : str_ltb a a = false.
Proof.
  induction a as [|x a IH]; [reflexivity|].
  cbn [str_ltb]. now rewrite N.ltb_irrefl.
Qed.

Lemma str_ltb_trans (a : str) : forall b c,
  str_ltb a b = true -> str_ltb b c = true -> str_ltb a c = true.
Proof.
  induction a as [|x a IH]; intros [|y b] [|z c]; cbn [str_ltb];
    try discriminate; auto.
  destruct (N.ltb_spec (code x) (code y)), (N.ltb_spec (code y) (code x)),
           (N.ltb_spec (code y) (code z)), (N.ltb_spec (code z) (code y)),
           (N.ltb_spec (code x) (code z)), (N.ltb_spec (code z) (code x));
    try discriminate; try lia; auto.
  apply IH.
Qed.

Lemma pair_gtb_irrefl (p : Q * str) : pair_gtb p p = false.
Proof.
  unfold pair_gtb.
  destruct (Qeq_bool (fst p) (fst p)) eqn:E; [apply str_ltb_irrefl|].
  apply Qltb_ge, Qle_refl.
Qed.

Lemma Qeq_bool_false (x y : Q) : ~ (x == y)%Q -> Qeq_bool x y = false.
Proof.
  intros H. destruct (Qeq_bool x y) eqn:E; [|reflexivity].
  apply Qeq_bool_iff in E. contradiction.
Qed.

Lemma pair_gtb_trans (p q r : Q * str) :
  pair_gtb p q = true -> pair_gtb q r = true -> pair_gtb p r = true.
Proof.
  unfold pair_gtb. intros H1 H2.
  destruct (Qeq_bool (fst p) (fst q)) eqn:E1;
    destruct (Qeq_bool (fst q) (fst r)) eqn:E2.
  - apply Qeq_bool_iff in E1, E2.
    assert (E3 : Qeq_bool (fst p) (fst r) = true).
    { apply Qeq_bool_iff. now rewrite E1. }
    rewrite E3. eapply str_ltb_trans; eassumption.
  - apply Qeq_bool_iff in E1. apply Qltb_lt in H2.
    assert (L : (fst r < fst p)%Q) by now rewrite E1.
    rewrite Qeq_bool_false; [now apply Qltb_lt|].
    intros E. rewrite E in L. exact (Qlt_irrefl _ L).
  - apply Qeq_bool_iff in E2. apply Qltb_lt in H1.
    assert (L : (fst r < fst p)%Q) by now rewrite <- E2.
    rewrite Qeq_bool_false; [now apply Qltb_lt|].
    intros E. rewrite E in L. exact (Qlt_irrefl _ L).
  - apply Qltb_lt in H1, H2.
    assert (L : (fst r < fst p)%Q) by (eapply Qlt_trans; eassumption).
    rewrite Qeq_bool_false; [now apply Qltb_lt|].
    intros E. rewrite E in L. exact (Qlt_irrefl _ L).
Qed.

Lemma fold_max_not_exceeded (others : list (Q * str)) : forall best seen,
  (forall y, In y seen -> pair_gtb y best = false) ->
  forall y, In y seen \/ In y others ->
            pair_gtb y (fold_left
                          (fun best x => if pair_gtb x best then x else best)
                          others best) = false.
Proof.
  induction others as [|x others IH]; intros best seen Hseen y Hy;
    cbn [fold_left].
  - destruct Hy as [Hy|[]]. now apply Hseen.
  - apply (IH _ (x :: seen)).
    + intros z [<-|Hz].
      * destruct (pair_gtb x best) eqn:E; [apply pair_gtb_irrefl | exact E].
      * destruct (pair_gtb x best) eqn:E; [|now apply Hseen].
        destruct (pair_gtb z x) eqn:F; [|reflexivity].
        pose proof (pair_gtb_trans _ _ _ F E) as T.
        rewrite (Hseen z Hz) in T. discriminate.
    + destruct Hy as [Hy|[<-|Hy]]; [left; now right | left; now left | now right].
Qed.

(** No element of the list is greater than the one [max] returns. *)
Lemma py_max_not_exceeded (others : list (Q * str)) (first y : Q * str) :
  In y (first :: others) -> pair_gtb y (py_max first others) = false.
Proof.
  intros Hy. unfold py_max. apply (fold_max_not_exceeded others first [first]).
  - intros z [<-|[]]. apply pair_gtb_irrefl.
  - destruct Hy as [<-|Hy]; [left; now left | now right].
Qed.

(** X10. When several keys share the greatest similarity ratio, the close
    match returned is the greatest of them in the order of strings (by code
    points), wherever they stand in the table. *)
Theorem close_match_tie_goes_to_greatest_key (word : str) (poss : list str)
  (cutoff : Q) (best x : str) :
  get_close_matches word poss cutoff = [best] ->
  In x poss -> (ratio x word == ratio best word)%Q ->
  str_ltb best x = false.
Proof.
  unfold get_close_matches.
  set (ok := fun x => Qle_bool cutoff (ratio x word)).
  set (sc := fun x => (ratio x word, x)).
  destruct (filter ok poss) as [|f fs] eqn:E; cbn [map]; [discriminate|].
  intros H Hx Hr. injection H as H.
  destruct (py_max_greatest (map sc fs) (sc f)) as [Hin _].
  change (sc f :: map sc fs) with (map sc (f :: fs)) in Hin.
  apply in_map_iff in Hin. destruct Hin as (b & Hb & Hbin).
  rewrite <- Hb in H. cbn [sc snd] in H. subst b.
  rewrite <- E in Hbin. apply filter_In in Hbin. destruct Hbin as [_ Hok].
  assert (Hxok : ok x = true).
  { unfold ok in *. apply Qle_bool_iff. apply Qle_bool_iff in Hok.
    now rewrite Hr. }
  assert (Hxin : In (sc x) (sc f :: map sc fs)).
  { change (sc f :: map sc fs) with (map sc (f :: fs)).
    apply in_map. rewrite <- E. apply filter_In. auto. }
  pose proof (py_max_not_exceeded _ _ _ Hxin) as G.
  rewrite <- Hb in G. unfold pair_gtb in G. cbn [sc fst snd] in G.
  apply Qeq_bool_iff in Hr. now rewrite Hr in G.
Qed.

End App.

(* ================================================================== *)
(** * Part III. The program on concrete tables *)
(* ================================================================== *)

Lemma egg_db_has_servings : table_has_servings egg_db.
Proof.
  intros key e H. unfold egg_db in H. cbn [lookup] in H.
  destruct (str_eqb key (txt "egg")); inv H. discriminate.
Qed.

Lemma egg_db_servings_positive : servings_positive egg_db.
Proof.
  intros key e v H S. unfold egg_db in H. cbn [lookup] in H.
  destruct (str_eqb key (txt "egg")); inv H. inv S. reflexivity.
Qed.

(** C1. On the table of the example and the input ["2 eggs"] the analysis
    returns one item of 100 g, but with no food key, confidence 0 and
    all-zero nutrition, not the key ["egg"] with confidence 1, 155 kcal and
    13 g of protein. *)
Theorem two_eggs_matches_no_food :
  items_view (analyze_meal_text Difflib.ratio egg_db RDI (txt "2 eggs"))
  = Ok [("2 eggs"%string, None, 100, 0, [0; 0; 0; 0; 0; 0])%Q].
Proof. vm_compute. reflexivity. Qed.

(** The pattern reads ["2 eggs"] as number 2, unit ["egg"], food ["s"]. *)
Example two_eggs_groups :
  re_match number_unit_food_re (txt "2 eggs")
  = Some (MkMatch 0 6 [("food"%string, txt "s"); ("unit"%string, txt "egg");
                       ("number"%string, txt "2")]).
Proof. vm_compute. reflexivity. Qed.

(** With a unit that is not a prefix of the food the example works as
    intended. *)
Example two_egg_found :
  items_view (analyze_meal_text Difflib.ratio egg_db RDI (txt "2 egg"))
  = Ok [("2 egg"%string, Some "egg"%string, 100, 1,
         [155; 13; 11 # 10; 11; 0; 0])%Q].
Proof. vm_compute. reflexivity. Qed.

(** C3, counterexample: an explicit quantity of 0 g gives an item whose
    weight is not greater than 0. *)
Lemma zero_grams_item :
  parse_meal_text Difflib.ratio egg_db (txt "0g chicken")
  = Ok [MkItem (txt "0g chicken") (Some (txt "chicken")) 0 0]
  /\ ~ (0 < grams (MkItem (txt "0g chicken") (Some (txt "chicken")) 0 0))%Q.
Proof.
  split; [vm_compute; reflexivity|]. simpl. apply Qlt_irrefl.
Qed.

Lemma grams_nonnegative_witness :
  servings_positive egg_db /\
  (0 <= grams (MkItem (txt "0g chicken") (Some (txt "chicken")) 0 0))%Q.
Proof.
  split; [exact egg_db_servings_positive|].
  apply (grams_nonnegative Difflib.ratio egg_db (txt "0g chicken")
           [MkItem (txt "0g chicken") (Some (txt "chicken")) 0 0]).
  - exact egg_db_servings_positive.
  - vm_compute. reflexivity.
  - simpl. left. reflexivity.
Defined.

(** C4. On ["eggs AND rice"] the analysis returns one item, whose [raw]
    is the whole text, where the clauses of the description, with the
    letters of ["and"] in either case, are ["eggs"] and ["rice"]: the
    pattern given to [re.split] is the only one of the three that is used
    without [re.I], so an upper-case ["AND"] does not separate clauses. *)
Theorem upper_case_and_not_split :
  items_view (analyze_meal_text Difflib.ratio egg_db RDI (txt "eggs AND rice"))
  = Ok [("eggs AND rice"%string, None, 100, 0, [0; 0; 0; 0; 0; 0])%Q]
  /\ kept_clauses true (txt "eggs AND rice") = [txt "eggs"; txt "rice"].
Proof. split; vm_compute; reflexivity. Qed.

(** The two compiled patterns do ignore case: [grams_re] finds the weight
    in ["150G RICE"] and [number_unit_food_re] the unit in ["2 CUP RICE"];
    and in lower case the same text is split. *)
Example sibling_patterns_ignore_case :
  option_map (fun m => group m "grams") (re_search grams_re (txt "150G RICE"))
  = Some (Some (txt "150"))
  /\ option_map (fun m => group m "unit")
                (re_match number_unit_food_re (txt "2 CUP RICE"))
     = Some (Some (txt "CUP"))
  /\ option_map (map e_raw)
       (match analyze_meal_text Difflib.ratio egg_db RDI (txt "eggs and rice")
        with Ok r => Some (parsed_items r) | Raise _ => None end)
     = Some [txt "eggs"; txt "rice"].
Proof. repeat split; vm_compute; reflexivity. Qed.

Example lower_case_and_split :
  kept_clauses false (txt "eggs and rice, banana and") =
  [txt "eggs"; txt "rice"; txt "banana"].
Proof. vm_compute. reflexivity. Qed.

Example sandwich_not_split :
  kept_clauses false (txt "sandwich") = [txt "sandwich"]
  /\ kept_clauses true (txt "sandwich") = [txt "sandwich"].
Proof. split; vm_compute; reflexivity. Qed.

Lemma one_item_per_clause_witness :
  table_has_servings egg_db /\
  exists r,
    analyze_meal_text Difflib.ratio egg_db RDI (txt "eggs and rice") = Ok r /\
    map e_raw (parsed_items r) = kept_clauses false (txt "eggs and rice") /\
    List.length (parsed_items r)
    = List.length (kept_clauses false (txt "eggs and rice")).
Proof.
  split; [exact egg_db_has_servings|].
  apply (one_item_per_clause Difflib.ratio egg_db RDI (txt "eggs and rice")).
  exact egg_db_has_servings.
Defined.

(** C6, counterexample: the amounts shown for the items are rounded one by
    one, so their sum, rounded, can differ from the total: two items of
    0.033 g of carbohydrates are each shown as 0.03 and total 0.07. *)
Lemma total_differs_from_sum_of_shown_amounts :
  match analyze_meal_text Difflib.ratio egg_db RDI (txt "3g egg, 3g egg") with
  | Ok r =>
      map (fun e => e_nutrition e carbs) (parsed_items r)
      = [3 # 100; 3 # 100]%Q /\
      totals r carbs = (7 # 100)%Q /\
      totals r carbs <>
        round (py_sum (map (fun e => e_nutrition e carbs) (parsed_items r))) 2
  | Raise _ => False
  end.
Proof. vm_compute. repeat split; discriminate. Qed.

Lemma totals_round_of_raw_sum_witness :
  exists r items,
    analyze_meal_text Difflib.ratio egg_db RDI (txt "3g egg, 3g egg") = Ok r /\
    parse_meal_text Difflib.ratio egg_db (txt "3g egg, 3g egg") = Ok items /\
    totals r carbs =
      round (py_sum (map (fun p => calc_nutrition_for_item egg_db
                                     (food_key p) (grams p) carbs) items)) 2.
Proof.
  destruct (analyze_meal_text Difflib.ratio egg_db RDI (txt "3g egg, 3g egg")) as [r|e] eqn:E;
    [|vm_compute in E; discriminate].
  destruct (totals_round_of_raw_sum Difflib.ratio egg_db RDI
              (txt "3g egg, 3g egg") r E) as (items & Hp & H).
  exists r, items. split; [reflexivity|]. split; [exact Hp|].
  exact (proj1 (H carbs)).
Defined.

(** C2, on an example: the route with a log kept in memory. *)
Lemma analyze_fails_only_on_blank_input_witness :
  table_has_servings egg_db /\
  analyze Difflib.ratio egg_db RDI memory_log (txt "   ") (MkWorld [] 0)
  = (BadRequest "Empty input", MkWorld [] 0) /\
  exists r,
    analyze_meal_text Difflib.ratio egg_db RDI (txt "2 eggs") = Ok r /\
    fst (analyze Difflib.ratio egg_db RDI memory_log (txt "2 eggs")
           (MkWorld [] 0)) = Json r /\
    logs (snd (analyze Difflib.ratio egg_db RDI memory_log (txt "2 eggs")
                 (MkWorld [] 0)))
    = fst (memory_log (txt "2 eggs") (totals r) []) /\
    forall e, In e (parsed_items r) -> e_confidence e = 0%Q ->
              forall n, e_nutrition e n = 0%Q.
Proof.
  split; [exact egg_db_has_servings|]. split.
  - apply (analyze_fails_only_on_blank_input Difflib.ratio egg_db RDI
             (list str) memory_log (txt "   ") (MkWorld [] 0) egg_db_has_servings).
    vm_compute. reflexivity.
  - apply (analyze_fails_only_on_blank_input Difflib.ratio egg_db RDI
             (list str) memory_log (txt "2 eggs") (MkWorld [] 0) egg_db_has_servings).
    vm_compute. reflexivity.
Defined.

(** Without the guarantee on the table the route can fail on a text that is
    not blank: a bare food name whose entry has no serving size raises
    [KeyError], while the same food after a number does not. *)
Example missing_serving_raises :
  fst (analyze Difflib.ratio broken_db RDI memory_log (txt "tofu")
         (MkWorld [] 0)) = Uncaught KeyError
  /\ items_view (analyze_meal_text Difflib.ratio broken_db RDI (txt "2 tofu"))
     = Ok [("2 tofu"%string, Some "tofu"%string, 200, 1,
            [2; 2; 2; 2; 2; 2])%Q].
Proof. split; vm_compute; reflexivity. Qed.

(** C5, on examples: one token for each strategy, and a tie between two
    keys of equal ratio, which goes to the greater key in the order of
    strings, not to the first in the table. *)
Example matcher_strategies :
  find_best_food_token Difflib.ratio pantry_db (txt " Egg ")
  = (Some (txt "egg"), 1%Q) /\
  find_best_food_token Difflib.ratio pantry_db (txt "bananna")
  = (Some (txt "banana"), (8 # 10)%Q) /\
  find_best_food_token Difflib.ratio pantry_db (txt "fri")
  = (Some (txt "fried rice"), (7 # 10)%Q) /\
  find_best_food_token Difflib.ratio pantry_db (txt "xyz")
  = (None, 0%Q) /\
  find_best_food_token Difflib.ratio pantry_db (txt "")
  = (Some (txt "egg"), (7 # 10)%Q).
Proof. repeat split; vm_compute; reflexivity. Qed.

Example matcher_tie :
  get_close_matches Difflib.ratio (txt "ab") [txt "abx"; txt "aby"; txt "abz"]
    (6 # 10)%Q
  = [txt "abz"].
Proof. vm_compute. reflexivity. Qed.

(** C7, on examples: 1600 kcal is exactly 80 percent of the target and
    2400 kcal exactly 120 percent; neither is flagged. *)
Example boundary_totals_not_flagged :
  totals_view (analyze_meal_text Difflib.ratio pantry_db RDI (txt "ration"))
  = Ok [1600; 0; 0; 0; 0; 0]%Q /\
  flags_view (analyze_meal_text Difflib.ratio pantry_db RDI (txt "ration"))
  = Ok [MkFlag Low protein 0; MkFlag Low carbs 0; MkFlag Low fat 0;
        MkFlag Low fiber 0; MkFlag Low vitamin_c 0] /\
  totals_view (analyze_meal_text Difflib.ratio pantry_db RDI (txt "1.5 ration"))
  = Ok [2400; 0; 0; 0; 0; 0]%Q /\
  flags_view (analyze_meal_text Difflib.ratio pantry_db RDI (txt "1.5 ration"))
  = Ok [MkFlag Low protein 0; MkFlag Low carbs 0; MkFlag Low fat 0;
        MkFlag Low fiber 0; MkFlag Low vitamin_c 0] /\
  flags_view (analyze_meal_text Difflib.ratio pantry_db RDI (txt "1.51 ration"))
  = Ok [MkFlag High calories (604 # 5); MkFlag Low protein 0;
        MkFlag Low carbs 0; MkFlag Low fat 0;
        MkFlag Low fiber 0; MkFlag Low vitamin_c 0].
Proof. repeat split; vm_compute; reflexivity. Qed.

Lemma flag_thresholds_witness :
  exists r,
    analyze_meal_text Difflib.ratio pantry_db RDI (txt "ration") = Ok r /\
    (percent (totals r) calories 2000 == 80)%Q /\
    forall f, In f (flags r) -> f_nutrient f <> calories.
Proof.
  destruct (analyze_meal_text Difflib.ratio pantry_db RDI (txt "ration"))
    as [r|e] eqn:E; [|vm_compute in E; discriminate].
  assert (T : totals r calories = 1600%Q).
  { assert (V : totals_view (Ok r) = Ok [1600; 0; 0; 0; 0; 0]%Q).
    { rewrite <- E. vm_compute. reflexivity. }
    simpl in V. now inv V. }
  assert (P : (percent (totals r) calories 2000 == 80)%Q).
  { unfold percent. rewrite T. reflexivity. }
  exists r. split; [reflexivity|]. split; [exact P|].
  assert (R : RDI calories = Some 2000%Q) by reflexivity.
  assert (NZ : ~ (2000 == 0)%Q) by discriminate.
  apply (flag_thresholds Difflib.ratio pantry_db RDI (txt "ration") r
           calories 2000%Q E R NZ).
  rewrite P. split; discriminate.
Defined.

(** C8, counterexample: with the unit [g] the quantity 0 is an explicit
    gram quantity; the weight is 0, that is 0 times the weight of the unit,
    and not the serving size of the rice (150). *)
Lemma zero_grams_of_rice :
  parse_clause Difflib.ratio pantry_db (txt "0 g rice")
  = Ok (MkItem (txt "0 g rice") (Some (txt "rice")) 0 1)
  /\ lookup (txt "g") UNIT_TO_G = Some 1%Q
  /\ serving_or_100 pantry_db (Some (txt "rice")) = 150%Q.
Proof. repeat split; vm_compute; reflexivity. Qed.

Lemma zero_quantity_uses_serving_witness :
  parse_clause Difflib.ratio egg_db (txt "0 eggs")
  = Ok (MkItem (txt "0 eggs") None 100 0) /\
  grams (MkItem (txt "0 eggs") None 100 0) = serving_or_100 egg_db None.
Proof.
  assert (P : parse_clause Difflib.ratio egg_db (txt "0 eggs")
              = Ok (MkItem (txt "0 eggs") None 100 0))
    by (vm_compute; reflexivity).
  split; [exact P|].
  apply (zero_quantity_uses_serving Difflib.ratio egg_db (txt "0 eggs")
           (MkMatch 0 6 [("food"%string, txt "s"); ("unit"%string, txt "egg");
                         ("number"%string, txt "0")])
           (txt "0")).
  - vm_compute. reflexivity.
  - vm_compute. reflexivity.
  - vm_compute. reflexivity.
  - exists 0%Q. split; [vm_compute; reflexivity | reflexivity].
  - exact P.
Defined.

(** The same with a unit and a food that is found: the serving size. *)
Example zero_cups_of_rice :
  items_view (analyze_meal_text Difflib.ratio pantry_db RDI (txt "0 cup rice"))
  = Ok [("0 cup rice"%string, Some "rice"%string, 150, 1,
         [195; 81 # 20; 42; 9 # 20; 3 # 5; 0])%Q].
Proof. vm_compute. reflexivity. Qed.

(** C9, on examples: the raw token is kept with explicit grams only. *)
Lemma raw_token_kept_only_with_explicit_grams_witness :
  parse_clause Difflib.ratio pantry_db (txt "150g chicken breast")
  = Ok (MkItem (txt "150g chicken breast") (Some (txt "chicken breast")) 150 0)
  /\
  (re_search grams_re (txt "150g chicken breast") = None ->
   food_key (MkItem (txt "150g chicken breast") (Some (txt "chicken breast"))
               150 0)
   = fst (find_best_food_token Difflib.ratio pantry_db
            (food_text (txt "150g chicken breast")))).
Proof.
  assert (P : parse_clause Difflib.ratio pantry_db (txt "150g chicken breast")
              = Ok (MkItem (txt "150g chicken breast")
                      (Some (txt "chicken breast")) 150 0))
    by (vm_compute; reflexivity).
  split; [exact P|].
  intros H.
  exact (proj1 (proj2 (raw_token_kept_only_with_explicit_grams
                         Difflib.ratio pantry_db
                         (txt "150g chicken breast") _ P) H)).
Defined.

Example unmatched_food_keys :
  items_view (analyze_meal_text Difflib.ratio pantry_db RDI
                (txt "150g Chicken Breast, 2 slices of xyz, qqq"))
  = Ok [("150g Chicken Breast"%string, Some "Chicken Breast"%string, 150, 0,
         [0; 0; 0; 0; 0; 0]);
        ("2 slices of xyz"%string, None, 60, 0, [0; 0; 0; 0; 0; 0]);
        ("qqq"%string, None, 100, 0, [0; 0; 0; 0; 0; 0])]%Q.
Proof. vm_compute. reflexivity. Qed.

(** C10, on an example: no target for fiber, a zero target for fat. *)
Lemma zero_or_missing_target_skipped_witness :
  (forall tot acc,
     check_nutrient partial_rdi tot acc fat = Ok acc) /\
  (forall tot acc,
     check_nutrient partial_rdi tot acc fiber = Ok acc).
Proof.
  split.
  - apply (zero_or_missing_target_skipped Difflib.ratio egg_db partial_rdi fat).
    right. exists 0%Q. split; reflexivity.
  - apply (zero_or_missing_target_skipped Difflib.ratio egg_db partial_rdi fiber).
    left. reflexivity.
Defined.

Example skipped_targets_not_flagged :
  flags_view (analyze_meal_text Difflib.ratio egg_db partial_rdi (txt "2 egg"))
  = Ok [MkFlag Low calories (39 # 5); MkFlag Low protein 26;
        MkFlag Low carbs (2 # 5); MkFlag Low vitamin_c 0].
Proof. vm_compute. reflexivity. Qed.

(** ** More of the program on concrete tables *)

Lemma unit_group_is_a_short_word_witness :
  In (lower (txt "cup")) live_units /\
  (lookup (lower (txt "cup")) UNIT_TO_G = None <->
   lower (txt "cup") = txt "teaspoon").
Proof.
  apply (unit_group_is_a_short_word (txt "2 cups rice")
           (MkMatch 0 11 [("food"%string, txt "s rice");
                          ("unit"%string, txt "cup");
                          ("number"%string, txt "2")])
           (txt "cup")).
  - vm_compute. reflexivity.
  - vm_compute. reflexivity.
Defined.

(** A teaspoon is captured as a unit but has no weight in [UNIT_TO_G], so
    it counts for 100 g, where a tsp counts for 5 g. *)
Example teaspoon_and_tsp :
  items_view (analyze_meal_text Difflib.ratio pantry_db RDI
                (txt "2 teaspoon rice, 2 tsp rice, 2 Cups rice"))
  = Ok [("2 teaspoon rice"%string, Some "rice"%string, 200, 1,
         [260; 27 # 5; 56; 3 # 5; 4 # 5; 0]);
        ("2 tsp rice"%string, Some "rice"%string, 10, 1,
         [13; 27 # 100; 14 # 5; 3 # 100; 1 # 25; 0]);
        ("2 Cups rice"%string, Some "rice"%string, 480, 4 # 5,
         [624; 324 # 25; 672 # 5; 36 # 25; 48 # 25; 0])]%Q.
Proof. vm_compute. reflexivity. Qed.



Lemma key_in_table_iff_confident_witness :
  (db_get pantry_db (food_key (MkItem (txt "2 cups rice") (Some (txt "rice"))
                                      480 (8 # 10))) = None <->
   confidence (MkItem (txt "2 cups rice") (Some (txt "rice")) 480 (8 # 10))
   = 0%Q).
Proof.
  apply (key_in_table_iff_confident Difflib.ratio pantry_db (txt "2 cups rice")).
  vm_compute. reflexivity.
Defined.

Lemma pantry_db_servings_positive : servings_positive pantry_db.
Proof.
  intros key e v H S. unfold pantry_db in H. cbn [lookup] in H.
  repeat (destruct (str_eqb key _); [inv H; inv S; reflexivity|]).
  discriminate.
Qed.

Lemma pantry_db_amounts_nonnegative : amounts_nonnegative pantry_db.
Proof.
  intros key e n v H P. unfold pantry_db in H. cbn [lookup] in H.
  repeat (destruct (str_eqb key _);
          [inv H; destruct n; inv P; discriminate|]).
  discriminate.
Qed.

Lemma pantry_db_servings_bounded : servings_bounded pantry_db.
Proof.
  intros key e v H S. unfold pantry_db in H. cbn [lookup] in H.
  repeat (destruct (str_eqb key _); [inv H; inv S; discriminate|]).
  discriminate.
Qed.

Lemma result_nonnegative_witness :
  List.length (txt "2 cups rice and banana") <= 300 /\
  exists r,
    analyze_meal_text Difflib.ratio pantry_db RDI (txt "2 cups rice and banana")
    = Ok r /\
    (0 <= totals r calories)%Q /\
    forall e, In e (parsed_items r) ->
              (0 <= e_grams e)%Q /\ (e_grams e <= inject_Z (10 ^ 303))%Q /\
              (0 <= e_nutrition e calories)%Q.
Proof.
  assert (L : List.length (txt "2 cups rice and banana") <= 300)
    by (vm_compute; repeat constructor).
  split; [exact L|].
  destruct (analyze_meal_text Difflib.ratio pantry_db RDI
              (txt "2 cups rice and banana")) as [r|e] eqn:E;
    [|vm_compute in E; discriminate].
  exists r. split; [reflexivity|].
  apply (result_nonnegative Difflib.ratio pantry_db RDI
           (txt "2 cups rice and banana") r
           pantry_db_amounts_nonnegative pantry_db_servings_positive
           pantry_db_servings_bounded L E calories).
Defined.

Lemma flags_in_nutrient_order_witness :
  exists r,
    analyze_meal_text Difflib.ratio pantry_db RDI (txt "1.51 ration") = Ok r /\
    NoDup (map f_nutrient (flags r)) /\ List.length (flags r) <= 6.
Proof.
  destruct (analyze_meal_text Difflib.ratio pantry_db RDI (txt "1.51 ration"))
    as [r|e] eqn:E; [|vm_compute in E; discriminate].
  exists r. split; [reflexivity|].
  apply (flags_in_nutrient_order Difflib.ratio pantry_db RDI
           (txt "1.51 ration") r E).
Defined.

Lemma suggestions_follow_flags_witness :
  exists r,
    analyze_meal_text Difflib.ratio pantry_db RDI (txt "1.51 ration") = Ok r /\
    NoDup (suggestions r).
Proof.
  destruct (analyze_meal_text Difflib.ratio pantry_db RDI (txt "1.51 ration"))
    as [r|e] eqn:E; [|vm_compute in E; discriminate].
  exists r. split; [reflexivity|].
  apply (suggestions_follow_flags Difflib.ratio pantry_db RDI
           (txt "1.51 ration") r E).
Defined.

Example high_calories_suggestion :
  match analyze_meal_text Difflib.ratio pantry_db RDI (txt "1.51 ration") with
  | Ok r =>
      suggestions r =
      ["Reduce portion or swap to lower-calorie alternatives.";
       "Add a protein source: egg, paneer, dal, or chicken.";
       "Add vegetables or fruit (spinach, apple, banana).";
       "Add vitamin C rich food: orange, spinach, potato or fruits."]%string
  | Raise _ => False
  end.
Proof. vm_compute. reflexivity. Qed.

Lemma no_clause_all_low_witness :
  exists r,
    analyze_meal_text Difflib.ratio egg_db RDI (txt " , and ,") = Ok r /\
    parsed_items r = [] /\
    (forall n, totals r n = 0%Q) /\
    (forall n target, RDI n = Some target -> ~ (target == 0)%Q ->
                      In (MkFlag Low n 0) (flags r)).
Proof.
  apply (no_clause_all_low Difflib.ratio egg_db RDI (txt " , and ,")).
  vm_compute. reflexivity.
Defined.

Lemma close_match_tie_goes_to_greatest_key_witness :
  str_ltb (txt "abz") (txt "abx") = false.
Proof.
  apply (close_match_tie_goes_to_greatest_key Difflib.ratio (txt "ab")
           [txt "abx"; txt "aby"; txt "abz"] (6 # 10)%Q).
  - vm_compute. reflexivity.
  - simpl. left. reflexivity.
  - vm_compute. reflexivity.
Defined.

(** ** A token that is blank *)

Lemma rows_empty (pop : ascii -> bool) (la : str) : forall i row best,
  Difflib.rows pop la [] i row best = best.
Proof.
  induction la as [|x la IH]; intros i row best; [reflexivity|].
  cbn [Difflib.rows Difflib.next_row Difflib.scan_row]. apply IH.
Qed.

(** Nothing is similar to the empty word. *)
Lemma ratio_empty_word (a : str) : a <> [] -> Difflib.ratio a [] = 0%Q.
Proof.
  intros Ha. destruct a as [|x a]; [congruence|].
  unfold Difflib.ratio. cbn [List.length Nat.add].
  cbn [Difflib.matches]. unfold Difflib.find_longest_match.
  rewrite rows_empty. reflexivity.
Qed.

Lemma no_key_close_to_empty_word (keys : list str) :
  (forall key, In key keys -> key <> []) ->
  filter (fun x => Qle_bool (6 # 10) (Difflib.ratio x [])) keys = [].
Proof.
  induction keys as [|key keys IH]; intros Hkeys; [reflexivity|].
  cbn [filter]. rewrite (ratio_empty_word key) by (apply Hkeys; now left).
  change (Qle_bool (6 # 10) 0) with false. cbv iota.
  apply IH. intros key' Hin. apply Hkeys. now right.
Qed.

(** X9. With the similarity ratio of [difflib], a token that is empty or
    blank (what is left of a clause such as ["150g"]) is matched to the
    first key of the table with confidence 0.7, provided no key is the
    empty string: the empty string is contained in every key. *)
Theorem blank_token_takes_first_key (db : list (str * FoodEntry))
  (k : str) (e : FoodEntry) (rest : list (str * FoodEntry)) (token : str) :
  db = (k, e) :: rest ->
  (forall key, In key (FOOD_KEYS db) -> key <> []) ->
  strip token = [] ->
  find_best_food_token Difflib.ratio db token = (Some k, (7 # 10)%Q).
Proof.
  intros -> Hkeys Hblank. unfold find_best_food_token. rewrite Hblank.
  cbn [lower map].
  assert (E1 : find (fun key => str_eqb [] (lower key))
                    (FOOD_KEYS ((k, e) :: rest)) = None).
  { apply find_none_iff. intros key Hin.
    destruct key as [|c key]; [now elim (Hkeys [] Hin)|reflexivity]. }
  rewrite E1.
  assert (E2 : get_close_matches Difflib.ratio [] (FOOD_KEYS ((k, e) :: rest))
                                 (6 # 10)%Q = []).
  { unfold get_close_matches.
    now rewrite (no_key_close_to_empty_word _ Hkeys). }
  rewrite E2. unfold FOOD_KEYS. cbn [map fst find].
  now destruct (lower k).
Qed.

Lemma blank_token_takes_first_key_witness :
  find_best_food_token Difflib.ratio pantry_db (txt "  ")
  = (Some (txt "egg"), (7 # 10)%Q).
Proof.
  apply (blank_token_takes_first_key pantry_db (txt "egg") egg_entry
           (tl pantry_db) (txt "  ")).
  - reflexivity.
  - intros key Hin. vm_compute in Hin.
    repeat (destruct Hin as [<-|Hin]; [discriminate|]). destruct Hin.
  - vm_compute. reflexivity.
Defined.

Example grams_only_clause :
  items_view (analyze_meal_text Difflib.ratio pantry_db RDI (txt "150g"))
  = Ok [("150g"%string, Some "egg"%string, 150, 7 # 10,
         [465 # 2; 39 # 2; 33 # 20; 33 # 2; 0; 0])]%Q.
Proof. vm_compute. reflexivity. Qed.

(** ** The log *)

Section LogFacts.

Variable encrypt : nat -> str -> str.
Variable decrypt : str -> option str.
Variable dumps : amounts -> str.
Variable loads : str -> option amounts.
Variable isoformat : nat -> str.

Lemma in_firstn {A : Type} (n : nat) (l : list A) (x : A) :
  In x (firstn n l) -> In x l.
Proof.
  intros H. rewrite <- (firstn_skipn n l). apply in_or_app. now left.
Qed.

Lemma max_id_bound (rows : list Row) (r : Row) :
  In r rows -> row_id r < next_id rows.
Proof.
  unfold next_id. induction rows as [|x rows IH]; [intros []|].
  cbn [map fold_right]. intros [<-|H]; [lia|].
  specialize (IH H). lia.
Qed.

Lemma in_insert_desc (r a : Row) (l : list Row) :
  In r (insert_desc a l) -> r = a \/ In r l.
Proof.
  induction l as [|y l IH]; cbn [insert_desc].
  - intros [<-|[]]. now left.
  - destruct (row_id y <=? row_id a).
    + intros [<-|H]; [now left | now right].
    + intros [<-|H]; [right; now left|].
      destruct (IH H) as [->|H']; [now left | right; now right].
Qed.

Lemma in_order_by_id_desc (r : Row) (rows : list Row) :
  In r (order_by_id_desc rows) -> In r rows.
Proof.
  unfold order_by_id_desc. induction rows as [|x rows IH]; [intros []|].
  cbn [fold_right]. intros H. apply in_insert_desc in H.
  destruct H as [->|H]; [now left | right; now apply IH].
Qed.

Lemma newest_row_first (new : Row) (rows : list Row) :
  (forall r, In r rows -> row_id r < row_id new) ->
  order_by_id_desc (rows ++ [new]) = new :: order_by_id_desc rows.
Proof.
  unfold order_by_id_desc. rewrite fold_right_app. cbn [fold_right insert_desc].
  induction rows as [|x rows IH]; intros H; [reflexivity|].
  cbn [fold_right]. rewrite IH by (intros r Hr; apply H; now right).
  cbn [insert_desc].
  assert (L : row_id x < row_id new) by (apply H; now left).
  apply Nat.leb_gt in L. now rewrite L.
Qed.

Lemma show_rows_firstn (n : nat) : forall rows out,
  show_rows decrypt loads rows = Some out ->
  show_rows decrypt loads (firstn n rows) = Some (firstn n out).
Proof.
  induction n as [|n IH]; intros rows out H; [reflexivity|].
  destruct rows as [|r rows]; cbn [show_rows firstn] in *.
  - now inv H.
  - destruct (show_row decrypt loads r) as [e|]; [|discriminate].
    destruct (show_rows decrypt loads rows) as [o|] eqn:E; [|discriminate].
    inv H. now rewrite (IH rows o E).
Qed.

(** X11. Saving and listing compose: when the table exists, the listing
    worked before, and the cipher and the codec give back the text and the
    totals being saved, [save_log] does not raise and [get_logs] afterwards
    lists the saved text and totals first, under a new id, followed by the
    first 19 entries of the previous listing. *)
Theorem saved_log_is_listed_first (text : str) (tot : amounts) (db : LogDb)
  (rows : list Row) (older : list LogEntry) :
  table db = Some rows ->
  get_logs decrypt loads db = Some older ->
  decrypt (encrypt (clock db) text) = Some text ->
  loads (dumps tot) = Some tot ->
  snd (save_log_db encrypt dumps isoformat text tot db) = false /\
  get_logs decrypt loads (fst (save_log_db encrypt dumps isoformat text tot db))
  = Some (MkLogEntry (next_id rows) (isoformat (clock db)) text tot
            :: firstn 19 older) /\
  forall e, In e older -> log_id e < next_id rows.
Proof.
  intros T G D L. unfold save_log_db, get_logs in *. rewrite T in *.
  cbn [fst snd table]. split; [reflexivity|]. split.
  - rewrite newest_row_first
      by (intros r Hr; cbn [row_id]; now apply max_id_bound).
    change (firstn 20 (?x :: ?l)) with (x :: firstn 19 l).
    cbn [show_rows]. unfold show_row at 1.
    cbn [row_id row_timestamp row_encrypted_input row_totals_json].
    rewrite D, L.
    pose proof (show_rows_firstn 19 _ _ G) as G'.
    rewrite firstn_firstn in G'. cbn [Nat.min] in G'. now rewrite G'.
  - intros e He.
    assert (S : forall l out, show_rows decrypt loads l = Some out ->
                              forall e, In e out ->
                                        exists r, In r l /\ log_id e = row_id r).
    { induction l as [|r l IH]; cbn [show_rows]; intros out H e0 He0.
      - inv H. destruct He0.
      - unfold show_row in H. destruct (loads (row_totals_json r)); [|discriminate].
        destruct (show_rows decrypt loads l) as [o|]; [|discriminate].
        inv H. destruct He0 as [<-|He0].
        + exists r. split; [now left | reflexivity].
        + destruct (IH o eq_refl e0 He0) as (r' & Hr' & E).
          exists r'. split; [now right | exact E]. }
    destruct (S _ _ G e He) as (r & Hr & ->).
    apply max_id_bound. apply in_firstn in Hr.
    now apply in_order_by_id_desc.
Qed.

Lemma insert_desc_length (a : Row) (l : list Row) :
  List.length (insert_desc a l) = S (List.length l).
Proof.
  induction l as [|y l IH]; cbn [insert_desc]; [reflexivity|].
  destruct (row_id y <=? row_id a); simpl; [reflexivity | now rewrite IH].
Qed.

Lemma insert_desc_sorted (a : Row) (l : list Row) :
  StronglySorted (fun x y => row_id y <= row_id x) l ->
  StronglySorted (fun x y => row_id y <= row_id x) (insert_desc a l).
Proof.
  induction 1 as [|y l Hl IH Hy]; cbn [insert_desc].
  - repeat constructor.
  - destruct (row_id y <=? row_id a) eqn:E.
    + apply Nat.leb_le in E. constructor; [now constructor|].
      constructor; [exact E|].
      rewrite Forall_forall in *. intros z Hz. specialize (Hy z Hz). lia.
    + apply Nat.leb_gt in E. constructor; [exact IH|].
      rewrite Forall_forall in *. intros z Hz.
      apply in_insert_desc in Hz. destruct Hz as [->|Hz]; [lia | auto].
Qed.

Lemma order_by_id_desc_sorted (rows : list Row) :
  StronglySorted (fun x y => row_id y <= row_id x) (order_by_id_desc rows).
Proof.
  unfold order_by_id_desc. induction rows as [|r rows IH]; cbn [fold_right].
  - constructor.
  - now apply insert_desc_sorted.
Qed.

Lemma order_by_id_desc_length (rows : list Row) :
  List.length (order_by_id_desc rows) = List.length rows.
Proof.
  unfold order_by_id_desc. induction rows as [|r rows IH]; cbn [fold_right].
  - reflexivity.
  - rewrite insert_desc_length. simpl. now rewrite IH.
Qed.

Lemma firstn_sorted {A : Type} (R : A -> A -> Prop) (n : nat) : forall l,
  StronglySorted R l -> StronglySorted R (firstn n l).
Proof.
  induction n as [|n IH]; intros l H; [constructor|].
  destruct H as [|x l Hl Hx]; cbn [firstn]; constructor; [now apply IH|].
  rewrite Forall_forall in *. intros y Hy. apply Hx.
  now apply in_firstn in Hy.
Qed.

Lemma show_rows_ids (rows : list Row) : forall out,
  show_rows decrypt loads rows = Some out ->
  map log_id out = map row_id rows.
Proof.
  induction rows as [|r rows IH]; cbn [show_rows]; intros out H.
  - now inv H.
  - unfold show_row in H.
    destruct (loads (row_totals_json r)); [|discriminate].
    destruct (show_rows decrypt loads rows) as [o|]; [|discriminate].
    inv H. simpl. now rewrite (IH o eq_refl).
Qed.

Lemma sorted_map {A B : Type} (f : A -> B) (R : B -> B -> Prop) (l : list A) :
  StronglySorted (fun x y => R (f x) (f y)) l -> StronglySorted R (map f l).
Proof.
  induction 1 as [|x l Hl IH Hx]; cbn [map]; constructor; [exact IH|].
  rewrite Forall_forall in *. intros y Hy.
  apply in_map_iff in Hy. destruct Hy as (z & <- & Hz). now apply Hx.
Qed.

Lemma insert_desc_perm (a : Row) (l : list Row) :
  Permutation (insert_desc a l) (a :: l).
Proof.
  induction l as [|y l IH]; cbn [insert_desc]; [apply Permutation_refl|].
  destruct (row_id y <=? row_id a); [apply Permutation_refl|].
  apply perm_trans with (y :: a :: l); [now apply perm_skip | apply perm_swap].
Qed.

Lemma order_by_id_desc_perm (rows : list Row) :
  Permutation (order_by_id_desc rows) rows.
Proof.
  unfold order_by_id_desc. induction rows as [|r rows IH]; cbn [fold_right].
  - apply perm_nil.
  - apply perm_trans with (r :: fold_right insert_desc [] rows);
      [apply insert_desc_perm | now apply perm_skip].
Qed.

(** With distinct ids a list in decreasing order is in strictly decreasing
    order. *)
Lemma sorted_strict (l : list Row) :
  StronglySorted (fun x y => row_id y <= row_id x) l ->
  NoDup (map row_id l) ->
  StronglySorted (fun x y => row_id y < row_id x) l.
Proof.
  induction 1 as [|x l Hl IH Hx]; cbn [map]; intros N; [constructor|].
  inversion N as [|? ? Hnot Hrest]; subst.
  constructor; [now apply IH|].
  rewrite Forall_forall in *. intros y Hy. specialize (Hx y Hy).
  assert (row_id y <> row_id x).
  { intros E. apply Hnot. rewrite <- E. now apply in_map. }
  lia.
Qed.

Lemma sorted_app {A : Type} (R : A -> A -> Prop) (l1 l2 : list A) :
  StronglySorted R (l1 ++ l2) ->
  forall x y, In x l1 -> In y l2 -> R x y.
Proof.
  induction l1 as [|a l1 IH]; cbn [app]; intros S x y Hx Hy; [destruct Hx|].
  inversion S as [|? ? S' F]; subst. destruct Hx as [<-|Hx].
  - rewrite Forall_forall in F. apply F, in_or_app. now right.
  - now apply IH.
Qed.

Lemma show_rows_each (rows : list Row) : forall out,
  show_rows decrypt loads rows = Some out ->
  Forall2 (fun e r => show_row decrypt loads r = Some e) out rows.
Proof.
  induction rows as [|r rows IH]; cbn [show_rows]; intros out H.
  - inv H. constructor.
  - destruct (show_row decrypt loads r) as [e|] eqn:E; [|discriminate].
    destruct (show_rows decrypt loads rows) as [o|]; [|discriminate].
    inv H. constructor; [exact E | now apply IH].
Qed.

(** The ids of an [INTEGER PRIMARY KEY] column are distinct, and [save_log]
    keeps them so. *)
Lemma save_log_keeps_ids_distinct (text : str) (tot : amounts) (db : LogDb)
  (rows : list Row) :
  table db = Some rows -> NoDup (map row_id rows) ->
  exists rows',
    table (fst (save_log_db encrypt dumps isoformat text tot db)) = Some rows'
    /\ NoDup (map row_id rows').
Proof.
  intros T N. unfold save_log_db. rewrite T. cbn [fst table].
  eexists. split; [reflexivity|].
  rewrite map_app. cbn [map row_id].
  apply NoDup_rev in N. rewrite <- (rev_involutive (_ ++ _)).
  apply NoDup_rev. rewrite rev_app_distr. cbn [rev app].
  constructor; [|exact N].
  intros Hin. apply in_rev in Hin. apply in_map_iff in Hin.
  destruct Hin as (r & E & Hr). apply max_id_bound in Hr. lia.
Qed.

(** X12. What [get_logs] lists, for a table whose ids are distinct: the
    rows of the table split into the rows shown and the rest; the rows shown
    are 20, or all the rows when the table has fewer; every entry of the
    answer is the decoded row at the same place among the rows shown; the
    ids of the answer are strictly decreasing, so no row is listed twice;
    and every row left out has a smaller id than every row shown. *)
Theorem get_logs_lists_newest_twenty (db : LogDb) (rows : list Row)
  (out : list LogEntry) :
  table db = Some rows ->
  NoDup (map row_id rows) ->
  get_logs decrypt loads db = Some out ->
  exists shown rest,
    Permutation rows (shown ++ rest) /\
    List.length shown = Nat.min 20 (List.length rows) /\
    (List.length rows <= 20 -> rest = []) /\
    Forall2 (fun e r => show_row decrypt loads r = Some e) out shown /\
    StronglySorted (fun a b => b < a) (map log_id out) /\
    (forall r s, In r rest -> In s shown -> row_id r < row_id s).
Proof.
  unfold get_logs. intros T N H. rewrite T in H.
  pose proof (order_by_id_desc_perm rows) as P.
  assert (S : StronglySorted (fun x y => row_id y < row_id x)
                             (order_by_id_desc rows)).
  { apply sorted_strict; [apply order_by_id_desc_sorted|].
    apply (Permutation_NoDup (l := map row_id rows)); [|exact N].
    apply Permutation_map, Permutation_sym, P. }
  exists (firstn 20 (order_by_id_desc rows)), (skipn 20 (order_by_id_desc rows)).
  rewrite firstn_skipn.
  split; [now apply Permutation_sym|].
  split; [now rewrite length_firstn, order_by_id_desc_length|].
  split.
  { intros L. apply skipn_all2. now rewrite order_by_id_desc_length. }
  split; [now apply show_rows_each|].
  split.
  - rewrite (show_rows_ids _ _ H). apply sorted_map, firstn_sorted, S.
  - intros r s Hr Hs. rewrite <- (firstn_skipn 20 (order_by_id_desc rows)) in S.
    exact (sorted_app _ _ _ S s r Hs Hr).
Qed.

(** X13. The route with this log: for a text that is not blank and a table
    that gives every serving size, the answer is the analysis result; when
    the table of logs exists one row is added, with a new id, the encrypted
    text and the encoded totals, and no warning is counted; when it does
    not exist nothing is stored and one warning is counted. *)
Theorem analyze_logs_or_warns (ratio : str -> str -> Q)
  (FOOD_DB : list (str * FoodEntry)) (rdi : nutrient -> option Q)
  (text : str) (w : world LogDb) :
  table_has_servings FOOD_DB ->
  is_empty (strip text) = false ->
  exists r,
    analyze_meal_text ratio FOOD_DB rdi text = Ok r /\
    fst (analyze ratio FOOD_DB rdi (save_log_db encrypt dumps isoformat)
           text w) = Json r /\
    match table (logs w) with
    | Some rows =>
        table (logs (snd (analyze ratio FOOD_DB rdi
                            (save_log_db encrypt dumps isoformat) text w)))
        = Some (rows ++ [MkRow (next_id rows) (isoformat (clock (logs w)))
                               (encrypt (clock (logs w)) text)
                               (dumps (totals r))]) /\
        warnings (snd (analyze ratio FOOD_DB rdi
                         (save_log_db encrypt dumps isoformat) text w))
        = warnings w
    | None =>
        table (logs (snd (analyze ratio FOOD_DB rdi
                            (save_log_db encrypt dumps isoformat) text w)))
        = None /\
        warnings (snd (analyze ratio FOOD_DB rdi
                         (save_log_db encrypt dumps isoformat) text w))
        = S (warnings w)
    end.
Proof.
  intros WF NB.
  destruct (analyze_meal_text_total ratio FOOD_DB rdi text WF) as (r & Hr).
  exists r. split; [exact Hr|].
  unfold analyze. rewrite NB, Hr. unfold save_log_db.
  destruct (table (logs w)) as [rows|]; cbn [fst snd logs warnings table];
    auto.
Qed.

End LogFacts.

(** The log on examples: two analyses saved one after the other. *)
Example two_saves_listed_newest_first :
  let save := save_log_db demo_encrypt demo_dumps demo_isoformat in
  let db1 := fst (save (txt "2 eggs") (fun _ => 0%Q)
                       (init_db (MkLogDb None 0))) in
  let db2 := fst (save (txt "rice") (fun _ => 0%Q) db1) in
  option_map (map (fun e => (log_id e, string_of_list_ascii (log_input e))))
             (get_logs demo_decrypt demo_loads db2)
  = Some [(2, "rice"%string); (1, "2 eggs"%string)]
  /\ get_logs demo_decrypt demo_loads (MkLogDb None 0) = None.
Proof. split; vm_compute; reflexivity. Qed.

Lemma saved_log_is_listed_first_witness :
  let db := MkLogDb (Some [MkRow 1 (txt "0") (demo_encrypt 0 (txt "2 eggs"))
                                 (txt "{}");
                           MkRow 2 (txt "1") (demo_encrypt 1 (txt "rice"))
                                 (txt "{}")]) 2 in
  let older := [MkLogEntry 2 (txt "1") (txt "rice") (fun _ => 0%Q);
                MkLogEntry 1 (txt "0") (txt "2 eggs") (fun _ => 0%Q)] in
  get_logs demo_decrypt demo_loads db = Some older /\
  snd (save_log_db demo_encrypt demo_dumps demo_isoformat (txt "banana")
         (fun _ => 0%Q) db) = false /\
  get_logs demo_decrypt demo_loads
    (fst (save_log_db demo_encrypt demo_dumps demo_isoformat (txt "banana")
            (fun _ => 0%Q) db))
  = Some (MkLogEntry 3 (txt "2") (txt "banana") (fun _ => 0%Q) :: older) /\
  forall e, In e older -> log_id e < 3.
Proof.
  intros db older.
  assert (G : get_logs demo_decrypt demo_loads db = Some older)
    by (vm_compute; reflexivity).
  split; [exact G|].
  apply (saved_log_is_listed_first demo_encrypt demo_decrypt demo_dumps
           demo_loads demo_isoformat (txt "banana") (fun _ => 0%Q) db
           [MkRow 1 (txt "0") (demo_encrypt 0 (txt "2 eggs")) (txt "{}");
            MkRow 2 (txt "1") (demo_encrypt 1 (txt "rice")) (txt "{}")]
           older).
  - reflexivity.
  - exact G.
  - vm_compute. reflexivity.
  - vm_compute. reflexivity.
Defined.

Lemma get_logs_lists_newest_twenty_witness :
  let rows := map (fun i => MkRow i (demo_isoformat i)
                                  (demo_encrypt i (txt "rice")) (txt "{}"))
                  (seq 1 21) in
  NoDup (map row_id rows) /\
  exists (out : list LogEntry) (shown rest : list Row),
    get_logs demo_decrypt demo_loads (MkLogDb (Some rows) 21) = Some out /\
    map log_id out = rev (seq 2 20) /\
    Permutation rows (shown ++ rest) /\
    List.length shown = 20 /\
    Forall2 (fun e r => show_row demo_decrypt demo_loads r = Some e) out shown /\
    (forall r s, In r rest -> In s shown -> row_id r < row_id s).
Proof.
  intros rows.
  assert (N : NoDup (map row_id rows)).
  { unfold rows. rewrite map_map. cbn [row_id]. rewrite map_id.
    apply seq_NoDup. }
  split; [exact N|].
  destruct (get_logs demo_decrypt demo_loads (MkLogDb (Some rows) 21))
    as [out|] eqn:E; [|vm_compute in E; discriminate].
  destruct (get_logs_lists_newest_twenty demo_decrypt demo_loads
              (MkLogDb (Some rows) 21) rows out eq_refl N E)
    as (shown & rest & P & L & _ & F & _ & Lt).
  exists out, shown, rest.
  split; [reflexivity|].
  split; [vm_compute in E; injection E as <-; vm_compute; reflexivity|].
  repeat split; assumption.
Defined.

Lemma analyze_logs_or_warns_witness :
  exists r,
    analyze_meal_text Difflib.ratio egg_db RDI (txt "2 egg") = Ok r /\
    fst (analyze Difflib.ratio egg_db RDI
           (save_log_db demo_encrypt demo_dumps demo_isoformat)
           (txt "2 egg") (MkWorld (MkLogDb None 0) 0)) = Json r /\
    warnings (snd (analyze Difflib.ratio egg_db RDI
                     (save_log_db demo_encrypt demo_dumps demo_isoformat)
                     (txt "2 egg") (MkWorld (MkLogDb None 0) 0))) = 1.
Proof.
  destruct (analyze_logs_or_warns demo_encrypt demo_dumps demo_isoformat
              Difflib.ratio egg_db RDI (txt "2 egg")
              (MkWorld (MkLogDb None 0) 0) egg_db_has_servings)
    as (r & Hr & Hresp & Hlog).
  - vm_compute. reflexivity.
  - exists r. cbn [logs table] in Hlog. destruct Hlog as [_ Hw].
    repeat split; assumption.
Defined.
